(** * The signalling transports of peerjs: chained XHR polling with
      fallback from the web socket, and the close timeout of a connection.

    A shallow embedding of [lib/serverconnection.ts] (classes
    [HttpRequestLongPoll], [HttpRequest], [ServerConnection]) and of
    [BaseConnection], with the properties the specification states about
    them.  Objects become records, a mutation becomes a new record, what
    a method does to the outside (events emitted, requests posted, timers
    armed) becomes a list of effects returned with the new state. *)

From Stdlib Require Import String Ascii List ZArith Lia Bool.
From stdpp Require Import base list strings pretty gmap.

Set Warnings "-register-all".

(** ** The host's [JSON.parse]

    The stream handler only asks of [JSON.parse] whether it throws, and
    hands the value it returns to the listeners.  The general theorems
    below take the parser as a section variable.  The worked examples run
    on [JSON.parse], a parser of the fragment of JSON they use: [null],
    [true], [false], integers, strings without escape sequences, arrays
    and objects, with white space between tokens.  Texts outside this
    fragment (fractions, exponents, escapes) are not used anywhere below. *)

Module JSON.

Inductive value :=
| Null
| Bool (b : bool)
| Num (n : Z)
| Str (s : string)
| Arr (elems : list value)
| Obj (members : list (string * value)).

Definition is_ws (c : ascii) : bool :=
  (c =? " ")%char || (c =? "009")%char || (c =? "010")%char || (c =? "013")%char.

Definition is_digit (c : ascii) : bool :=
  let n := nat_of_ascii c in (48 <=? n) && (n <=? 57).

Fixpoint skip_ws (s : string) : string :=
  match s with
  | String c s' => if is_ws c then skip_ws s' else s
  | EmptyString => s
  end.

(** The digits at the head of [s], read in base ten onto [acc]. *)
Fixpoint digits (acc : Z) (s : string) : Z * string :=
  match s with
  | String c s' =>
      if is_digit c
      then digits (10 * acc + Z.of_nat (nat_of_ascii c - 48)) s'
      else (acc, s)
  | EmptyString => (acc, s)
  end.

(** An integer without sign: one digit at least, no zero in front of
    another digit, no fraction or exponent behind. *)
Definition unsigned (s : string) : option (Z * string) :=
  match s with
  | String c s' =>
      if negb (is_digit c) then None
      else
        let '(n, rest) := digits 0 s in
        let leading_zero :=
          (c =? "0")%char &&
          match s' with String d _ => is_digit d | EmptyString => false end in
        let more :=
          match rest with
          | String d _ => (d =? ".")%char || (d =? "e")%char || (d =? "E")%char
          | EmptyString => false
          end in
        if leading_zero || more then None else Some (n, rest)
  | EmptyString => None
  end.

(** The characters up to the closing quote. *)
Fixpoint chars (s : string) : option (string * string) :=
  match s with
  | String c s' =>
      if (c =? "034")%char then Some (EmptyString, s')
      else if (c =? "\")%char || (nat_of_ascii c <? 32) then None
      else match chars s' with
           | Some (body, rest) => Some (String c body, rest)
           | None => None
           end
  | EmptyString => None
  end.

Definition literal (word : string) (v : value) (s : string)
  : option (value * string) :=
  if String.prefix word s
  then Some (v, String.substring (String.length word)
                  (String.length s - String.length word) s)
  else None.

Section Items.
Variable val : string -> option (value * string).

(** [elements] reads [v , v , ... ]] after the first bracket and the
    white space behind it. *)
Fixpoint elements (fuel : nat) (s : string) : option (list value * string) :=
  match fuel with
  | O => None
  | S fuel' =>
      match val s with
      | Some (v, rest) =>
          match skip_ws rest with
          | String c rest' =>
              if (c =? ",")%char then
                match elements fuel' rest' with
                | Some (vs, rest'') => Some (v :: vs, rest'')
                | None => None
                end
              else if (c =? "]")%char then Some ([v], rest')
              else None
          | EmptyString => None
          end
      | None => None
      end
  end.

(** [members] reads ["k" : v , ... }] after the first brace. *)
Fixpoint members (fuel : nat) (s : string)
  : option (list (string * value) * string) :=
  match fuel with
  | O => None
  | S fuel' =>
      match skip_ws s with
      | String q s1 =>
          if negb (q =? "034")%char then None else
          match chars s1 with
          | Some (k, s2) =>
              match skip_ws s2 with
              | String colon s3 =>
                  if negb (colon =? ":")%char then None else
                  match val s3 with
                  | Some (v, s4) =>
                      match skip_ws s4 with
                      | String c s5 =>
                          if (c =? ",")%char then
                            match members fuel' s5 with
                            | Some (kvs, s6) => Some ((k, v) :: kvs, s6)
                            | None => None
                            end
                          else if (c =? "}")%char then Some ([(k, v)], s5)
                          else None
                      | EmptyString => None
                      end
                  | None => None
                  end
              | EmptyString => None
              end
          | None => None
          end
      | EmptyString => None
      end
  end.
End Items.

(** One value, white space in front of it skipped. *)
Fixpoint val (fuel : nat) (s : string) : option (value * string) :=
  match fuel with
  | O => None
  | S fuel' =>
      match skip_ws s with
      | String c s' =>
          if (c =? "{")%char then
            match skip_ws s' with
            | String "}" rest => Some (Obj [], rest)
            | _ =>
                match members (val fuel') fuel' s' with
                | Some (kvs, rest) => Some (Obj kvs, rest)
                | None => None
                end
            end
          else if (c =? "[")%char then
            match skip_ws s' with
            | String "]" rest => Some (Arr [], rest)
            | _ =>
                match elements (val fuel') fuel' s' with
                | Some (vs, rest) => Some (Arr vs, rest)
                | None => None
                end
            end
          else if (c =? "034")%char then
            match chars s' with
            | Some (body, rest) => Some (Str body, rest)
            | None => None
            end
          else if (c =? "-")%char then
            match unsigned s' with
            | Some (n, rest) => Some (Num (- n), rest)
            | None => None
            end
          else if is_digit c then
            match unsigned (String c s') with
            | Some (n, rest) => Some (Num n, rest)
            | None => None
            end
          else if (c =? "n")%char then literal "null" Null (String c s')
          else if (c =? "t")%char then literal "true" (Bool true) (String c s')
          else if (c =? "f")%char then literal "false" (Bool false) (String c s')
          else None
      | EmptyString => None
      end
  end.

(** [JSON.parse]: [None] stands for the [SyntaxError] it throws.  Each
    step of [val] consumes a character, so the length of the text is
    fuel enough. *)
Definition parse (s : string) : option value :=
  match val (S (String.length s)) s with
  | Some (v, rest) =>
      match skip_ws rest with
      | EmptyString => Some v
      | String _ _ => None
      end
  | None => None
  end.

End JSON.

(** The examples write response bodies with ['] where JSON has the
    double quote and with [|] where the body has a line feed; [js] puts
    the double quotes and the line feeds back. *)
Definition LF : ascii := "010"%char.

Fixpoint js (s : string) : string :=
  match s with
  | String c s' =>
      String (if (c =? "'")%char then "034"%char
              else if (c =? "|")%char then LF else c) (js s')
  | EmptyString => EmptyString
  end.

(** ** Lines of a response body *)

(** [text.split("\n")]: the pieces between the line feeds; one piece more
    than there are line feeds, so the empty text gives one empty piece. *)
Fixpoint split_lines (s : string) : list string :=
  match s with
  | String c s' =>
      if (c =? LF)%char then EmptyString :: split_lines s'
      else match split_lines s' with
           | l :: ls => String c l :: ls
           | [] => [String c EmptyString]
           end
  | EmptyString => [EmptyString]
  end.

(** A string in a condition: only the empty string is falsy; so is
    [undefined], what an array gives outside its bounds. *)
Definition truthy (s : option string) : bool :=
  match s with
  | Some (String _ _) => true
  | Some EmptyString | None => false
  end.

Fixpoint ends_with_newline (s : string) : bool :=
  match s with
  | String c EmptyString => (c =? LF)%char
  | String _ s' => ends_with_newline s'
  | EmptyString => false
  end.

Fixpoint has_newline (s : string) : bool :=
  match s with
  | String c s' => (c =? LF)%char || has_newline s'
  | EmptyString => false
  end.

(** The body the server has written once it has sent [lines] in full,
    and the body a client sees when line [k] has arrived only as far as
    [part]. *)
Definition stream (lines : list string) : string :=
  foldr (fun l body => l +:+ String LF body) EmptyString lines.

Definition snapshot (lines : list string) (k : nat) (part : string) : string :=
  stream (take k lines) +:+ part.

(** Bodies seen one after another while the server writes [lines]: each
    shows the first [k'] lines in full and line [k'] as far as [part],
    with [k'] the count [k] of the body before or one more; the last one
    shows all of [lines]. *)
Inductive paced (lines : list string) : nat -> list string -> Prop :=
| paced_end : paced lines (length lines) []
| paced_next k k' part bodies :
    k <= k' <= S k ->
    k' <= length lines ->
    String.prefix part (default EmptyString (lines !! k')) = true ->
    paced lines k' bodies ->
    paced lines k (snapshot lines k' part :: bodies).

(** ** Events and effects *)

(** Modelled from the spec: [SocketEventType] of [lib/enums.ts], of which
    the transports use [Message], [Disconnected] and [Error]; an event is
    the type with the arguments [emit] passes along. *)
Inductive SocketEventType := Message | Disconnected | Error | Close.

Inductive Event (M : Type) :=
| EvMessage (m : M)
| EvDisconnected
| EvError (what : string)
| EvClose.
Arguments EvMessage {M} m.
Arguments EvDisconnected {M}.
Arguments EvError {M} what.
Arguments EvClose {M}.

Definition event_type {M} (e : Event M) : SocketEventType :=
  match e with
  | EvMessage _ => Message
  | EvDisconnected => Disconnected
  | EvError _ => Error
  | EvClose => Close
  end.

(** Times are in milliseconds. *)
Definition CONNECTION_OPEN_TIMEOUT : N := 5000.

(** ** The host

    Beside [JSON], of which the theorems take [parse] and [stringify] as
    they come, the transport asks two things of the host that the source
    does not determine.  [String.prototype.toLowerCase] folds the letters
    of every alphabet.  [XMLHttpRequest.open] throws a [SyntaxError] when
    the address it is given does not parse as a URL: [open_error] is the
    message of that error, and [None] when [open] returns. *)
Class Host := {
  toLowerCase : string -> string;
  open_error : string -> option string }.

(** ** [HttpRequestLongPoll]: one request of the chain *)

Module Poll.

Record XMLHttpRequest := mkXhr {
  readyState : nat;
  status : nat;
  responseText : string }.

(** A request that was opened and sent and has no answer yet. *)
Definition opened : XMLHttpRequest :=
  {| readyState := 1; status := 0; responseText := EmptyString |}.

(** A request that is new, or that [abort()] has left: unsent, without
    a response. *)
Definition unsent : XMLHttpRequest :=
  {| readyState := 0; status := 0; responseText := EmptyString |}.

(** A request in the course of [abort()], when its [readystatechange] is
    dispatched: done, the response gone. *)
Definition failed : XMLHttpRequest :=
  {| readyState := 4; status := 0; responseText := EmptyString |}.

(** Requests are objects that refer to each other ([previousRequest]) and
    that the host calls back one by one: they live in a store and are
    named by their address. *)
Definition ref := nat.

Record HttpRequestLongPoll := mkPoll {
  index : nat;
  buffer : list nat;
  previousRequest : option ref;
  _xmlHttpRequest : XMLHttpRequest;
  streamIndex : nat;
  _httpUrl : string }.

(** [new HttpRequestLongPoll(streamIndex, httpUrl)] *)
Definition new (streamIndex : nat) (httpUrl : string) : HttpRequestLongPoll :=
  {| index := 1; buffer := []; previousRequest := None;
     _xmlHttpRequest := unsent;
     streamIndex := streamIndex; _httpUrl := httpUrl |}.

Definition set_xhr (x : XMLHttpRequest) (r : HttpRequestLongPoll) :=
  {| index := index r; buffer := buffer r;
     previousRequest := previousRequest r; _xmlHttpRequest := x;
     streamIndex := streamIndex r; _httpUrl := _httpUrl r |}.

Definition set_previousRequest (p : option ref) (r : HttpRequestLongPoll) :=
  {| index := index r; buffer := buffer r;
     previousRequest := p; _xmlHttpRequest := _xmlHttpRequest r;
     streamIndex := streamIndex r; _httpUrl := _httpUrl r |}.

Definition set_cursor (i : nat) (b : list nat) (r : HttpRequestLongPoll) :=
  {| index := i; buffer := b;
     previousRequest := previousRequest r; _xmlHttpRequest := _xmlHttpRequest r;
     streamIndex := streamIndex r; _httpUrl := _httpUrl r |}.

(** [send()], as far as the request itself goes, when [open] does not
    throw: it is opened and sent.  The timeout that [send] arms lives with
    the other timers, in the transport; so does [abort], which runs the
    handler of the request. *)
Definition send (r : HttpRequestLongPoll) : HttpRequestLongPoll :=
  set_xhr opened r.

(** A request the host is at work on: sent and not done. *)
Definition in_progress (r : HttpRequestLongPoll) : bool :=
  let state := readyState (_xmlHttpRequest r) in (0 <? state) && (state <? 4).

Definition isSuccess (r : HttpRequestLongPoll) : bool :=
  let x := _xmlHttpRequest r in
  (2 <? readyState x) && (status x =? 200) && truthy (Some (responseText x)).

Definition getMessages (r : HttpRequestLongPoll) : list string :=
  split_lines (responseText (_xmlHttpRequest r)).

Definition hasBufferedIndices (r : HttpRequestLongPoll) : bool :=
  negb (length (buffer r) =? 0).

(** [buffer.shift()] *)
Definition popBufferedIndex (r : HttpRequestLongPoll)
  : option nat * HttpRequestLongPoll :=
  match buffer r with
  | i :: rest => (Some i, set_cursor (index r) rest r)
  | [] => (None, r)
  end.

Definition pushIndexToBuffer (i : nat) (r : HttpRequestLongPoll) :=
  set_cursor (index r) (buffer r ++ [i]) r.

End Poll.

(** ** [HttpRequest]: the transport that chains the requests *)

Module Transport.
Import Poll.

(** What [send] is given: an object that [JSON.stringify] serialises and
    whose field [type] is a string or is not there. *)
Record Data := mkData {
  type : option string;
  payload : string }.

(** The callbacks the transport hands to [setTimeout]. *)
Inductive Callback :=
| OpenTimeout (r : ref)
| HttpTimeout.

Record Timer := mkTimer {
  delay : N;
  callback : Callback }.

Definition HTTP_TIMEOUT : N := 25000.

(** What a method does to the outside: it emits an event, posts a
    request, calls [abort()] on a request of the chain, writes to the
    log, or throws (the exception leaves the method). *)
Inductive Effect (M : Type) :=
| Emit (e : Event M)
| Post (url : string) (contentType : option string) (body : option string)
| Abort (r : ref)
| Log (text : string) (detail : option string)
| Throw (message : string).
Arguments Emit {M} e.
Arguments Post {M} url contentType body.
Arguments Abort {M} r.
Arguments Log {M} text detail.
Arguments Throw {M} message.

Definition is_abort {M} (e : Effect M) : bool :=
  match e with Abort _ => true | _ => false end.

(** The object with what it shares with the host: the requests it has
    created ([store], [next_ref] the next free address) and the timers
    that are pending ([timers], [next_timer] the next handle; handles
    start at 1). *)
Record HttpRequest := mkHttp {
  _disconnected : bool;
  _id : option string;
  _httpUrl : option string;
  _timeout : option nat;
  _messagesQueue : list Data;
  _httpRequest : option ref;
  _baseUrl : string;
  store : gmap ref HttpRequestLongPoll;
  next_ref : ref;
  timers : gmap nat Timer;
  next_timer : nat }.

(** [new HttpRequest(secure, host, port, path, key)] *)
Definition new (secure : bool) (host : string) (port : N) (path key : string)
  : HttpRequest :=
  let httpProtocol := if secure then "https://" else "http://" in
  {| _disconnected := true; _id := None; _httpUrl := None; _timeout := None;
     _messagesQueue := []; _httpRequest := None;
     _baseUrl := httpProtocol +:+ host +:+ ":" +:+ pretty port +:+ path +:+ key;
     store := ∅; next_ref := 0; timers := ∅; next_timer := 1 |}.

Definition set_disconnected (b : bool) (t : HttpRequest) : HttpRequest :=
  {| _disconnected := b; _id := _id t; _httpUrl := _httpUrl t;
     _timeout := _timeout t; _messagesQueue := _messagesQueue t;
     _httpRequest := _httpRequest t; _baseUrl := _baseUrl t;
     store := store t; next_ref := next_ref t;
     timers := timers t; next_timer := next_timer t |}.

Definition set_destination (id url : string) (t : HttpRequest) : HttpRequest :=
  {| _disconnected := _disconnected t; _id := Some id; _httpUrl := Some url;
     _timeout := _timeout t; _messagesQueue := _messagesQueue t;
     _httpRequest := _httpRequest t; _baseUrl := _baseUrl t;
     store := store t; next_ref := next_ref t;
     timers := timers t; next_timer := next_timer t |}.

Definition set_messagesQueue (q : list Data) (t : HttpRequest) : HttpRequest :=
  {| _disconnected := _disconnected t; _id := _id t; _httpUrl := _httpUrl t;
     _timeout := _timeout t; _messagesQueue := q;
     _httpRequest := _httpRequest t; _baseUrl := _baseUrl t;
     store := store t; next_ref := next_ref t;
     timers := timers t; next_timer := next_timer t |}.

Definition set_store (s : gmap ref HttpRequestLongPoll) (t : HttpRequest)
  : HttpRequest :=
  {| _disconnected := _disconnected t; _id := _id t; _httpUrl := _httpUrl t;
     _timeout := _timeout t; _messagesQueue := _messagesQueue t;
     _httpRequest := _httpRequest t; _baseUrl := _baseUrl t;
     store := s; next_ref := next_ref t;
     timers := timers t; next_timer := next_timer t |}.

(** [const r = new HttpRequestLongPoll(..); this._httpRequest = r] *)
Definition alloc (p : HttpRequestLongPoll) (t : HttpRequest) : HttpRequest :=
  {| _disconnected := _disconnected t; _id := _id t; _httpUrl := _httpUrl t;
     _timeout := _timeout t; _messagesQueue := _messagesQueue t;
     _httpRequest := Some (next_ref t); _baseUrl := _baseUrl t;
     store := <[next_ref t := p]> (store t); next_ref := S (next_ref t);
     timers := timers t; next_timer := next_timer t |}.

(** [setTimeout(callback, delay)]: the handle is fresh and not zero. *)
Definition setTimeout (c : Callback) (d : N) (t : HttpRequest)
  : nat * HttpRequest :=
  (next_timer t,
   {| _disconnected := _disconnected t; _id := _id t; _httpUrl := _httpUrl t;
      _timeout := _timeout t; _messagesQueue := _messagesQueue t;
      _httpRequest := _httpRequest t; _baseUrl := _baseUrl t;
      store := store t; next_ref := next_ref t;
      timers := <[next_timer t := mkTimer d c]> (timers t);
      next_timer := S (next_timer t) |}).

Definition set_timeout (h : option nat) (t : HttpRequest) : HttpRequest :=
  {| _disconnected := _disconnected t; _id := _id t; _httpUrl := _httpUrl t;
     _timeout := h; _messagesQueue := _messagesQueue t;
     _httpRequest := _httpRequest t; _baseUrl := _baseUrl t;
     store := store t; next_ref := next_ref t;
     timers := timers t; next_timer := next_timer t |}.

(** [clearTimeout(handle)]; with [undefined] or a handle that has run it
    does nothing. *)
Definition clearTimeout (h : option nat) (t : HttpRequest) : HttpRequest :=
  {| _disconnected := _disconnected t; _id := _id t; _httpUrl := _httpUrl t;
     _timeout := _timeout t; _messagesQueue := _messagesQueue t;
     _httpRequest := _httpRequest t; _baseUrl := _baseUrl t;
     store := store t; next_ref := next_ref t;
     timers := match h with Some h => delete h (timers t) | None => timers t end;
     next_timer := next_timer t |}.

(** A string that may be [undefined], in a concatenation. *)
Definition text (s : option string) : string := default "undefined" s.

Section Methods.
Context {M : Type} `{!Host}.
(** [JSON.parse] and [JSON.stringify] of the host. *)
Variable parse : string -> option M.
Variable stringify : Data -> string.

(** The loop that empties the buffer: each offset taken from the front
    is read in [messages] and parsed; when that throws, the offset goes
    back to the front and the loop ends.  The result is the buffer that
    is left and the messages emitted. *)
Fixpoint drain (messages : list string) (buf : list nat) : list nat * list M :=
  match buf with
  | i :: rest =>
      match messages !! i ≫= parse with
      | Some m => let '(rest', out) := drain messages rest in (rest', m :: out)
      | None => (i :: rest, [])
      end
  | [] => ([], [])
  end.

(** The same loop written with the methods of the request, as the source
    has it, on fuel: [hasBufferedIndices], [popBufferedIndex], and
    [buffer.unshift(index)] before the [break].  [drain_loop_drain] below
    shows that the two agree once the fuel covers the buffer. *)
Fixpoint drain_loop (fuel : nat) (messages : list string)
  (r : HttpRequestLongPoll) : HttpRequestLongPoll * list M :=
  match fuel with
  | S fuel' =>
      if hasBufferedIndices r then
        match popBufferedIndex r with
        | (Some i, r1) =>
            match messages !! i ≫= parse with
            | Some m =>
                let '(r2, out) := drain_loop fuel' messages r1 in (r2, m :: out)
            | None => (set_cursor (index r1) (i :: buffer r1) r1, [])
            end
        | (None, r1) => (r1, [])
        end
      else (r, [])
  | O => (r, [])
  end.

Definition _handleStream (httpRequest : HttpRequestLongPoll)
  : HttpRequestLongPoll * list (Effect M) :=
  let messages := getMessages httpRequest in
  let '(remaining, out) := drain messages (buffer httpRequest) in
  let emitted := (fun m => Emit (EvMessage m)) <$> out in
  let r := set_cursor (index httpRequest) remaining httpRequest in
  let message := messages !! index r in
  if truthy message then
    let r := set_cursor (index r + 1) (buffer r) r in
    if index r =? length messages then
      (pushIndexToBuffer (index r - 1) r, emitted)
    else
      match message ≫= parse with
      | Some m => (r, emitted ++ [Emit (EvMessage m)])
      | None => (r, emitted ++ [Log "Invalid server message" message])
      end
  else (r, emitted).

(** The host has received [body] so far and reports it: the request is
    loading with status 200, and its [onSuccess] runs [_handleStream]. *)
Definition feed (body : string) (r : HttpRequestLongPoll)
  : HttpRequestLongPoll * list (Effect M) :=
  _handleStream
    (set_xhr {| readyState := 3; status := 200; responseText := body |} r).

Fixpoint feed_all (bodies : list string) (r : HttpRequestLongPoll)
  : HttpRequestLongPoll * list (Effect M) :=
  match bodies with
  | body :: bodies' =>
      let '(r1, out1) := feed body r in
      let '(r2, out2) := feed_all bodies' r1 in
      (r2, out1 ++ out2)
  | [] => (r, [])
  end.

(** The messages among the effects, in the order of their emission. *)
Definition messages (out : list (Effect M)) : list M :=
  omap (fun e => match e with Emit (EvMessage m) => Some m | _ => None end) out.

(** The text of line [i] of the body the request holds, parsed. *)
Definition parsed (r : HttpRequestLongPoll) (i : nat) : option M :=
  getMessages r !! i ≫= parse.

(** What holds of the cursor of every request the handler has worked
    on: the read index is 1 at least and the buffered offsets lie below
    it. *)
Definition cursor_ok (r : HttpRequestLongPoll) : Prop :=
  1 <= index r /\ Forall (fun j => 1 <= j < index r) (buffer r).

(** A line that carries a message: a text that is not empty, that
    parses, and of which no proper prefix parses (as it is with an object
    or an array). *)
Definition message_line (l : string) : Prop :=
  l <> EmptyString /\ is_Some (parse l) /\
  forall part, String.prefix part l = true -> part <> l -> parse part = None.

(** How far the handler is when the body shows [k] complete lines of
    [lines] and the messages of lines 1 to [e] are out: either it waits at
    line [e + 1] with nothing buffered, or it has buffered line [e + 1],
    of which it has seen a part. *)
Definition caught_up (lines : list string) (k e : nat)
  (r : HttpRequestLongPoll) : Prop :=
  (index r = e + 1 /\ buffer r = [] /\ k <= e + 1 /\ e <= k /\
   e <= length lines - 1)
  \/ (index r = e + 2 /\ buffer r = [e + 1] /\ k = e + 1 /\
      e + 1 < length lines).

(** [HttpRequestLongPoll.needsClearPreviousRequest], read in the store. *)
Definition needsClearPreviousRequest (t : HttpRequest) (r : HttpRequestLongPoll)
  : bool :=
  ((readyState (_xmlHttpRequest r) =? 2) && bool_decide (is_Some (previousRequest r)))
  || match previousRequest r with
     | Some p =>
         match store t !! p with
         | Some prev => readyState (_xmlHttpRequest prev) <? 2
         | None => false
         end
     | None => false
     end.

(** The handler of [readystatechange] and what it calls, with [abort]
    left open: the handler aborts a predecessor, and [abort] runs the
    handler of the request it aborts. *)
Section Dispatch.
Variable abort : ref -> HttpRequest -> HttpRequest * list (Effect M).

(** [HttpRequestLongPoll.clearPreviousRequest] of the request at [this]. *)
Definition clear_previous (this : ref) (t : HttpRequest)
  : HttpRequest * list (Effect M) :=
  match store t !! this with
  | Some r =>
      match previousRequest r with
      | Some p =>
          let '(t, out) := abort p t in
          (set_store (alter (set_previousRequest None) this (store t)) t, out)
      | None => (t, [])
      end
  | None => (t, [])
  end.

(** The handler of [readystatechange] of the request at [this]. *)
Definition state_changed (this : ref) (t : HttpRequest)
  : HttpRequest * list (Effect M) :=
  match store t !! this with
  | Some r =>
      if needsClearPreviousRequest t r then clear_previous this t
      else if isSuccess r then
        let '(r', out) := _handleStream r in
        (set_store (<[this := r']> (store t)) t, out)
      else (t, [])
  | None => (t, [])
  end.

End Dispatch.

(** [HttpRequestLongPoll.abort] of the request at [this], which is
    [XMLHttpRequest.abort()].  On a request that is in progress the host
    sets the state to 4 with the response gone and dispatches
    [readystatechange]: the handler of the request runs before [abort]
    returns, and may abort a predecessor in turn; then the host sets the
    state to 0.  A request that is not in progress, done or unsent, is
    left unsent and without a response, and no event is dispatched.
    [fuel] bounds the aborts within aborts.  Each of them has set a
    request that was in progress to state 4 before the next begins, so
    that there are no more of them than requests in progress:
    [abort_within_enough] below. *)
Fixpoint abort_within (fuel : nat) (this : ref) (t : HttpRequest)
  : HttpRequest * list (Effect M) :=
  match fuel with
  | S fuel' =>
      match store t !! this with
      | Some r =>
          if in_progress r then
            let t := set_store (<[this := set_xhr failed r]> (store t)) t in
            let '(t, out) := state_changed (abort_within fuel') this t in
            (set_store (alter (set_xhr unsent) this (store t)) t,
             Abort this :: out)
          else (set_store (alter (set_xhr unsent) this (store t)) t, [Abort this])
      | None => (t, [Abort this])
      end
  | O => (t, [])
  end.

(** The requests in progress, counted. *)
Definition in_flight (t : HttpRequest) : nat :=
  size (filter (fun kr => in_progress kr.2 = true) (store t)).

Definition abort (this : ref) (t : HttpRequest) : HttpRequest * list (Effect M) :=
  abort_within (S (in_flight t)) this t.

Definition clearPreviousRequest : ref -> HttpRequest -> HttpRequest * list (Effect M) :=
  clear_previous abort.

Definition onreadystatechange : ref -> HttpRequest -> HttpRequest * list (Effect M) :=
  state_changed abort.

(** [newRequest.onError] *)
Definition onError (t : HttpRequest) : HttpRequest * list (Effect M) :=
  (clearTimeout (_timeout t) t, [Emit EvDisconnected]).

Definition _setHTTPTimeout (t : HttpRequest) : HttpRequest :=
  let '(h, t) := setTimeout HttpTimeout HTTP_TIMEOUT t in
  set_timeout (Some h) t.

(** [_startXhrStream(streamIndex)]: the request is created and becomes
    the current one.  When [open] takes its address, [newRequest.send()]
    posts it and arms its open timeout, and the idle timeout is armed;
    the [readystatechange] that [open] dispatches finds a request without
    predecessor and without response, on which the handler does nothing.
    When [open] throws, the request stays unsent, no timeout is armed and
    the error is logged. *)
Definition _startXhrStream (streamIndex : nat) (t : HttpRequest)
  : HttpRequest * list (Effect M) :=
  let url := text (_httpUrl t) in
  let newRequest := next_ref t in
  let address := url +:+ "/id?i=" +:+ pretty streamIndex in
  match open_error address with
  | None =>
      let t := alloc (Poll.send (Poll.new streamIndex url)) t in
      let '(_, t) := setTimeout (OpenTimeout newRequest) CONNECTION_OPEN_TIMEOUT t in
      (_setHTTPTimeout t, [Post address None None])
  | Some message =>
      (alloc (Poll.new streamIndex url) t,
       [Log "Error while sending through XMLHttpRequest" (Some message)])
  end.

Definition start (id token : string) (t : HttpRequest)
  : HttpRequest * list (Effect M) :=
  if bool_decide (is_Some (_httpRequest t)) || negb (_disconnected t) then (t, [])
  else
    let t := set_destination id (_baseUrl t +:+ "/" +:+ id +:+ "/" +:+ token) t in
    let '(t, out) := _startXhrStream 0 t in
    (set_disconnected false t, out).

(** [send(data)].  When [open] throws on the address, the exception
    leaves [send] and nothing is posted. *)
Definition send (data : Data) (t : HttpRequest) : HttpRequest * list (Effect M) :=
  if _disconnected t then (t, [])
  else if negb (truthy (_id t)) then
    (set_messagesQueue (_messagesQueue t ++ [data]) t, [])
  else if negb (truthy (type data)) then (t, [Emit (EvError "Invalid message")])
  else
    let message := stringify data in
    let url := text (_httpUrl t) +:+ "/" +:+ toLowerCase (text (type data)) in
    match open_error url with
    | None => (t, [Post url (Some "application/json") (Some message)])
    | Some error => (t, [Throw error])
    end.

Definition _cleanup (t : HttpRequest) : HttpRequest * list (Effect M) :=
  let t := clearTimeout (_timeout t) t in
  match _httpRequest t with
  | Some r => abort r t
  | None => (t, [])
  end.

Definition close (t : HttpRequest) : HttpRequest * list (Effect M) :=
  if _disconnected t then (t, [])
  else
    let '(t, out) := _cleanup t in
    (set_disconnected true t, out).

(** What a timer does when it runs. *)
Definition run_callback (c : Callback) (t : HttpRequest)
  : HttpRequest * list (Effect M) :=
  match c with
  | OpenTimeout r =>
      match store t !! r with
      | Some p =>
          if readyState (_xmlHttpRequest p) <? 2 then
            let '(t, out1) := abort r t in
            let '(t, out2) := onError t in
            (t, out1 ++ out2)
          else (t, [])
      | None => (t, [])
      end
  | HttpTimeout =>
      match _httpRequest t with
      | Some oldHttp =>
          match store t !! oldHttp with
          | Some old =>
              let '(t, out) := _startXhrStream (streamIndex old + 1) t in
              match _httpRequest t with
              | Some r =>
                  (set_store (alter (set_previousRequest (Some oldHttp)) r (store t)) t,
                   out)
              | None => (t, out)
              end
          | None => (t, [])
          end
      | None => (t, [])
      end
  end.

(** What happens to a transport: its three methods are called, the host
    reports progress of a request (the new state of the request, then
    [readystatechange]), reports an error of a request, or runs a timer
    that is pending. *)
Inductive Input :=
| CallStart (id token : string)
| CallSend (data : Data)
| CallClose
| ReadyStateChange (r : ref) (x : XMLHttpRequest)
| XhrError (r : ref)
| TimerFires (h : nat).

Definition step (i : Input) (t : HttpRequest) : HttpRequest * list (Effect M) :=
  match i with
  | CallStart id token => start id token t
  | CallSend data => send data t
  | CallClose => close t
  | ReadyStateChange r x =>
      onreadystatechange r (set_store (alter (set_xhr x) r (store t)) t)
  | XhrError r =>
      match store t !! r with
      | Some _ => onError t
      | None => (t, [])
      end
  | TimerFires h =>
      match timers t !! h with
      | Some timer => run_callback (callback timer) (clearTimeout (Some h) t)
      | None => (t, [])
      end
  end.

Fixpoint run (inputs : list Input) (t : HttpRequest)
  : HttpRequest * list (Effect M) :=
  match inputs with
  | i :: inputs' =>
      let '(t1, out1) := step i t in
      let '(t2, out2) := run inputs' t1 in
      (t2, out1 ++ out2)
  | [] => (t, [])
  end.

(** The transports there can be: a new one, and what inputs make of
    it. *)
Definition reachable (t : HttpRequest) : Prop :=
  exists secure host port path key inputs,
    t = (run inputs (new secure host port path key)).1.

Definition is_start (i : Input) : bool :=
  match i with CallStart _ _ => true | _ => false end.

(** A call of [start] that names a session: its id is not empty. *)
Definition names_session (i : Input) : Prop :=
  match i with CallStart id _ => id <> EmptyString | _ => True end.


(** A store [s'] that has come from [s] without a new request: the
    requests of [s] are still there at their place in the chain, each
    with the predecessor it had or with none. *)
Definition keeps (s s' : gmap ref HttpRequestLongPoll) : Prop :=
  (forall k r, s !! k = Some r -> is_Some (s' !! k)) /\
  (forall k r', s' !! k = Some r' ->
     exists r, s !! k = Some r /\ streamIndex r' = streamIndex r /\
               (previousRequest r' = None \/
                previousRequest r' = previousRequest r)).


End Methods.

Arguments abort : simpl never.
Arguments clearPreviousRequest : simpl never.
Arguments onreadystatechange : simpl never.

End Transport.

(** ** [ServerConnection]: the web socket with the fallback *)

Module Channel.

(** The two transports the channel wraps.  The web socket is code of
    [lib/socket.ts]; the channel calls its [start], [send] and [close]
    and receives what it emits.  The calls are effects here and the
    events are inputs, for both transports alike: no call emits before it
    returns except the [send] of the fallback, whose ["Invalid message"]
    finds [_currentConnection] as the call found it. *)
Inductive Connection := WebSocket | Http.

#[export] Instance Connection_eq_dec : EqDecision Connection.
Proof. solve_decision. Defined.

Inductive Method :=
| Start (id token : option string)
| Send (data : Transport.Data)
| CloseIt.

Inductive Effect (M : Type) :=
| Emit (e : Event M)
| Call (c : Connection) (m : Method).
Arguments Emit {M} e.
Arguments Call {M} c m.

(** [_socketOpenTimeout] is the handle of the open timeout or [null]; the
    handle is represented by the time at which the timeout is due, from
    which on the host may run the callback. *)
Record ServerConnection := mkChannel {
  _serverId : option string;
  _serverToken : option string;
  _currentConnection : option Connection;
  _socketOpenTimeout : option N }.

(** [new ServerConnection(..)] *)
Definition new : ServerConnection :=
  {| _serverId := None; _serverToken := None;
     _currentConnection := None; _socketOpenTimeout := None |}.

Definition set_current (c : option Connection) (s : ServerConnection) :=
  {| _serverId := _serverId s; _serverToken := _serverToken s;
     _currentConnection := c; _socketOpenTimeout := _socketOpenTimeout s |}.

Definition set_session (id token : string) (s : ServerConnection) :=
  {| _serverId := Some id; _serverToken := Some token;
     _currentConnection := _currentConnection s;
     _socketOpenTimeout := _socketOpenTimeout s |}.

Definition set_socketOpenTimeout (h : option N) (s : ServerConnection) :=
  {| _serverId := _serverId s; _serverToken := _serverToken s;
     _currentConnection := _currentConnection s; _socketOpenTimeout := h |}.

Section Methods.
Context {M : Type}.

Definition _stopSocketOpenTimeout (s : ServerConnection) : ServerConnection :=
  set_socketOpenTimeout None s.

Definition _startSocketOpenTimeout (now : N) (s : ServerConnection)
  : ServerConnection :=
  set_socketOpenTimeout (Some (now + CONNECTION_OPEN_TIMEOUT)%N)
    (_stopSocketOpenTimeout s).

Definition _startSocket (now : N) (s : ServerConnection)
  : ServerConnection * list (Effect M) :=
  let s := set_current None s in
  let s := set_current (Some WebSocket) s in
  let s := _startSocketOpenTimeout now s in
  (s, [Call Http CloseIt; Call WebSocket (Start (_serverId s) (_serverToken s))]).

Definition _startHttp (s : ServerConnection)
  : ServerConnection * list (Effect M) :=
  let s := set_current None s in
  let s := set_current (Some Http) s in
  let s := _stopSocketOpenTimeout s in
  (s, [Call WebSocket CloseIt; Call Http (Start (_serverId s) (_serverToken s))]).

Definition start (now : N) (id token : string) (s : ServerConnection)
  : ServerConnection * list (Effect M) :=
  _startSocket now (set_session id token s).

Definition send (data : Transport.Data) (s : ServerConnection)
  : ServerConnection * list (Effect M) :=
  match _currentConnection s with
  | Some c => (s, [Call c (Send data)])
  | None => (s, [])
  end.

Definition close (s : ServerConnection) : ServerConnection * list (Effect M) :=
  let s := _stopSocketOpenTimeout s in
  (set_current None s,
   match _currentConnection s with
   | Some c => [Call c CloseIt]
   | None => []
   end).

Definition _interceptedSocketEmit (e : Event M) (s : ServerConnection)
  : ServerConnection * list (Effect M) :=
  let forward s :=
    (s, if bool_decide (_currentConnection s = Some WebSocket) then [Emit e] else [])
  in
  match _socketOpenTimeout s with
  | Some _ =>
      match event_type e with
      | Disconnected => _startHttp s
      | Message => forward (_stopSocketOpenTimeout s)
      | _ => forward s
      end
  | None => forward s
  end.

Definition _interceptedHttpRequestEmit (e : Event M) (s : ServerConnection)
  : ServerConnection * list (Effect M) :=
  (s, if bool_decide (_currentConnection s = Some Http) then [Emit e] else []).

(** What happens to a channel: its methods are called, or one of its
    transports emits an event. *)
Inductive Input :=
| CallStart (id token : string)
| CallSend (data : Transport.Data)
| CallClose
| Emits (c : Connection) (e : Event M).

Definition handle (now : N) (i : Input) (s : ServerConnection)
  : ServerConnection * list (Effect M) :=
  match i with
  | CallStart id token => start now id token s
  | CallSend data => send data s
  | CallClose => close s
  | Emits WebSocket e => _interceptedSocketEmit e s
  | Emits Http e => _interceptedHttpRequestEmit e s
  end.

(** The host runs the callback of the open timeout, [_startHttp]: it
    does so if the timeout is pending and its time has come. *)
Definition expire (now : N) (s : ServerConnection)
  : ServerConnection * list (Effect M) :=
  match _socketOpenTimeout s with
  | Some due => if (due <=? now)%N then _startHttp s else (s, [])
  | None => (s, [])
  end.

(** A host that is never late: an input that arrives at time [now]
    finds the channel as the timeout due by then has left it. *)
Definition react (now : N) (i : Input) (s : ServerConnection)
  : ServerConnection * list (Effect M) :=
  let '(s1, out1) := expire now s in
  let '(s2, out2) := handle now i s1 in
  (s2, out1 ++ out2).

Fixpoint run (inputs : list (N * Input)) (s : ServerConnection)
  : ServerConnection * list (Effect M) :=
  match inputs with
  | (now, i) :: inputs' =>
      let '(s1, out1) := react now i s in
      let '(s2, out2) := run inputs' s1 in
      (s2, out1 ++ out2)
  | [] => (s, [])
  end.

(** The channel as an observer finds it at time [now], after [inputs]. *)
Definition observe (inputs : list (N * Input)) (now : N) (s : ServerConnection)
  : ServerConnection * list (Effect M) :=
  let '(s1, out1) := run inputs s in
  let '(s2, out2) := expire now s1 in
  (s2, out1 ++ out2).

(** The host at large.  A timer runs no earlier than it is due; how
    much later, the host does not say, and what arrives in the meantime
    finds the timeout pending.  A turn of the host delivers an input or
    runs the callback of the open timeout. *)
Inductive Turn :=
| Delivers (i : Input)
| RunsTimeout.

Definition turn (now : N) (k : Turn) (s : ServerConnection)
  : ServerConnection * list (Effect M) :=
  match k with
  | Delivers i => handle now i s
  | RunsTimeout => expire now s
  end.

Fixpoint play (turns : list (N * Turn)) (s : ServerConnection)
  : ServerConnection * list (Effect M) :=
  match turns with
  | (now, k) :: turns' =>
      let '(s1, out1) := turn now k s in
      let '(s2, out2) := play turns' s1 in
      (s2, out1 ++ out2)
  | [] => (s, [])
  end.

(** Inputs, delivered one after the other with no timer in between. *)
Definition delivered (inputs : list (N * Input)) : list (N * Turn) :=
  (fun '(now, i) => (now, Delivers i)) <$> inputs.

(** The turns of the host that is never late: it comes to the timer
    before each input it delivers. *)
Definition punctual (inputs : list (N * Input)) : list (N * Turn) :=
  flat_map (fun '(now, i) => [(now, RunsTimeout); (now, Delivers i)]) inputs.

(** An input that leaves the open timeout pending: anything but a
    message or a disconnect of the web socket and but [start] and
    [close]. *)
Definition quiet (i : Input) : bool :=
  match i with
  | Emits WebSocket e =>
      match event_type e with
      | Message | Disconnected => false
      | _ => true
      end
  | CallStart _ _ | CallClose => false
  | _ => true
  end.

Definition is_start (i : Input) : bool :=
  match i with CallStart _ _ => true | _ => false end.

Definition is_close (i : Input) : bool :=
  match i with CallClose => true | _ => false end.



(** How often the fallback has been started. *)
Definition is_http_start (e : Effect M) : bool :=
  match e with Call Http (Start _ _) => true | _ => false end.

Definition http_starts (out : list (Effect M)) : nat :=
  length (List.filter is_http_start out).

(** The events the channel has passed on to its own listeners. *)
Definition forwarded (out : list (Effect M)) : list (Event M) :=
  omap (fun e => match e with Emit e => Some e | _ => None end) out.

(** The two conditions a session is in: on the web socket with the open
    timeout pending until [due], or off the web socket for good, with no
    timeout pending. *)
Definition pending (due : N) (s : ServerConnection) : Prop :=
  _currentConnection s = Some WebSocket /\ _socketOpenTimeout s = Some due.

Definition fallen (s : ServerConnection) : Prop :=
  _currentConnection s <> Some WebSocket /\ _socketOpenTimeout s = None.

End Methods.
End Channel.

(** ** [BaseConnection]: the close timeout of a connection *)

Module Connection.

Definition CLOSE_TIMEOUT : N := 15000.

(** The fields the base class works on, with the timers of the host that
    are pending ([timers], by handle, with their delay; handles start at
    1, so that a handle is truthy). *)
Record BaseConnection := mkConnection {
  _open : bool;
  reconnectTimeoutId : nat;
  reconnectable : bool;
  timers : gmap nat N;
  next_timer : nat }.

(** A connection as its constructor leaves it, in a host whose next
    handle is [S h]. *)
Definition new (h : nat) : BaseConnection :=
  {| _open := false; reconnectTimeoutId := 0; reconnectable := false;
     timers := ∅; next_timer := S h |}.

Definition open (c : BaseConnection) : bool := _open c.

Definition set_open (b : bool) (c : BaseConnection) : BaseConnection :=
  {| _open := b; reconnectTimeoutId := reconnectTimeoutId c;
     reconnectable := reconnectable c;
     timers := timers c; next_timer := next_timer c |}.

Definition set_reconnectable (b : bool) (c : BaseConnection) : BaseConnection :=
  {| _open := _open c; reconnectTimeoutId := reconnectTimeoutId c;
     reconnectable := b;
     timers := timers c; next_timer := next_timer c |}.

(** [this.reconnectTimeoutId = self.setTimeout(callback, 15000)] *)
Definition arm (c : BaseConnection) : BaseConnection :=
  {| _open := _open c; reconnectTimeoutId := next_timer c;
     reconnectable := reconnectable c;
     timers := <[next_timer c := CLOSE_TIMEOUT]> (timers c);
     next_timer := S (next_timer c) |}.

Inductive Effect := CallsClose.

Section Lifecycle.
(** The [close] a kind of connection supplies, as it changes the fields
    of the base class. *)
Variable close : BaseConnection -> BaseConnection.

Definition setCloseTimeout (c : BaseConnection) : BaseConnection * bool :=
  if negb (reconnectable c) || negb (open c) then (c, false)
  else
    (if reconnectTimeoutId c =? 0 then arm c else c, true).

Definition clearCloseTimeout (c : BaseConnection) : BaseConnection :=
  {| _open := _open c; reconnectTimeoutId := 0;
     reconnectable := reconnectable c;
     timers := delete (reconnectTimeoutId c) (timers c);
     next_timer := next_timer c |}.

(** The callback of the timeout: [() => this.open && this.close()]. *)
Definition timeout_callback (c : BaseConnection) : BaseConnection * list Effect :=
  if open c then (close c, [CallsClose]) else (c, []).

(** The host runs the timer with handle [h], if it is pending. *)
Definition fire (h : nat) (c : BaseConnection) : BaseConnection * list Effect :=
  match timers c !! h with
  | Some _ =>
      timeout_callback
        {| _open := _open c; reconnectTimeoutId := reconnectTimeoutId c;
           reconnectable := reconnectable c;
           timers := delete h (timers c); next_timer := next_timer c |}
  | None => (c, [])
  end.

(** What happens to a connection: the two methods are called, the code
    that owns the connection assigns its flags, the host runs a timer. *)
Inductive Input :=
| CallSetCloseTimeout
| CallClearCloseTimeout
| AssignOpen (b : bool)
| AssignReconnectable (b : bool)
| TimerFires (h : nat).

Definition step (i : Input) (c : BaseConnection) : BaseConnection * list Effect :=
  match i with
  | CallSetCloseTimeout => (fst (setCloseTimeout c), [])
  | CallClearCloseTimeout => (clearCloseTimeout c, [])
  | AssignOpen b => (set_open b c, [])
  | AssignReconnectable b => (set_reconnectable b c, [])
  | TimerFires h => fire h c
  end.

Fixpoint run (inputs : list Input) (c : BaseConnection)
  : BaseConnection * list Effect :=
  match inputs with
  | i :: inputs' =>
      let '(c1, out1) := step i c in
      let '(c2, out2) := run inputs' c1 in
      (c2, out1 ++ out2)
  | [] => (c, [])
  end.

End Lifecycle.
End Connection.

(** ** Worked examples *)

Module Examples.
Import Poll Transport.

(** A proper prefix of a text: the texts that [String.prefix] accepts,
    the text itself apart. *)
Fixpoint proper_prefixes (s : string) : list string :=
  match s with
  | String c s' => EmptyString :: (String c <$> proper_prefixes s')
  | EmptyString => []
  end.

(** [message_line], decided. *)
Definition message_line_check {M} (parse : string -> option M) (l : string)
  : bool :=
  negb (String.eqb l EmptyString) && bool_decide (is_Some (parse l))
  && forallb (fun p => bool_decide (parse p = None)) (proper_prefixes l).

(** A request of the chain as [new] and [send] leave it. *)
Definition fresh : HttpRequestLongPoll := Poll.new 0 "http://h:9000/k/id/tok".

(** The example of the specification: first [{"a":1}] and a part of the
    second line, then both lines in full. *)
Definition spec_bodies : list string :=
  [js "{'a':1}|{'b':2"; js "{'a':1}|{'b':2}|"].

(** Three lines that arrive at once. *)
Definition burst : string := js "0|1|2|".

(** A first line of padding and two messages behind it, seen as they
    arrive: the padding, a part of the first message, the first message
    with a part of the second, all of it. *)
Definition padded : list string := [js "0"; js "{'a':1}"; js "{'b':2}"].

Definition padded_bodies : list string :=
  [snapshot padded 1 EmptyString;
   snapshot padded 1 (js "{'a'");
   snapshot padded 2 (js "{'b':2");
   snapshot padded 3 EmptyString].

(** A request that has buffered offset 1, a line that will never parse. *)
Definition stuck : HttpRequestLongPoll :=
  (feed JSON.parse (js "0|{bad") fresh).1.

(** A request that has buffered offset 1, the part of a message. *)
Definition waiting : HttpRequestLongPoll :=
  (feed JSON.parse (js "0|{'a':") fresh).1.

Definition loading (body : string) (r : HttpRequestLongPoll) : HttpRequestLongPoll :=
  set_xhr {| readyState := 3; status := 200; responseText := body |} r.

(** The host of the examples: it folds the letters A to Z, the only
    ones the examples use, and its [open] takes every address but those
    with the port 99999, which is no port. *)
Definition lower (c : ascii) : ascii :=
  let n := nat_of_ascii c in
  if (65 <=? n) && (n <=? 90) then ascii_of_nat (n + 32) else c.

Fixpoint lower_case (s : string) : string :=
  match s with
  | String c s' => String (lower c) (lower_case s')
  | EmptyString => EmptyString
  end.

#[export] Instance browser : Host :=
  {| toLowerCase := lower_case;
     open_error url :=
       if String.prefix "http://h:99999/" url then Some "Invalid URL" else None |}.

(** A transport, two things to send, and a serialiser for them. *)
Definition transport : HttpRequest := Transport.new false "h" 9000 "/" "k".

(** A transport whose port is no port. *)
Definition misaddressed : HttpRequest := Transport.new false "h" 99999 "/" "k".

Definition offer : Data := {| type := Some "OFFER"; payload := "sdp-1" |}.
Definition answer : Data := {| type := Some "ANSWER"; payload := "sdp-2" |}.

Definition serialise (d : Data) : string :=
  js "{'type':'" +:+ text (type d) +:+ js "','payload':'" +:+ payload d +:+ js "'}".

(** The transport started for a session; started with an empty id; and
    with its second request made, when the idle timeout (handle 2) has
    run. *)
Definition started : HttpRequest :=
  (Transport.run JSON.parse serialise [CallStart "id1" "tok"] transport).1.

Definition started_without_id : HttpRequest :=
  (Transport.run JSON.parse serialise [CallStart "" "tok"] transport).1.

Definition second_request : HttpRequest :=
  (Transport.run JSON.parse serialise
     [CallStart "id1" "tok"; TimerFires 2] transport).1.

Definition headers : XMLHttpRequest :=
  {| readyState := 2; status := 200; responseText := EmptyString |}.

(** A session under a host that keeps order: each request receives its
    headers, its open timeout runs and finds nothing to do, and its idle
    timeout makes the next request. *)
Definition in_good_order : list Input :=
  [CallStart "id1" "tok";
   ReadyStateChange 0 headers; TimerFires 1; TimerFires 2;
   ReadyStateChange 1 headers; TimerFires 3; TimerFires 4].

(** A session of the channel, started at time 0: what happens before the
    open timeout is due, and what happens after. *)
Definition session : Channel.ServerConnection :=
  (Channel.start (M := JSON.value) 0 "id1" "tok" Channel.new).1.

Definition quiet_seconds : list (N * Channel.Input (M := JSON.value)) :=
  [(1000%N, Channel.CallSend offer);
   (2000%N, Channel.Emits Channel.WebSocket (EvError "slow"));
   (3000%N, Channel.Emits Channel.Http EvDisconnected)].

Definition afterwards : list (N * Channel.Input (M := JSON.value)) :=
  [(6000%N, Channel.Emits Channel.WebSocket (EvMessage (JSON.Num 1)));
   (7000%N, Channel.CallSend answer);
   (8000%N, Channel.Emits Channel.Http (EvMessage (JSON.Num 2)))].

Definition on_fallback : Channel.ServerConnection :=
  (Channel.observe (quiet_seconds ++ afterwards) 9000 session).1.

(** A connection whose [close] marks it as not open; opened and marked
    reconnectable by the code that owns it. *)
Definition teardown (c : Connection.BaseConnection) : Connection.BaseConnection :=
  Connection.set_open false c.

Definition connected : Connection.BaseConnection :=
  Connection.set_reconnectable true (Connection.set_open true (Connection.new 6)).

End Examples.

(** ** What the further properties speak of *)

Module Further.
Import Poll Transport.

(** [pieces.join("\n")] *)
Fixpoint join_lines (pieces : list string) : string :=
  match pieces with
  | [] => EmptyString
  | [l] => l
  | l :: ls => l +:+ String LF (join_lines ls)
  end.

(** The line feeds of a text, counted. *)
Fixpoint newlines (s : string) : nat :=
  match s with
  | String c s' => (if (c =? LF)%char then 1 else 0) + newlines s'
  | EmptyString => 0
  end.

(** An offset the handler may still read: it is buffered, or the read
    index has not passed it. *)
Definition pending_offset (r : HttpRequestLongPoll) (j : nat) : Prop :=
  j ∈ buffer r \/ index r <= j.

(** The cursor of a request the handler has worked on, in full: the
    buffered offsets lie between 1 and the read index, none twice. *)
Definition cursor_tidy (r : HttpRequestLongPoll) : Prop :=
  1 <= index r /\ Forall (fun j => 1 <= j < index r) (buffer r) /\
  NoDup (buffer r).

(** What holds of the requests of every reachable transport: a request
    stands in the store at the address that is its place in the chain,
    and the current request is the newest. *)
Definition indexed (t : HttpRequest) : Prop :=
  (forall r req, store t !! r = Some req ->
     Poll.streamIndex req = r /\ r < next_ref t) /\
  (forall r, _httpRequest t = Some r -> S r = next_ref t) /\
  (_httpRequest t = None -> next_ref t = 0).

(** An idle timeout is pending. *)
Definition idle_pending (t : HttpRequest) : Prop :=
  exists h timer, timers t !! h = Some timer /\ callback timer = HttpTimeout.

(** What holds of the timers of every reachable transport: their handles
    lie below the next one, a pending idle timeout is the one [_timeout]
    names, there is no timer before the first request, and a connected
    transport has a current request. *)
Definition idle_owned (t : HttpRequest) : Prop :=
  (forall h, is_Some (timers t !! h) -> h < next_timer t) /\
  (forall h timer, timers t !! h = Some timer ->
     callback timer = HttpTimeout -> _timeout t = Some h) /\
  (_httpRequest t = None -> timers t = ∅) /\
  (_disconnected t = false -> is_Some (_httpRequest t)).

(** A transport whose chain has come to rest: it has had a request and
    no idle timeout is pending. *)
Definition at_rest (t : HttpRequest) : Prop :=
  is_Some (_httpRequest t) /\ ~ idle_pending t.

(** Where the transport sends to, after [inputs]: the base address it
    was made with, and under it the id and token of a [start] among the
    inputs. *)
Definition addressed (inputs : list Input) (base : string) (t : HttpRequest)
  : Prop :=
  _baseUrl t = base /\
  forall id, _id t = Some id ->
    exists token,
      CallStart id token ∈ inputs /\
      Transport._httpUrl t = Some (base +:+ "/" +:+ id +:+ "/" +:+ token).

(** A host that keeps the order of its timers: a timer runs when no
    timer that was armed before it, with a delay no longer than its own,
    is still pending. *)
Definition in_turn (t : HttpRequest) (h : nat) : bool :=
  match timers t !! h with
  | Some timer =>
      forallb (fun '(h', timer') =>
                 negb ((h' <? h) && (delay timer' <=? delay timer)%N))
        (map_to_list (timers t))
  | None => true
  end.

Definition is_error_of (r : ref) (i : option Input) : bool :=
  match i with Some (XhrError r') => r' =? r | _ => false end.

(** A host that reports the states of a request as the request goes
    through them: a request that is before its headers is not reported
    in a state beyond that of the headers, state 2, unless it has failed,
    and then its error follows at once. *)
Definition in_sequence (t : HttpRequest) (r : ref) (x : XMLHttpRequest)
  (rest : list Input) : bool :=
  match store t !! r with
  | Some req =>
      if (readyState (_xmlHttpRequest req) <? 2) && (2 <? readyState x)
      then is_error_of r (head rest) else true
  | None => true
  end.

Definition in_order (t : HttpRequest) (i : Input) (rest : list Input) : bool :=
  match i with
  | TimerFires h => in_turn t h
  | ReadyStateChange r x => in_sequence t r x rest
  | _ => true
  end.

Section Orderly.
Context {M : Type} `{!Host} (parse : string -> option M) (stringify : Data -> string).

(** Inputs as such a host gives them to the transport [t]. *)
Fixpoint orderly (inputs : list Input) (t : HttpRequest) : bool :=
  match inputs with
  | i :: rest =>
      in_order t i rest && orderly rest (Transport.step parse stringify i t).1
  | [] => true
  end.

End Orderly.

(** What holds of a transport under such a host, with [rest] still to
    come: the current request is in the store; no request but the current
    one keeps a predecessor; and while an idle timeout is pending, a
    current request that keeps a predecessor is before its headers with
    its open timeout pending, armed before the idle timeout with a delay
    no longer, unless its error is the next thing to come. *)
Definition handed_over (rest : list Input) (t : HttpRequest) : Prop :=
  idle_owned t /\
  (forall k, _httpRequest t = Some k -> is_Some (store t !! k)) /\
  (forall r req, store t !! r = Some req -> is_Some (previousRequest req) ->
     _httpRequest t = Some r) /\
  (idle_pending t ->
   forall r req,
     _httpRequest t = Some r -> store t !! r = Some req ->
     is_Some (previousRequest req) ->
     (readyState (_xmlHttpRequest req) < 2 /\
      exists h,
        timers t !! h = Some (mkTimer CONNECTION_OPEN_TIMEOUT (OpenTimeout r)) /\
        forall hi ti, timers t !! hi = Some ti -> callback ti = HttpTimeout ->
          h < hi /\ (CONNECTION_OPEN_TIMEOUT <= delay ti)%N)
     \/ head rest = Some (XhrError r)).

(** A channel that is off the fallback with no open timeout pending: on
    the web socket for good, or closed. *)
Definition settled (s : Channel.ServerConnection) : Prop :=
  Channel._currentConnection s <> Some Channel.Http /\
  Channel._socketOpenTimeout s = None.

(** A [close] of a kind of connection that leaves the timeout of the
    base class alone. *)
Definition close_keeps_timeout
  (close : Connection.BaseConnection -> Connection.BaseConnection) : Prop :=
  forall c,
    Connection.timers (close c) = Connection.timers c /\
    Connection.next_timer (close c) = Connection.next_timer c /\
    Connection.reconnectTimeoutId (close c) = Connection.reconnectTimeoutId c.

(** What holds of the timers of every connection: a pending timer is the
    one [reconnectTimeoutId] names, and no handle is zero. *)
Definition one_timer (c : Connection.BaseConnection) : Prop :=
  (forall h, is_Some (Connection.timers c !! h) ->
     h = Connection.reconnectTimeoutId c) /\
  (forall h, is_Some (Connection.timers c !! h) -> h < Connection.next_timer c) /\
  0 < Connection.next_timer c /\
  Connection.timers c !! 0 = None.

End Further.

(** * Properties *)

(** ** Lines *)

Section Lines.
Implicit Types (s part : string) (lines : list string).

Lemma split_lines_nonempty s : split_lines s <> [].
Proof. induction s as [|c s IH]; simpl; [done|]. repeat case_match; done. Qed.

Lemma split_lines_length s : 0 < length (split_lines s).
Proof. pose proof (split_lines_nonempty s). destruct (split_lines s); simpl; [done|lia]. Qed.

Lemma append_nil s : EmptyString +:+ s = s.
Proof. reflexivity. Qed.

Lemma append_cons c s1 s2 : String c s1 +:+ s2 = String c (s1 +:+ s2).
Proof. reflexivity. Qed.

Lemma append_assoc s1 s2 s3 : (s1 +:+ s2) +:+ s3 = s1 +:+ (s2 +:+ s3).
Proof.
  induction s1 as [|c s1 IH]; [done|].
  rewrite !append_cons. by f_equal.
Qed.

Lemma split_lines_no_newline s : has_newline s = false -> split_lines s = [s].
Proof.
  induction s as [|c s IH]; simpl; [done|].
  intros [Hc Hs]%orb_false_iff. rewrite Hc, (IH Hs). done.
Qed.

Lemma split_lines_line s rest :
  has_newline s = false ->
  split_lines (s +:+ String LF rest) = s :: split_lines rest.
Proof.
  induction s as [|c s IH].
  - done.
  - simpl. intros [Hc Hs]%orb_false_iff.
    rewrite Hc, (IH Hs). done.
Qed.

Lemma split_lines_stream lines part :
  Forall (fun l => has_newline l = false) lines ->
  has_newline part = false ->
  split_lines (stream lines +:+ part) = lines ++ [part].
Proof.
  intros Hl Hp. induction Hl as [|l lines Hl _ IH]; simpl.
  - by apply split_lines_no_newline.
  - rewrite append_assoc, append_cons, split_lines_line by done. by rewrite IH.
Qed.

Lemma split_lines_snapshot lines k part :
  Forall (fun l => has_newline l = false) lines ->
  has_newline part = false ->
  split_lines (snapshot lines k part) = take k lines ++ [part].
Proof.
  intros Hl Hp. apply split_lines_stream; [|done].
  by apply Forall_take.
Qed.

Lemma prefix_no_newline part s :
  String.prefix part s = true -> has_newline s = false -> has_newline part = false.
Proof.
  revert s. induction part as [|c part IH]; intros [|d s]; simpl; try done.
  destruct (ascii_dec c d) as [->|]; [|done].
  intros Hp [Hc Hs]%orb_false_iff. rewrite Hc. simpl. eauto.
Qed.

Lemma ends_with_newline_split s :
  ends_with_newline s = true ->
  exists l ls, split_lines s = l :: ls ++ [EmptyString].
Proof.
  induction s as [|c s IH]; simpl; [done|].
  destruct s as [|d s].
  - intros ->. by exists EmptyString, [].
  - intros H. destruct (IH H) as (l & ls & ->).
    destruct (c =? LF)%char; eauto using app_comm_cons.
    by exists EmptyString, (l :: ls).
Qed.

Lemma not_ends_with_newline_split s :
  ends_with_newline s = false -> s <> EmptyString ->
  exists ls c l, split_lines s = ls ++ [String c l].
Proof.
  induction s as [|c s IH]; simpl; [done|].
  destruct s as [|d s].
  - intros -> _. by exists [], c, EmptyString.
  - intros H _. destruct (IH H) as (ls & c' & l & ->); [done|].
    destruct (c =? LF)%char.
    + by exists (EmptyString :: ls), c', l.
    + destruct ls as [|l0 ls]; simpl.
      * by exists [], c, (String c' l).
      * by exists (String c l0 :: ls), c', l.
Qed.
Lemma string_prefix_refl_app s rest : String.prefix s (s +:+ rest) = true.
Proof.
  induction s as [|c s IH]; simpl; [by destruct rest|].
  destruct (ascii_dec c c); [done|congruence].
Qed.

Lemma string_prefix_app_same s a b :
  String.prefix a b = true -> String.prefix (s +:+ a) (s +:+ b) = true.
Proof.
  intros Hab. induction s as [|c s IH]; simpl; [done|].
  destruct (ascii_dec c c); [done|congruence].
Qed.

Lemma string_prefix_app_r s a rest :
  String.prefix s a = true -> String.prefix s (a +:+ rest) = true.
Proof.
  revert a. induction s as [|c s IH]; intros [|d a]; simpl; try done.
  - by destruct rest.
  - destruct (ascii_dec c d); [apply IH|done].
Qed.

(** The bodies of [paced] are prefixes of the final body. *)
Lemma snapshot_prefix lines k part :
  String.prefix part (default EmptyString (lines !! k)) = true ->
  String.prefix (snapshot lines k part) (stream lines) = true.
Proof.
  unfold snapshot. revert k. induction lines as [|l lines IH]; intros k Hp.
  - rewrite take_nil. simpl in *. by destruct k.
  - destruct k as [|k]; simpl in *.
    + by apply string_prefix_app_r.
    + rewrite append_assoc. apply string_prefix_app_same. simpl.
      destruct (ascii_dec LF LF); [|done]. by apply IH.
Qed.
End Lines.

(** ** The stream handler *)

Section Handler.
Import Poll Transport.
Context {M : Type} (parse : string -> option M).
Implicit Types (r : HttpRequestLongPoll) (out : list (Effect M)).

Abbreviation handle := (_handleStream parse).
Abbreviation message_line := (Transport.message_line parse).
Abbreviation emits := (fmap (M := list) (fun m => Emit (EvMessage m))).

Lemma messages_emits (ms : list M) : messages (emits ms) = ms.
Proof. unfold messages. induction ms as [|m ms IH]; simpl; [done|by f_equal]. Qed.

Lemma messages_app out1 out2 :
  messages (out1 ++ out2) = messages out1 ++ messages out2.
Proof. apply omap_app. Qed.

(** The loop leaves a suffix of the buffer and emits the messages of the
    offsets it has taken. *)
Lemma drain_suffix msgs buf :
  (drain parse msgs buf).1 `suffix_of` buf.
Proof.
  induction buf as [|i buf IH]; simpl; [done|].
  destruct (msgs !! i ≫= parse); [|done].
  destruct (drain parse msgs buf) as [rest out]. simpl in *.
  by apply suffix_cons_r.
Qed.

Lemma drain_stops msgs ok i rest :
  Forall (fun j => is_Some (msgs !! j ≫= parse)) ok ->
  msgs !! i ≫= parse = None ->
  drain parse msgs (ok ++ i :: rest)
  = (i :: rest, omap (fun j => msgs !! j ≫= parse) ok).
Proof.
  intros Hdone Hi. induction Hdone as [|j ok' [m Hj] _ IH]; simpl.
  - by rewrite Hi.
  - rewrite Hj, IH. done.
Qed.

Lemma drain_all msgs buf :
  Forall (fun j => is_Some (msgs !! j ≫= parse)) buf ->
  drain parse msgs buf = ([], omap (fun j => msgs !! j ≫= parse) buf).
Proof.
  intros Hdone. induction Hdone as [|j ok' [m Hj] _ IH]; simpl; [done|].
  rewrite Hj, IH. done.
Qed.

Lemma drain_loop_drain fuel msgs r :
  length (buffer r) <= fuel ->
  drain_loop parse fuel msgs r
  = (set_cursor (index r) (drain parse msgs (buffer r)).1 r,
     (drain parse msgs (buffer r)).2).
Proof.
  revert r. induction fuel as [|fuel IH]; intros r Hlen.
  - destruct r as [i [|j b] p x n u]; simpl in *; [done|lia].
  - destruct r as [i [|j b] p x n u]; simpl in *; [done|].
    destruct (msgs !! j ≫= parse) as [m|]; [|done].
    rewrite IH by (simpl; lia). simpl.
    by destruct (drain parse msgs b).
Qed.

(** The handler in terms of its two phases: the loop over the buffer,
    then the line at the read index. *)
Lemma handle_eq r :
  let msgs := getMessages r in
  let d := drain parse msgs (buffer r) in
  handle r =
    if truthy (msgs !! index r) then
      if index r + 1 =? length msgs
      then (set_cursor (index r + 1) (d.1 ++ [index r]) r, emits d.2)
      else match msgs !! index r ≫= parse with
           | Some m =>
               (set_cursor (index r + 1) d.1 r, emits d.2 ++ [Emit (EvMessage m)])
           | None =>
               (set_cursor (index r + 1) d.1 r,
                emits d.2 ++ [Log "Invalid server message" (msgs !! index r)])
           end
    else (set_cursor (index r) d.1 r, emits d.2).
Proof.
  intros msgs d. unfold _handleStream. fold msgs. subst d.
  destruct (drain parse msgs (buffer r)) as [rest out].
  cbn [fst snd index buffer set_cursor pushIndexToBuffer].
  replace (index r + 1 - 1) with (index r) by lia.
  destruct (truthy (msgs !! index r)); [|done].
  destruct (index r + 1 =? length msgs); [done|].
  by destruct (msgs !! index r ≫= parse).
Qed.


Lemma cursor_ok_new n url : cursor_ok (Poll.new n url).
Proof. split; simpl; [lia|constructor]. Qed.

Lemma cursor_ok_handle r : cursor_ok r -> cursor_ok (handle r).1.
Proof.
  intros [Hi Hb]. rewrite handle_eq.
  pose proof (drain_suffix (getMessages r) (buffer r)) as [pre Hpre].
  assert (Forall (fun j => 1 <= j < index r)
            (drain parse (getMessages r) (buffer r)).1) as Hd.
  { rewrite Hpre in Hb. by apply Forall_app in Hb as [_ ?]. }
  repeat case_match; split; simpl; try lia; try done.
  - apply Forall_app; split.
    + eapply Forall_impl; [done|]. simpl. lia.
    + repeat constructor; lia.
  - eapply Forall_impl; [done|]. simpl. lia.
  - eapply Forall_impl; [done|]. simpl. lia.
Qed.

(** C10, as the code has it.  One call of the stream handler moves the
    read index by one line at most.  When the line of a buffered offset
    does not parse, the offset is back at the front of the buffer with the
    offsets behind it untouched, and no message of a buffered offset is
    emitted after it.  The line at the read index is still handled in the
    same call: the read index moves past it if it is not empty; if it is
    the last line of the body its offset goes to the back of the buffer;
    if it is not the last line and parses, its message is emitted behind
    those of the buffer, and if it does not parse nothing is. *)
Theorem handleStream_one_line_buffer_restored r r' out :
  handle r = (r', out) ->
  (index r' = index r \/ index r' = index r + 1) /\
  forall ok i rest,
    buffer r = ok ++ i :: rest ->
    Forall (fun j => is_Some (parsed parse r j)) ok ->
    parsed parse r i = None ->
    let line := getMessages r !! index r in
    let last := index r + 1 =? length (getMessages r) in
    index r' = (if truthy line then index r + 1 else index r) /\
    buffer r' = (i :: rest) ++ (if truthy line && last then [index r] else []) /\
    messages out
    = omap (parsed parse r) ok
      ++ (if truthy line && negb last
          then option_list (parsed parse r (index r)) else []).
Proof.
  rewrite handle_eq. intros Heq. split.
  - repeat case_match; simplify_eq; simpl; auto.
  - intros ok i rest Hbuf Hok Hi. unfold parsed in *. simpl.
    rewrite Hbuf, (drain_stops _ _ _ _ Hok Hi) in Heq. simpl in Heq.
    destruct (truthy (getMessages r !! index r)); simpl;
      [|by simplify_eq; simpl; rewrite messages_emits, !app_nil_r].
    destruct (index r + 1 =? length (getMessages r)); simpl;
      [by simplify_eq; simpl; rewrite messages_emits, !app_nil_r|].
    destruct (getMessages r !! index r ≫= parse); simplify_eq; simpl;
      rewrite messages_app, messages_emits, ?app_nil_r; done.
Qed.

(** C5, as the code has it.  A body without a line feed at its end: when
    the read index stands at its last line, the offset of that line goes
    to the back of the buffer and the call emits the messages of the
    buffered offsets only; when the read index stands elsewhere, the last
    line is left alone.  A body with a line feed at its end: nothing is
    put on the buffer, which keeps what the loop has left of it. *)
Theorem handleStream_trailing_newline r r' out :
  handle r = (r', out) ->
  let body := responseText (_xmlHttpRequest r) in
  let d := drain parse (getMessages r) (buffer r) in
  (ends_with_newline body = false ->
   1 <= index r -> index r + 1 = length (getMessages r) ->
   buffer r' = d.1 ++ [index r] /\ index r' = index r + 1 /\
   messages out = d.2) /\
  (ends_with_newline body = true ->
   buffer r' = d.1 /\ buffer r' `suffix_of` buffer r).
Proof.
  rewrite handle_eq. intros Heq body d. fold d in Heq.
  unfold getMessages in *. fold body in Heq |- *.
  set (msgs := split_lines body) in *. split.
  - intros Hnl Hi Hlast.
    destruct (not_ends_with_newline_split body Hnl) as (ls & c & l & Hs).
    { intros Hb. subst msgs. rewrite Hb in Hlast. simpl in Hlast. lia. }
    fold msgs in Hs.
    assert (msgs !! index r = Some (String c l)) as Hline.
    { rewrite Hs in Hlast |- *. rewrite length_app in Hlast. simpl in Hlast.
      apply list_lookup_middle. lia. }
    rewrite Hline in Heq. simpl in Heq.
    apply Nat.eqb_eq in Hlast. rewrite Hlast in Heq. simplify_eq. simpl.
    by rewrite messages_emits.
  - intros Hnl.
    assert (buffer r' = d.1) as ->; [|split; [done|apply drain_suffix]].
    destruct (ends_with_newline_split body Hnl) as (l & ls & Hs).
    fold msgs in Hs.
    destruct (truthy (msgs !! index r)) eqn:Ht; [|by simplify_eq].
    destruct (index r + 1 =? length msgs) eqn:Hlast.
    + apply Nat.eqb_eq in Hlast. rewrite Hs in Ht, Hlast.
      rewrite app_comm_cons, length_app in Hlast. simpl in Hlast.
      rewrite app_comm_cons, (list_lookup_middle _ _ _ (index r)) in Ht; [done|].
      simpl. lia.
    + by repeat case_match; simplify_eq.
Qed.

(** *** Bodies that grow line by line *)



Lemma prefix_empty part : String.prefix part EmptyString = true -> part = EmptyString.
Proof. by destruct part. Qed.

Lemma truthy_Some l : truthy (Some l) = true <-> l <> EmptyString.
Proof. by destruct l. Qed.

Lemma truthy_Some_false l : truthy (Some l) = false <-> l = EmptyString.
Proof. by destruct l. Qed.

Section Paced.
Variable lines : list string.
Hypothesis lines_no_newline : Forall (fun l => has_newline l = false) lines.
Hypothesis lines_messages : Forall message_line (drop 1 lines).

Lemma message_line_at j l :
  1 <= j -> lines !! j = Some l -> message_line l.
Proof.
  intros Hj Hl. eapply Forall_lookup_1; [exact lines_messages|].
  rewrite lookup_drop. replace (1 + (j - 1)) with j by lia. done.
Qed.

Lemma part_no_newline k part :
  String.prefix part (default EmptyString (lines !! k)) = true ->
  has_newline part = false.
Proof.
  intros Hp. eapply prefix_no_newline; [done|].
  destruct (lines !! k) as [l|] eqn:Hl; [|done].
  simpl. exact (Forall_lookup_1 _ _ _ _ lines_no_newline Hl).
Qed.

Lemma feed_getMessages k part r :
  String.prefix part (default EmptyString (lines !! k)) = true ->
  getMessages (set_xhr {| readyState := 3; status := 200;
                          responseText := snapshot lines k part |} r)
  = take k lines ++ [part].
Proof.
  intros Hp. unfold getMessages. simpl.
  apply split_lines_snapshot; [done|]. by eapply part_no_newline.
Qed.

Lemma seen_length k part :
  k <= length lines -> length (take k lines ++ [part]) = k + 1.
Proof. intros. rewrite length_app, length_take. simpl. lia. Qed.

Lemma seen_complete k part j :
  j < k -> k <= length lines -> (take k lines ++ [part]) !! j = lines !! j.
Proof.
  intros. rewrite lookup_app_l by (rewrite length_take; lia).
  by apply lookup_take_lt.
Qed.

Lemma seen_part k part :
  k <= length lines -> (take k lines ++ [part]) !! k = Some part.
Proof. intros. apply list_lookup_middle. rewrite length_take. lia. Qed.

Lemma seen_beyond k part j :
  k < j -> k <= length lines -> (take k lines ++ [part]) !! j = None.
Proof. intros. apply lookup_ge_None. rewrite seen_length by done. lia. Qed.

Lemma feed_step k k' part e r :
  caught_up lines k e r ->
  k <= k' <= S k -> k' <= length lines ->
  String.prefix part (default EmptyString (lines !! k')) = true ->
  let res := feed parse (snapshot lines k' part) r in
  (caught_up lines k' e res.1 /\ messages res.2 = [])
  \/ (caught_up lines k' (e + 1) res.1 /\
      exists l m, lines !! (e + 1) = Some l /\ parse l = Some m /\
                  messages res.2 = [m]).
Proof.
  intros Hinv Hk Hk' Hp res. subst res. unfold feed.
  rewrite handle_eq. rewrite (feed_getMessages _ _ _ Hp).
  set (msgs := take k' lines ++ [part]).
  cbn [index buffer set_xhr].
  pose proof (seen_length k' part Hk') as Hlen. fold msgs in Hlen.
  destruct Hinv as [(Hi & Hb & Hke & Hek & He)|(Hi & Hb & Hke & He)].
  - (* nothing buffered *)
    rewrite Hb, Hi. cbn [drain fst snd fmap list_fmap app].
    destruct (decide (e + 1 < k')) as [Hlt|Hge].
    + (* line e+1 has arrived in full *)
      assert (k' = e + 2) as -> by lia.
      destruct (lookup_lt_is_Some_2 lines (e + 1)) as [l Hl]; [lia|].
      destruct (message_line_at (e + 1) l) as (Hne & [m Hm] & _); [lia|done|].
      subst msgs. rewrite (seen_complete (e + 2) part (e + 1)), Hl by lia.
      rewrite (proj2 (truthy_Some l) Hne).
      rewrite seen_length by done.
      replace (e + 1 + 1 =? e + 2 + 1) with false by (symmetry; apply Nat.eqb_neq; lia).
      simpl. rewrite Hm. right. split.
      * left. simpl. split_and!; try done; lia.
      * eauto.
    + destruct (decide (e + 1 = k')) as [<-|Hne].
      * (* the read index stands at the part *)
        subst msgs. rewrite seen_part by done.
        destruct (truthy (Some part)) eqn:Ht.
        -- rewrite seen_length, Nat.eqb_refl by done. left. split; [|done].
           right. simpl. split_and!; try done; try lia.
           apply truthy_Some in Ht.
           destruct (lines !! (e + 1)) eqn:Hl.
           ++ by apply lookup_lt_Some in Hl.
           ++ simpl in Hp. by apply prefix_empty in Hp.
        -- left. split; [|done]. left. simpl. split_and!; try done; lia.
      * (* the read index is ahead of the body *)
        subst msgs. rewrite seen_beyond by lia. simpl.
        left. split; [|done]. left. simpl. split_and!; try done; lia.
  - (* the part of line e+1 is buffered *)
    rewrite Hb, Hi. subst k.
    destruct (lookup_lt_is_Some_2 lines (e + 1)) as [l Hl]; [lia|].
    destruct (message_line_at (e + 1) l) as (Hne & [m Hm] & Hpre); [lia|done|].
    destruct (decide (k' = e + 1)) as [->|Hk2].
    + (* still the same line *)
      rewrite Hl in Hp. simpl in Hp.
      cbn [drain]. subst msgs. rewrite seen_part by done. simpl.
      rewrite seen_beyond by lia. simpl.
      destruct (decide (part = l)) as [->|Hproper].
      * rewrite Hm. simpl. right. split; [|eauto].
        left. simpl. split_and!; try done; lia.
      * rewrite (Hpre part Hp Hproper). simpl. left. split; [|done].
        right. simpl. split_and!; try done; lia.
    + (* the line is complete and the next one has begun *)
      assert (k' = e + 2) as -> by lia.
      cbn [drain]. subst msgs.
      rewrite (seen_complete (e + 2) part (e + 1)) by lia. rewrite Hl. simpl.
      rewrite Hm. simpl. rewrite seen_part by done.
      destruct (truthy (Some part)) eqn:Ht.
      * rewrite seen_length, Nat.eqb_refl by done. simpl.
        right. split; [|eauto]. right. simpl.
        replace (e + 1 + 2) with (e + 2 + 1) by lia.
        replace (e + 1 + 1) with (e + 2) by lia.
        split_and!; try done.
        apply truthy_Some in Ht.
        destruct (lines !! (e + 2)) eqn:Hl2.
        -- by apply lookup_lt_Some in Hl2.
        -- simpl in Hp. by apply prefix_empty in Hp.
      * simpl. right. split; [|eauto]. left. simpl. split_and!; try done; lia.
Qed.

Lemma feed_all_paced k bodies :
  paced lines k bodies ->
  forall e r, caught_up lines k e r ->
  Some <$> messages (feed_all parse bodies r).2 = parse <$> drop (S e) lines.
Proof.
  induction 1 as [|k k' part bodies Hk Hk' Hp _ IH]; intros e r Hinv.
  - simpl. rewrite drop_ge; [done|].
    destruct Hinv as [(_ & _ & ? & _)|(_ & _ & ? & ?)]; lia.
  - simpl.
    pose proof (feed_step k k' part e r Hinv Hk Hk' Hp) as Hstep.
    destruct (feed parse (snapshot lines k' part) r) as [r1 out1].
    simpl in Hstep.
    specialize (IH) as IH'.
    destruct (feed_all parse bodies r1) as [r2 out2] eqn:Hrest.
    simpl. rewrite messages_app, fmap_app.
    destruct Hstep as [[Hinv' ->]|[Hinv' (l & m & Hl & Hm & ->)]].
    + specialize (IH e r1 Hinv'). rewrite Hrest in IH. done.
    + specialize (IH (e + 1) r1 Hinv'). rewrite Hrest in IH. simpl in IH.
      rewrite IH. simpl.
      rewrite (drop_S lines l (S e)) by (by replace (S e) with (e + 1) by lia).
      simpl. rewrite Hm. by replace (S (e + 1)) with (S (S e)) by lia.
Qed.

End Paced.

(** C1, as the code has it.  The server writes [lines], one message a
    line behind a first line; every message line is a non-empty text that
    parses and of which no proper prefix parses.  The handler is run on
    bodies that are prefixes of the final body, each showing at most one
    complete line more than the one before (the first at most one line),
    the last showing all.  Then the messages emitted are the messages of
    the lines behind the first, in their order, once each.  The first
    line, at offset 0, is never read: the read index starts at 1. *)
Theorem handleStream_paced_stream lines k bodies n url :
  Forall (fun l => has_newline l = false) lines ->
  Forall message_line (drop 1 lines) ->
  k <= 1 ->
  paced lines k bodies ->
  Some <$> messages (feed_all parse bodies (Poll.new n url)).2
  = parse <$> drop 1 lines.
Proof.
  intros Hnl Hmsg Hk Hpaced.
  apply (feed_all_paced lines Hnl Hmsg k bodies Hpaced 0).
  left. simpl. split_and!; try done; lia.
Qed.

End Handler.

(** *** The examples, run *)

Section Decide.
Import Transport Examples.
Context {M : Type} (parse : string -> option M).

Lemma proper_prefixes_complete part l :
  String.prefix part l = true -> part <> l -> part ∈ proper_prefixes l.
Proof.
  revert part. induction l as [|c l IH]; intros [|d part]; simpl; try done.
  - intros _ _. apply list_elem_of_here.
  - destruct (ascii_dec d c) as [->|]; [|done].
    intros Hp Hne. apply list_elem_of_further, list_elem_of_fmap.
    exists part. split; [done|]. apply IH; [done|]. congruence.
Qed.

Lemma message_line_check_sound l :
  message_line_check parse l = true -> message_line parse l.
Proof.
  unfold message_line_check.
  intros [[Hne Hp%bool_decide_eq_true]%andb_true_iff Hpre]%andb_true_iff.
  split_and!; [|done|].
  - intros ->. done.
  - intros part Hpart Hproper.
    rewrite forallb_forall in Hpre.
    apply proper_prefixes_complete in Hpart; [|done].
    apply list_elem_of_In, Hpre in Hpart. by apply bool_decide_eq_true in Hpart.
Qed.
End Decide.

Section Run.
Import Poll Transport Examples.

Example spec_example_runs :
  (feed_all JSON.parse spec_bodies fresh).2
  = [Emit (EvMessage (JSON.Obj [("b", JSON.Num 2)]))].
Proof. vm_compute. reflexivity. Qed.

(** C1 as the specification states it fails on its own example: the two
    bodies are prefixes of the final body, the second is the final body,
    and of the two messages of the final body only the second is emitted.
    It fails as well when lines come faster than the handler is called:
    of the lines of [burst], seen in one body, one is emitted. *)
Lemma handleStream_misses_messages :
  (Forall (fun b => String.prefix b (js "{'a':1}|{'b':2}|") = true) spec_bodies /\
   last spec_bodies = Some (js "{'a':1}|{'b':2}|") /\
   omap JSON.parse (split_lines (js "{'a':1}|{'b':2}|"))
   = [JSON.Obj [("a", JSON.Num 1)]; JSON.Obj [("b", JSON.Num 2)]] /\
   messages (feed_all JSON.parse spec_bodies fresh).2
   = [JSON.Obj [("b", JSON.Num 2)]]) /\
  (omap JSON.parse (split_lines burst) = [JSON.Num 0; JSON.Num 1; JSON.Num 2] /\
   messages (feed_all JSON.parse [burst] fresh).2 = [JSON.Num 1]).
Proof.
  split_and!; try (vm_compute; reflexivity).
  repeat constructor.
Qed.

Lemma handleStream_paced_stream_witness :
  Some <$> messages (feed_all JSON.parse padded_bodies fresh).2
  = JSON.parse <$> drop 1 padded.
Proof.
  apply (handleStream_paced_stream JSON.parse padded 1 padded_bodies).
  - repeat constructor.
  - simpl.
    repeat (apply Forall_cons_2;
            [apply message_line_check_sound; vm_compute; reflexivity|]).
    apply Forall_nil_2.
  - lia.
  - unfold padded_bodies.
    apply (paced_next padded 1 1); [lia|simpl; lia|reflexivity|].
    apply (paced_next padded 1 1); [lia|simpl; lia|reflexivity|].
    apply (paced_next padded 1 2); [lia|simpl; lia|reflexivity|].
    apply (paced_next padded 2 3); [lia|simpl; lia|reflexivity|].
    apply (paced_end padded).
Defined.

Example padded_runs :
  messages (feed_all JSON.parse padded_bodies fresh).2
  = [JSON.Obj [("a", JSON.Num 1)]; JSON.Obj [("b", JSON.Num 2)]].
Proof. vm_compute. reflexivity. Qed.

(** C5 as the specification states it fails in its first half.  The body
    [0|1|2] has no line feed at its end; a new request reads line 1 of
    it and leaves the last line, at offset 2, out of the buffer.  And
    when the last line is a buffered offset that now parses, it is
    emitted, line feed or not. *)
Lemma handleStream_last_line_not_deferred :
  (ends_with_newline (js "0|1|2") = false /\
   split_lines (js "0|1|2") = ["0"; "1"; "2"] /\
   feed JSON.parse (js "0|1|2") fresh
   = (set_cursor 2 [] (loading (js "0|1|2") fresh),
      [Emit (EvMessage (JSON.Num 1))])) /\
  (ends_with_newline (js "0|{'a':1}") = false /\
   buffer waiting = [1] /\
   feed JSON.parse (js "0|{'a':1}") waiting
   = (set_cursor 2 [] (loading (js "0|{'a':1}") fresh),
      [Emit (EvMessage (JSON.Obj [("a", JSON.Num 1)]))])).
Proof. split_and!; vm_compute; reflexivity. Qed.

Lemma handleStream_trailing_newline_witness :
  let r1 := loading (js "0|{'a':1}|{'b'") waiting in
  let r2 := loading (js "0|{'a':1}|") waiting in
  (ends_with_newline (js "0|{'a':1}|{'b'") = false /\
   index r1 = 2 /\ length (getMessages r1) = 3 /\
   buffer (_handleStream JSON.parse r1).1 = [2] /\
   index (_handleStream JSON.parse r1).1 = 3 /\
   messages (_handleStream JSON.parse r1).2 = [JSON.Obj [("a", JSON.Num 1)]]) /\
  (ends_with_newline (js "0|{'a':1}|") = true /\
   buffer (_handleStream JSON.parse r2).1 = [] /\
   buffer (_handleStream JSON.parse r2).1 `suffix_of` buffer r2).
Proof.
  intros r1 r2.
  pose proof (handleStream_trailing_newline JSON.parse r1 _ _ eq_refl) as [H1 _].
  pose proof (handleStream_trailing_newline JSON.parse r2 _ _ eq_refl) as [_ H2].
  split.
  - do 3 (split; [reflexivity|]).
    apply H1; [reflexivity|simpl; lia|reflexivity].
  - split; [reflexivity|]. apply H2. reflexivity.
Defined.

(** C10 as the specification states it fails in its last part.  The
    request [stuck] has buffered offset 1, whose line [{bad] does not
    parse; the call puts the offset back and then emits the message of
    the new line 2. *)
Lemma handleStream_emits_after_failed_buffer :
  let r := loading (js "0|{bad|2|") stuck in
  buffer r = [1] /\ index r = 2 /\
  parsed JSON.parse r 1 = None /\
  _handleStream JSON.parse r
  = (set_cursor 3 [1] r, [Emit (EvMessage (JSON.Num 2))]).
Proof. split_and!; vm_compute; reflexivity. Qed.

Lemma handleStream_one_line_buffer_restored_witness :
  let r := loading (js "0|{bad|2|") stuck in
  let r' := (_handleStream JSON.parse r).1 in
  let out := (_handleStream JSON.parse r).2 in
  (buffer r = [1] /\ index r = 2 /\ parsed JSON.parse r 1 = None /\
   getMessages r = ["0"; "{bad"; "2"; ""]) /\
  index r' = (if truthy (Some "2") then 2 + 1 else 2) /\
  buffer r' = [1] ++ (if truthy (Some "2") && (2 + 1 =? 4) then [2] else []) /\
  messages out
  = [] ++ (if truthy (Some "2") && negb (2 + 1 =? 4)
           then option_list (parsed JSON.parse r 2) else []).
Proof.
  intros r r' out. split; [split_and!; vm_compute; reflexivity|].
  destruct (handleStream_one_line_buffer_restored JSON.parse r r' out)
    as [_ H]; [subst r' out; by destruct (_handleStream JSON.parse r)|].
  exact (H [] 1 [] eq_refl (Forall_nil_2 _) eq_refl).
Defined.

Example stuck_buffer_runs :
  let r := loading (js "0|{bad|2|") stuck in
  index (_handleStream JSON.parse r).1 = 3 /\
  buffer (_handleStream JSON.parse r).1 = [1] /\
  messages (_handleStream JSON.parse r).2 = [JSON.Num 2].
Proof. split_and!; vm_compute; reflexivity. Qed.

End Run.

(** ** The transport *)

Section TransportFacts.
Import Poll Transport.
Context {M : Type} `{!Host} (parse : string -> option M) (stringify : Data -> string).
Implicit Types (t : HttpRequest) (i : Input) (data : Data).

Abbreviation step := (Transport.step parse stringify).
Abbreviation run := (Transport.run parse stringify).
Abbreviation send := (Transport.send (M := M) stringify).
Abbreviation aborts := (Forall (fun e : Effect M => is_abort e = true)).

Lemma run_app inputs1 inputs2 t :
  run (inputs1 ++ inputs2) t
  = let '(t1, out1) := run inputs1 t in
    let '(t2, out2) := run inputs2 t1 in
    (t2, out1 ++ out2).
Proof.
  revert t. induction inputs1 as [|i inputs1 IH]; intros t; simpl.
  - by destruct (run inputs2 t).
  - destruct (step i t) as [t1 out1]. rewrite IH.
    destruct (run inputs1 t1) as [t2 out2].
    destruct (run inputs2 t2) as [t3 out3]. by rewrite app_assoc.
Qed.

(** A property of the new transports that every input keeps holds of
    every reachable transport. *)
Lemma reachable_ind (P : HttpRequest -> Prop) :
  (forall secure host port path key, P (new secure host port path key)) ->
  (forall i t, reachable parse stringify t -> P t -> P (step i t).1) ->
  forall t, reachable parse stringify t -> P t.
Proof.
  intros Hnew Hstep t (secure & host & port & path & key & inputs & ->).
  induction inputs as [|i inputs IH] using rev_ind; [apply Hnew|].
  rewrite run_app.
  pose proof (Hstep i (run inputs (new secure host port path key)).1) as Hs.
  destruct (run inputs (new secure host port path key)) as [t1 out1] eqn:Hrun.
  simpl in *. destruct (step i t1) as [t2 out2]. simpl in *.
  apply Hs; [|done]. exists secure, host, port, path, key, inputs.
  by rewrite Hrun.
Qed.

(** *** Stores that keep their requests *)

Lemma handleStream_frame r :
  previousRequest (_handleStream parse r).1 = previousRequest r /\
  streamIndex (_handleStream parse r).1 = streamIndex r /\
  _xmlHttpRequest (_handleStream parse r).1 = _xmlHttpRequest r.
Proof. rewrite handle_eq. by repeat case_match. Qed.


Lemma keeps_refl s : keeps s s.
Proof. split; eauto 6. Qed.

Lemma keeps_trans s1 s2 s3 : keeps s1 s2 -> keeps s2 s3 -> keeps s1 s3.
Proof.
  intros [Hin12 Hout12] [Hin23 Hout23]. split.
  - intros k r Hr. destruct (Hin12 k r Hr) as [r2 Hr2]. eauto.
  - intros k r3 Hr3.
    destruct (Hout23 k r3 Hr3) as (r2 & Hr2 & Hs2 & Hp2).
    destruct (Hout12 k r2 Hr2) as (r1 & Hr1 & Hs1 & Hp1).
    exists r1. split_and!; [done|congruence|].
    destruct Hp2 as [?|Hp2]; [by left|]. rewrite Hp2. done.
Qed.

Lemma keeps_alter (f : HttpRequestLongPoll -> HttpRequestLongPoll) k s :
  (forall r, streamIndex (f r) = streamIndex r) ->
  (forall r, previousRequest (f r) = None \/
             previousRequest (f r) = previousRequest r) ->
  keeps s (alter f k s).
Proof.
  intros Hs Hp. split.
  - intros j r Hr. rewrite lookup_alter. case_decide; subst; rewrite Hr; eauto.
  - intros j r'. rewrite lookup_alter. case_decide; subst; [|eauto 6].
    destruct (s !! j) as [r|] eqn:Hr; [|done]. simpl.
    intros [= <-]. exists r. eauto.
Qed.

Lemma keeps_insert k r r' s :
  s !! k = Some r ->
  streamIndex r' = streamIndex r -> previousRequest r' = previousRequest r ->
  keeps s (<[k := r']> s).
Proof.
  intros Hr Hs Hp. split.
  - intros j r0 Hr0. rewrite lookup_insert. case_decide; eauto.
  - intros j r0. rewrite lookup_insert. case_decide; subst; [|eauto 6].
    intros [= <-]. exists r. eauto.
Qed.

Lemma set_store_id t : set_store (store t) t = t.
Proof. by destruct t. Qed.

(** *** [abort] and the handler it runs *)

(** The handler asks [abort] about the transport it is run on, and about
    no other. *)
Lemma state_changed_ext
    (abort1 abort2 : ref -> HttpRequest -> HttpRequest * list (Effect M)) this t :
  (forall p, abort1 p t = abort2 p t) ->
  state_changed parse abort1 this t = state_changed parse abort2 this t.
Proof.
  intros Hext. unfold state_changed, clear_previous.
  destruct (store t !! this) as [r|]; [|done].
  destruct (needsClearPreviousRequest t r); [|done].
  destruct (previousRequest r) as [p|]; [|done]. by rewrite Hext.
Qed.

(** A request in progress that [abort] has set to state 4 is in progress
    no more. *)
Lemma in_flight_failed this r t :
  store t !! this = Some r -> in_progress r = true ->
  S (in_flight (set_store (<[this := set_xhr failed r]> (store t)) t))
  = in_flight t.
Proof.
  intros Hr Hp. unfold in_flight. simpl.
  rewrite map_filter_insert_False by done.
  rewrite map_filter_delete.
  assert (filter (fun kr => in_progress kr.2 = true) (store t) !! this = Some r)
    as Hin by (by apply map_lookup_filter_Some_2).
  rewrite map_size_delete_Some by eauto.
  pose proof (map_size_ne_0_lookup_2 _ _ (mk_is_Some _ _ Hin)). lia.
Qed.

(** Fuel beyond the number of requests in progress changes nothing. *)
Lemma abort_within_more n m this t :
  in_flight t < n -> in_flight t < m ->
  abort_within parse n this t = abort_within parse m this t.
Proof.
  revert m this t. induction n as [|n IH]; intros [|m] this t Hn Hm; try lia.
  simpl. destruct (store t !! this) as [r|] eqn:Hr; [|done].
  destruct (in_progress r) eqn:Hp; [|done].
  pose proof (in_flight_failed this r t Hr Hp) as Hless.
  rewrite (state_changed_ext (abort_within parse n) (abort_within parse m)); [done|].
  intros p. apply IH; lia.
Qed.

(** [abort] has fuel enough: with more it does the same. *)
Lemma abort_within_enough fuel this t :
  in_flight t < fuel -> abort_within parse fuel this t = abort parse this t.
Proof. intros Hfuel. apply abort_within_more; [done|lia]. Qed.

(** The handler changes the store alone, and keeps its requests, when
    [abort] does. *)
Lemma state_changed_store
    (abort : ref -> HttpRequest -> HttpRequest * list (Effect M)) this t :
  (forall p t0, exists s', (abort p t0).1 = set_store s' t0 /\ keeps (store t0) s') ->
  exists s', (state_changed parse abort this t).1 = set_store s' t /\
             keeps (store t) s'.
Proof.
  intros Habort. unfold state_changed, clear_previous.
  destruct (store t !! this) as [r|] eqn:Hr;
    [|exists (store t); split; [by rewrite set_store_id|apply keeps_refl]].
  destruct (needsClearPreviousRequest t r).
  - destruct (previousRequest r) as [p|];
      [|exists (store t); split; [by rewrite set_store_id|apply keeps_refl]].
    destruct (Habort p t) as (s' & Hs' & Hk).
    destruct (abort p t) as [t1 out1]. simpl in Hs'. subst t1. simpl.
    eexists. split; [done|].
    eapply keeps_trans; [exact Hk|]. apply keeps_alter; eauto.
  - destruct (isSuccess r);
      [|exists (store t); split; [by rewrite set_store_id|apply keeps_refl]].
    pose proof (handleStream_frame r) as (Hp & Hs & _).
    destruct (_handleStream parse r) as [r' out]. simpl in *.
    eexists. split; [done|]. by eapply keeps_insert.
Qed.

(** On a request without success the handler has the effects of [abort]
    and no other. *)
Lemma state_changed_aborts
    (abort : ref -> HttpRequest -> HttpRequest * list (Effect M)) this t r :
  store t !! this = Some r -> isSuccess r = false ->
  (forall p t0, aborts (abort p t0).2) ->
  aborts (state_changed parse abort this t).2.
Proof.
  intros Hr Hs Habort. unfold state_changed, clear_previous. rewrite Hr, Hs.
  destruct (needsClearPreviousRequest t r); [|done].
  destruct (previousRequest r) as [p|]; [|done].
  pose proof (Habort p t) as Hp. by destruct (abort p t).
Qed.

Lemma abort_within_store fuel this t :
  exists s', (abort_within parse fuel this t).1 = set_store s' t /\
             keeps (store t) s'.
Proof.
  revert this t. induction fuel as [|fuel IH]; intros this t; simpl;
    [exists (store t); split; [by rewrite set_store_id|apply keeps_refl]|].
  destruct (store t !! this) as [r|] eqn:Hr;
    [|exists (store t); split; [by rewrite set_store_id|apply keeps_refl]].
  destruct (in_progress r).
  - set (t1 := set_store (<[this := set_xhr failed r]> (store t)) t).
    destruct (state_changed_store (abort_within parse fuel) this t1 IH)
      as (s' & Hs' & Hk).
    destruct (state_changed parse (abort_within parse fuel) this t1) as [t2 out2].
    simpl in Hs'. subst t2. simpl. eexists. split; [done|].
    apply keeps_trans with (store t1); [by apply (keeps_insert this r)|].
    eapply keeps_trans; [exact Hk|]. apply keeps_alter; eauto.
  - simpl. eexists. split; [done|]. apply keeps_alter; eauto.
Qed.

Lemma abort_within_aborts fuel this t :
  aborts (abort_within parse fuel this t).2.
Proof.
  revert this t. induction fuel as [|fuel IH]; intros this t; simpl; [done|].
  destruct (store t !! this) as [r|] eqn:Hr; [|by repeat constructor].
  destruct (in_progress r); [|by repeat constructor].
  set (t1 := set_store (<[this := set_xhr failed r]> (store t)) t).
  pose proof (state_changed_aborts (abort_within parse fuel) this t1
                (set_xhr failed r)) as Hout.
  destruct (state_changed parse (abort_within parse fuel) this t1) as [t2 out2].
  simpl. constructor; [done|]. apply Hout; [|done|done].
  subst t1. simpl. by rewrite lookup_insert_eq.
Qed.



(** When the request is not known, [abort] still changes the store
    alone. *)
Lemma abort_store this t :
  exists s' out,
    abort parse this t = (set_store s' t, out) /\ keeps (store t) s' /\ aborts out.
Proof.
  unfold abort.
  destruct (abort_within_store (S (in_flight t)) this t) as (s' & Hs' & Hk).
  pose proof (abort_within_aborts (S (in_flight t)) this t) as Ha.
  destruct (abort_within parse (S (in_flight t)) this t) as [t' out].
  simpl in *. subst t'. eauto.
Qed.

Lemma onreadystatechange_store this t :
  exists s' out,
    onreadystatechange parse this t = (set_store s' t, out) /\ keeps (store t) s'.
Proof.
  unfold onreadystatechange.
  destruct (state_changed_store (abort parse) this t) as (s' & Hs' & Hk).
  { intros p t0. destruct (abort_store p t0) as (s0 & out0 & -> & ? & _). eauto. }
  destruct (state_changed parse (abort parse) this t) as [t' out].
  simpl in *. subst t'. eauto.
Qed.

(** *** The queue of the messages to send *)

(** While the transport is disconnected every input but [start] leaves
    it as it is and has no effect. *)
Lemma step_before_start secure host port path key i :
  is_start i = false ->
  step i (new secure host port path key) = (new secure host port path key, []).
Proof.
  intros Hi. by destruct i.
Qed.

Lemma run_before_start secure host port path key inputs :
  forallb (fun i => negb (is_start i)) inputs = true ->
  run inputs (new secure host port path key) = (new secure host port path key, []).
Proof.
  induction inputs as [|i inputs IH]; simpl; [done|].
  intros [Hi Hrest]%andb_true_iff. apply negb_true_iff in Hi.
  rewrite step_before_start, IH by done. done.
Qed.

(** The methods, unfolded and split into their cases; of [abort] and of
    the handler, that they change the store alone. *)
Ltac cases :=
  simpl;
  unfold start, Transport.send, close, _cleanup, onError, run_callback,
    _startXhrStream, _setHTTPTimeout, setTimeout;
  simpl;
  repeat first
    [ match goal with
      | |- context [abort _ ?r ?t] =>
          destruct (abort_store r t) as (? & ? & -> & ? & ?); simpl
      | |- context [onreadystatechange _ ?r ?t] =>
          destruct (onreadystatechange_store r t) as (? & ? & -> & ?); simpl
      | E : abort _ ?r ?t = _ |- _ =>
          let E' := fresh in
          destruct (abort_store r t) as (? & ? & E' & ? & ?);
          rewrite E' in E; clear E'; simplify_eq; simpl in *
      | E : onreadystatechange _ ?r ?t = _ |- _ =>
          let E' := fresh in
          destruct (onreadystatechange_store r t) as (? & ? & E' & ?);
          rewrite E' in E; clear E'; simplify_eq; simpl in *
      end
    | case_match; simplify_eq; simpl in * ].

(** No input takes anything from the queue. *)
Lemma step_queue_grows i t :
  _messagesQueue t `prefix_of` _messagesQueue (step i t).1.
Proof. destruct i; cases; try done. by apply prefix_app_r. Qed.

Lemma send_enqueues t ds :
  _disconnected t = false -> truthy (_id t) = false ->
  run (CallSend <$> ds) t = (set_messagesQueue (_messagesQueue t ++ ds) t, []).
Proof.
  revert t. induction ds as [|d ds IH]; intros t Hd Hid; simpl.
  - rewrite app_nil_r. by destruct t.
  - unfold Transport.send. rewrite Hd, Hid. simpl.
    rewrite IH by done. simpl. by rewrite <- app_assoc.
Qed.

(** [send] changes the transport in no other case. *)
Lemma send_elsewhere t data :
  _disconnected t = true \/ truthy (_id t) = true -> (send data t).1 = t.
Proof.
  intros [Hd|Hid]; unfold Transport.send.
  - by rewrite Hd.
  - rewrite Hid. simpl. by repeat case_match.
Qed.

(** *** The chain of requests *)




(** What [_startXhrStream] makes: a request without predecessor at the
    next free address, which becomes the current one. *)
Lemma startXhrStream_alloc n t :
  exists req,
    store (_startXhrStream (M := M) n t).1 = <[next_ref t := req]> (store t) /\
    previousRequest req = None /\ streamIndex req = n /\
    _httpRequest (_startXhrStream (M := M) n t).1 = Some (next_ref t) /\
    next_ref (_startXhrStream (M := M) n t).1 = S (next_ref t).
Proof.
  unfold _startXhrStream, _setHTTPTimeout, setTimeout, alloc.
  destruct (open_error _); simpl; eexists; split_and!; done.
Qed.




(** *** The claims on the transport *)

Lemma run_queue_grows inputs t :
  _messagesQueue t `prefix_of` _messagesQueue (run inputs t).1.
Proof.
  revert t. induction inputs as [|i inputs IH]; intros t; simpl; [done|].
  pose proof (step_queue_grows i t) as Hi.
  destruct (step i t) as [t1 out1]. specialize (IH t1).
  destruct (run inputs t1) as [t2 out2]. simpl in *. by etrans.
Qed.

(** [start] is the one place that clears [_disconnected], and it has
    assigned [_id] by then. *)
Lemma step_connected_has_id i t :
  (_disconnected t = false -> is_Some (_id t)) ->
  _disconnected (step i t).1 = false -> is_Some (_id (step i t).1).
Proof. intros Hid. destruct i; cases; eauto; congruence. Qed.

Lemma reachable_connected_has_id t :
  reachable parse stringify t -> _disconnected t = false -> is_Some (_id t).
Proof.
  apply (reachable_ind (fun t => _disconnected t = false -> is_Some (_id t))).
  - done.
  - intros i t' _. apply step_connected_has_id.
Qed.

(** When every [start] names a session, a connected transport has a
    truthy id and nothing is ever queued. *)
Lemma step_never_queues i t :
  names_session i ->
  (_disconnected t = false -> truthy (_id t) = true) /\ _messagesQueue t = [] ->
  (_disconnected (step i t).1 = false -> truthy (_id (step i t).1) = true) /\
  _messagesQueue (step i t).1 = [].
Proof.
  intros Hi [Hid Hq].
  destruct i; cases; split; try done; try congruence;
    try (rewrite Hid in *; done).
  all: intros _; by destruct id.
Qed.

Lemma run_never_queues inputs t :
  Forall names_session inputs ->
  (_disconnected t = false -> truthy (_id t) = true) /\ _messagesQueue t = [] ->
  (_disconnected (run inputs t).1 = false -> truthy (_id (run inputs t).1) = true)
  /\ _messagesQueue (run inputs t).1 = [].
Proof.
  intros Hin. revert t. induction Hin as [|i inputs Hi _ IH]; intros t Ht; [done|].
  simpl. pose proof (step_never_queues i t Hi Ht) as Ht1.
  destruct (step i t) as [t1 out1]. specialize (IH t1 Ht1).
  by destruct (run inputs t1) as [t2 out2].
Qed.

(** C9, as the code has it.  Before [start] is called the transport is
    as [new] has made it, disconnected: whatever is called or happens,
    [send] among it, changes nothing and has no effect, so that nothing
    is queued, nothing posted and no error emitted.  [start] assigns
    [_id] before it clears [_disconnected]: a reachable transport that is
    connected has its id assigned.  When every [start] names a session,
    with an id that is not empty, the queue stays empty for good and
    [send] never takes the branch that queues.  That branch is not out of
    reach, though: after [start] with the empty string for an id the
    transport is connected with a falsy id, and [send] queues. *)
Theorem send_before_start_dropped secure host port path key :
  let t0 := new secure host port path key in
  (forall inputs,
     forallb (fun i => negb (is_start i)) inputs = true ->
     run inputs t0 = (t0, [])) /\
  (forall t, reachable parse stringify t ->
     _disconnected t = false -> is_Some (_id t)) /\
  (forall inputs data,
     Forall names_session inputs ->
     _messagesQueue (run inputs t0).1 = [] /\
     _messagesQueue (send data (run inputs t0).1).1 = []) /\
  (forall token data,
     let t1 := (run [CallStart "" token] t0).1 in
     _disconnected t1 = false /\ _id t1 = Some EmptyString /\
     send data t1 = (set_messagesQueue [data] t1, [])).
Proof.
  intros t0. split_and!.
  - apply run_before_start.
  - apply reachable_connected_has_id.
  - intros inputs data Hin.
    destruct (run_never_queues inputs t0 Hin) as [Hid Hq]; [done|].
    split; [done|].
    apply (step_never_queues (CallSend data) _ I). done.
  - intros token data. simpl. unfold start, _startXhrStream. simpl.
    destruct (open_error _); simpl; done.
Qed.

(** C3, as the code has it.  Calls of [send] on a transport that has not
    been started, when no session id is assigned, are dropped: nothing is
    queued and nothing sent.  [send] queues, in the order of the calls
    and without sending, when the transport is connected and its id is
    falsy, and in no other case: on a transport that is disconnected or
    has a truthy id [send] leaves the transport, its queue with it, as it
    is.  Nothing ever takes a message from the queue: whatever happens,
    the queue of before is a prefix of the queue of after. *)
Theorem send_queue_as_built secure host port path key :
  let t0 := new secure host port path key in
  (forall ds, run (CallSend <$> ds) t0 = (t0, [])) /\
  (forall t ds,
     _disconnected t = false -> truthy (_id t) = false ->
     run (CallSend <$> ds) t
     = (set_messagesQueue (_messagesQueue t ++ ds) t, [])) /\
  (forall t data,
     _disconnected t = true \/ truthy (_id t) = true ->
     (send data t).1 = t) /\
  (forall t inputs,
     _messagesQueue t `prefix_of` _messagesQueue (run inputs t).1).
Proof.
  intros t0. split_and!.
  - intros ds. apply run_before_start. by induction ds.
  - apply send_enqueues.
  - apply send_elsewhere.
  - intros t inputs. apply run_queue_grows.
Qed.


End TransportFacts.

(** *** The examples, run *)

Section RunTransport.
Import Poll Transport Examples.

Abbreviation go := (Transport.run JSON.parse serialise).

Example send_after_start_posts :
  (go [CallStart "id1" "tok"; CallSend offer;
       CallSend {| type := None; payload := "x" |}] transport).2
  = [Post "http://h:9000/k/id1/tok/id?i=0" None None;
     Post "http://h:9000/k/id1/tok/offer" (Some "application/json")
       (Some (serialise offer));
     Emit (EvError "Invalid message")].
Proof. vm_compute. reflexivity. Qed.

(** C3 as the specification states it fails: no session id is assigned
    to the new transport, [send] is called twice, and the queue is empty
    afterwards, the transport unchanged, where the claim has the two
    messages queued. *)
Lemma send_before_id_not_queued :
  _id transport = None /\
  go [CallSend offer; CallSend answer] transport = (transport, []) /\
  _messagesQueue (go [CallSend offer; CallSend answer] transport).1 = [].
Proof. split_and!; vm_compute; reflexivity. Qed.

Lemma send_queue_as_built_witness :
  (_disconnected started_without_id = false /\
   truthy (_id started_without_id) = false /\
   go (CallSend <$> [offer; answer]) started_without_id
   = (set_messagesQueue (_messagesQueue started_without_id ++ [offer; answer])
        started_without_id, [])) /\
  (truthy (_id started) = true /\
   (Transport.send serialise (M := JSON.value) offer started).1 = started).
Proof.
  destruct (send_queue_as_built JSON.parse serialise false "h" 9000 "/" "k")
    as (_ & Hqueue & Helse & _).
  split.
  - split; [reflexivity|]. split; [reflexivity|].
    apply Hqueue; reflexivity.
  - split; [reflexivity|]. apply Helse. right. reflexivity.
Defined.

(** C9 as the specification states it fails in its last part: the
    branch of [send] that queues is within reach of the three methods.
    [start] is called with the empty string for an id; the transport is
    connected, its id is falsy, and the two messages sent are queued and
    not posted. *)
Lemma send_queues_after_empty_id :
  go [CallStart "" "tok"; CallSend offer; CallSend answer] transport
  = (set_messagesQueue [offer; answer] started_without_id,
     [Post "http://h:9000/k//tok/id?i=0" None None]) /\
  _disconnected started_without_id = false /\
  _id started_without_id = Some EmptyString.
Proof. split_and!; vm_compute; reflexivity. Qed.

Lemma send_before_start_dropped_witness :
  go [CallSend offer; CallClose; CallSend answer] transport = (transport, []) /\
  is_Some (_id started) /\
  _messagesQueue (go [CallStart "id1" "tok"; CallSend offer] transport).1 = [] /\
  _messagesQueue
    (Transport.send serialise (M := JSON.value) answer
       (go [CallStart "id1" "tok"; CallSend offer] transport).1).1 = [].
Proof.
  destruct (send_before_start_dropped JSON.parse serialise false "h" 9000 "/" "k")
    as (Hdrop & Hid & Hnever & _).
  split; [apply Hdrop; reflexivity|].
  split.
  - apply Hid; [|reflexivity].
    exists false, "h", 9000%N, "/", "k", [CallStart "id1" "tok"]. reflexivity.
  - apply Hnever. repeat constructor. done.
Defined.

Example second_request_chained :
  previousRequest <$> store second_request !! 1 = Some (Some 0) /\
  _httpRequest second_request = Some 1.
Proof. split; vm_compute; reflexivity. Qed.


(** When the third request then receives its headers, it aborts the
    second, whose handler finds the first still before its headers and
    aborts it in turn. *)
Example handoff_cascades :
  (go [CallStart "id1" "tok"; TimerFires 2; TimerFires 4;
       ReadyStateChange 2 headers] transport).2
  = [Post "http://h:9000/k/id1/tok/id?i=0" None None;
     Post "http://h:9000/k/id1/tok/id?i=1" None None;
     Post "http://h:9000/k/id1/tok/id?i=2" None None;
     Abort 1; Abort 0].
Proof. vm_compute. reflexivity. Qed.


End RunTransport.

(** ** The channel *)

Section ChannelFacts.
Import Channel.
Context {M : Type}.
Implicit Types (s : ServerConnection) (i : Input (M := M)) (e : Event M)
  (out : list (Effect M)) (c : Connection) (k : Turn (M := M))
  (pre post before : list (N * Input (M := M)))
  (turns after : list (N * Turn (M := M))).

Lemma http_starts_app out1 out2 :
  http_starts (out1 ++ out2) = http_starts out1 + http_starts out2.
Proof. unfold http_starts. by rewrite List.filter_app, length_app. Qed.

Lemma elem_of_forwarded out e : Emit e ∈ out <-> e ∈ forwarded out.
Proof.
  unfold forwarded. rewrite list_elem_of_omap. split.
  - intros He. by exists (Emit e).
  - intros (x & Hx & Hsome). by destruct x; simplify_eq.
Qed.

(** What the interceptors pass on: the event itself, or nothing. *)
Lemma forwarded_by_interceptor now c e s :
  (_currentConnection s = Some c /\
   forwarded (handle now (Emits c e) s).2 = [e])
  \/ forwarded (handle now (Emits c e) s).2 = [].
Proof.
  destruct c; simpl;
    unfold _interceptedSocketEmit, _interceptedHttpRequestEmit, _startHttp.
  - destruct (_socketOpenTimeout s), (event_type e); simpl;
      try case_bool_decide; simpl; auto.
  - case_bool_decide; simpl; auto.
Qed.

(** C4.  Whatever the state of the channel, the interceptor of a
    transport passes an event on to the listeners of the channel only
    when that transport is [_currentConnection], and it passes on the
    event it was given; an event of a transport that is not current is
    swallowed. *)
Theorem forwarded_only_from_current now c e s :
  (forall e', Emit e' ∈ (handle now (Emits c e) s).2 ->
     _currentConnection s = Some c /\ e' = e) /\
  (_currentConnection s <> Some c ->
   forwarded (handle now (Emits c e) s).2 = []).
Proof.
  destruct (forwarded_by_interceptor now c e s) as [[Hc Hf]|Hf]; split.
  - intros e' He%elem_of_forwarded. rewrite Hf in He.
    by apply list_elem_of_singleton in He.
  - done.
  - intros e' He%elem_of_forwarded. rewrite Hf in He.
    by apply elem_of_nil in He.
  - done.
Qed.

(** *** The open timeout *)

Lemma run_app_channel inputs1 inputs2 s :
  run (M := M) (inputs1 ++ inputs2) s
  = let '(s1, out1) := run inputs1 s in
    let '(s2, out2) := run inputs2 s1 in
    (s2, out1 ++ out2).
Proof.
  revert s. induction inputs1 as [|[now i] inputs1 IH]; intros s; simpl.
  - by destruct (run inputs2 s).
  - destruct (react now i s) as [s1 out1]. rewrite IH.
    destruct (run inputs1 s1) as [s2 out2].
    destruct (run inputs2 s2) as [s3 out3]. by rewrite app_assoc.
Qed.

Lemma start_pending now id token s :
  pending (now + CONNECTION_OPEN_TIMEOUT) (start (M := M) now id token s).1 /\
  http_starts (start (M := M) now id token s).2 = 0.
Proof. done. Qed.

(** Before the timeout is due a quiet input leaves it pending. *)
Lemma react_pending due now i s :
  pending due s -> (now < due)%N -> quiet i = true ->
  pending due (react now i s).1 /\ http_starts (react now i s).2 = 0.
Proof.
  intros [Hc Ht] Hnow Hq. unfold react, expire. rewrite Ht.
  destruct (N.leb_spec due now); [lia|]. simpl.
  destruct i as [| | |[] e]; simpl in *; try done.
  - unfold send. by rewrite Hc.
  - unfold _interceptedSocketEmit. rewrite Ht.
    destruct (event_type e); try done; by rewrite Hc.
  - unfold _interceptedHttpRequestEmit. by rewrite Hc.
Qed.

Lemma run_pending due pre s :
  pending due s ->
  Forall (fun '(now, i) => (now < due)%N /\ quiet i = true) pre ->
  pending due (run pre s).1 /\ http_starts (run pre s).2 = 0.
Proof.
  intros Hs Hpre. revert s Hs.
  induction Hpre as [|[now i] pre [Hnow Hq] _ IH]; intros s Hs; [done|].
  simpl. destruct (react_pending due now i s Hs Hnow Hq) as [Hs1 Hout1].
  destruct (react now i s) as [s1 out1]. simpl in *.
  destruct (IH s1 Hs1) as [Hs2 Hout2].
  destruct (run pre s1) as [s2 out2]. simpl in *.
  by rewrite http_starts_app, Hout1, Hout2.
Qed.

(** *** The open timeout in the hands of the host *)




(** The host that is never late is one of the hosts there are. *)
Lemma run_punctual pre s : run (M := M) pre s = play (punctual pre) s.
Proof.
  revert s. induction pre as [|[now i] pre IH]; intros s; [done|].
  simpl. unfold react.
  destruct (expire now s) as [s1 out1].
  destruct (handle now i s1) as [s2 out2]. rewrite IH.
  destruct (play (punctual pre) s2) as [s3 out3]. by rewrite app_assoc.
Qed.







End ChannelFacts.

(** *** The examples, run *)

Section RunChannel.
Import Channel Examples.

Example session_runs :
  Channel.observe (quiet_seconds ++ afterwards) 9000 session
  = ({| _serverId := Some "id1"; _serverToken := Some "tok";
        _currentConnection := Some Http; _socketOpenTimeout := None |},
     [Call WebSocket (Send offer);
      Emit (EvError "slow");
      Call WebSocket CloseIt;
      Call Http (Start (Some "id1") (Some "tok"));
      Call Http (Send answer);
      Emit (EvMessage (JSON.Num 2))]).
Proof. vm_compute. reflexivity. Qed.



Example late_timeout_runs :
  play (delivered (quiet_seconds ++ [(5001%N, CallSend answer)])
        ++ (5003%N, RunsTimeout) :: (5004%N, RunsTimeout) :: delivered afterwards)
    session
  = ({| _serverId := Some "id1"; _serverToken := Some "tok";
        _currentConnection := Some Http; _socketOpenTimeout := None |},
     [Call WebSocket (Send offer);
      Emit (EvError "slow");
      Call WebSocket (Send answer);
      Call WebSocket CloseIt;
      Call Http (Start (Some "id1") (Some "tok"));
      Call Http (Send answer);
      Emit (EvMessage (JSON.Num 2))]).
Proof. vm_compute. reflexivity. Qed.

Lemma forwarded_only_from_current_witness :
  _currentConnection on_fallback = Some Http /\
  forwarded
    (Channel.handle 9000 (Emits WebSocket (EvMessage (JSON.Num 3))) on_fallback).2
  = [] /\
  (Emit (EvMessage (JSON.Num 4))
   ∈ (Channel.handle 9000 (Emits Http (EvMessage (JSON.Num 4))) on_fallback).2 /\
   _currentConnection on_fallback = Some Http /\
   EvMessage (JSON.Num 4) = EvMessage (JSON.Num 4)).
Proof.
  split; [reflexivity|]. split.
  - apply (forwarded_only_from_current 9000 WebSocket). discriminate.
  - assert (Emit (EvMessage (JSON.Num 4))
            ∈ (Channel.handle 9000 (Emits Http (EvMessage (JSON.Num 4)))
                 on_fallback).2) as Hin by apply list_elem_of_here.
    split; [exact Hin|].
    exact (proj1 (forwarded_only_from_current 9000 Http _ on_fallback) _ Hin).
Defined.

End RunChannel.

(** ** The close timeout *)

Section ConnectionFacts.
Import Connection.
Variable close : BaseConnection -> BaseConnection.
Implicit Types (c : BaseConnection).

(** C6.  [setCloseTimeout] returns false and leaves the connection and
    the timers of the host as they are when the connection is not
    reconnectable or not open.  Called on an open, reconnectable
    connection whose timeout is armed, it arms nothing and returns true.
    Called twice on one whose timeout is not armed, the first call arms
    one timer of 15000 ms under a fresh handle and the second call
    changes nothing: one timer more is pending than before, exactly one
    when none was. *)
Theorem setCloseTimeout_guarded_idempotent c :
  (reconnectable c = false \/ open c = false ->
   setCloseTimeout c = (c, false)) /\
  (reconnectable c = true -> open c = true -> reconnectTimeoutId c <> 0 ->
   setCloseTimeout c = (c, true)) /\
  (reconnectable c = true -> open c = true -> reconnectTimeoutId c = 0 ->
   timers c !! next_timer c = None -> next_timer c <> 0 ->
   let c1 := (setCloseTimeout c).1 in
   (setCloseTimeout c).2 = true /\
   setCloseTimeout c1 = (c1, true) /\
   timers c1 = <[next_timer c := CLOSE_TIMEOUT]> (timers c) /\
   size (timers c1) = S (size (timers c)) /\
   (timers c = ∅ -> timers c1 = {[next_timer c := CLOSE_TIMEOUT]})).
Proof.
  unfold setCloseTimeout. split_and!.
  - intros [->| ->]; simpl; [done|]. by rewrite orb_true_r.
  - intros -> -> Hid. simpl.
    destruct (Nat.eqb_spec (reconnectTimeoutId c) 0); done.
  - intros Hr Ho Hid Hfresh Hnz. unfold open in *.
    rewrite Hr, Ho, Hid. simpl. rewrite Hr, Ho. simpl.
    destruct (Nat.eqb_spec (next_timer c) 0); [done|].
    split_and!; try done.
    + by apply map_size_insert_None.
    + intros ->. done.
Qed.

(** C7, as the code has it.  When the host runs the close timeout, the
    callback calls [close] exactly when the connection is open at that
    moment; otherwise it does nothing.  Whether the connection is
    reconnectable is asked when the timeout is armed, not when it
    runs. *)
Theorem close_timeout_fires_on_open h d c :
  timers c !! h = Some d ->
  (open c = true ->
   (fire close h c).2 = [CallsClose]) /\
  (open c = false ->
   fire close h c
   = ({| _open := _open c; reconnectTimeoutId := reconnectTimeoutId c;
         reconnectable := reconnectable c;
         timers := delete h (timers c); next_timer := next_timer c |}, [])).
Proof.
  intros Hh. unfold fire, timeout_callback, open. rewrite Hh. simpl.
  split; intros ->; done.
Qed.

End ConnectionFacts.

Section RunConnection.
Import Connection Examples.

Example armed_once :
  (setCloseTimeout connected).1
  = {| _open := true; reconnectTimeoutId := 7; reconnectable := true;
       timers := {[7 := CLOSE_TIMEOUT]}; next_timer := 8 |}.
Proof. vm_compute. reflexivity. Qed.

Lemma setCloseTimeout_guarded_idempotent_witness :
  setCloseTimeout (Connection.new 6) = (Connection.new 6, false) /\
  setCloseTimeout (setCloseTimeout connected).1
  = ((setCloseTimeout connected).1, true) /\
  size (timers (setCloseTimeout connected).1) = 1.
Proof.
  split.
  - apply (setCloseTimeout_guarded_idempotent (Connection.new 6)). by left.
  - destruct (setCloseTimeout_guarded_idempotent connected) as (_ & _ & Htwice).
    destruct Htwice as (_ & Hsecond & _ & Hsize & _); try done.
Defined.

(** C7 as the specification states it fails: the timeout is armed on an
    open, reconnectable connection, the connection is then marked as not
    reconnectable, and when the timeout runs [close] is called all the
    same. *)
Lemma close_timeout_ignores_reconnectable :
  let c := (run teardown [CallSetCloseTimeout; AssignReconnectable false] connected).1 in
  reconnectable c = false /\ open c = true /\ timers c !! 7 = Some CLOSE_TIMEOUT /\
  (fire teardown 7 c).2 = [CallsClose].
Proof. split_and!; vm_compute; reflexivity. Qed.

Lemma close_timeout_fires_on_open_witness :
  let c := (run teardown [CallSetCloseTimeout] connected).1 in
  let c' := (run teardown [CallSetCloseTimeout; AssignOpen false] connected).1 in
  (timers c !! 7 = Some CLOSE_TIMEOUT /\ open c = true /\
   (fire teardown 7 c).2 = [CallsClose]) /\
  (timers c' !! 7 = Some CLOSE_TIMEOUT /\ open c' = false /\
   (fire teardown 7 c').2 = []).
Proof.
  intros c c'.
  assert (timers c !! 7 = Some CLOSE_TIMEOUT) as H by (vm_compute; reflexivity).
  assert (timers c' !! 7 = Some CLOSE_TIMEOUT) as H' by (vm_compute; reflexivity).
  split.
  - split; [exact H|]. split; [reflexivity|].
    apply (close_timeout_fires_on_open teardown 7 CLOSE_TIMEOUT c H). reflexivity.
  - split; [exact H'|]. split; [reflexivity|].
    destruct (close_timeout_fires_on_open teardown 7 CLOSE_TIMEOUT c' H') as [_ Hno].
    rewrite Hno; reflexivity.
Defined.

End RunConnection.


(** * Further properties of the code *)

(** ** [getMessages]: splitting a body *)

Section SplitFacts.
Import Further.
Implicit Types (s : string).

Lemma join_lines_cons l ls :
  ls <> [] -> join_lines (l :: ls) = l +:+ String LF (join_lines ls).
Proof. by destruct ls. Qed.

(** X1.  Splitting loses nothing: the pieces joined by line feeds are
    the body, there is one piece more than the body has line feeds, and
    no piece holds a line feed. *)
Theorem split_lines_join s :
  join_lines (split_lines s) = s /\
  length (split_lines s) = S (newlines s) /\
  Forall (fun l => has_newline l = false) (split_lines s).
Proof.
  induction s as [|c s (IHj & IHl & IHn)]; simpl.
  - split_and!; [done|done|]. by repeat constructor.
  - pose proof (split_lines_nonempty s) as Hne.
    destruct (c =? LF)%char eqn:Hc.
    + rewrite join_lines_cons by done. simpl. rewrite IHj, IHl.
      apply Ascii.eqb_eq in Hc as ->. split_and!; [done|done|].
      by constructor.
    + destruct (split_lines s) as [|l ls]; [done|].
      split_and!.
      * destruct ls as [|l' ls]; simpl in *; [by rewrite IHj|].
        by rewrite <- IHj.
      * done.
      * apply Forall_cons in IHn as [Hl Hls]. constructor; [|done].
        simpl. by rewrite Hc, Hl.
Qed.

(** X2.  The last piece is empty exactly when the body ends in a line
    feed or is empty: the empty body, too, gives an empty last piece. *)
Theorem split_lines_last_empty s :
  last (split_lines s) = Some EmptyString <->
  s = EmptyString \/ ends_with_newline s = true.
Proof.
  split.
  - intros Hlast. destruct s as [|c s]; [by left|]. right.
    destruct (ends_with_newline (String c s)) eqn:Hnl; [done|].
    destruct (not_ends_with_newline_split (String c s) Hnl) as (ls & d & l & Hs);
      [done|].
    rewrite Hs, last_snoc in Hlast. done.
  - intros [->|Hnl]; [done|].
    destruct (ends_with_newline_split s Hnl) as (l & ls & ->).
    by rewrite app_comm_cons, last_snoc.
Qed.

End SplitFacts.

(** ** [_handleStream]: what is read, and when *)

Section CursorFacts.
Import Poll Transport Further.
Context {M : Type} (parse : string -> option M).
Implicit Types (r : HttpRequestLongPoll) (out : list (Effect M)).

(** The loop takes a front part of the buffer, each offset of which
    gives a message, and leaves the rest. *)
Lemma drain_split msgs buf :
  exists taken,
    buf = taken ++ (drain parse msgs buf).1 /\
    Forall2 (fun j m => msgs !! j ≫= parse = Some m) taken
      (drain parse msgs buf).2.
Proof.
  induction buf as [|i buf (taken & Hbuf & Hout)]; simpl.
  - exists []. by split.
  - destruct (msgs !! i ≫= parse) as [m|] eqn:Hi.
    + destruct (drain parse msgs buf) as [rest out]. simpl in *.
      exists (i :: taken). split; [by rewrite Hbuf at 1|]. by constructor.
    + exists []. by split.
Qed.

(** Where one call leaves the cursor. *)
Lemma handle_cursor r :
  let d := drain parse (getMessages r) (buffer r) in
  let r' := (_handleStream parse r).1 in
  (index r' = index r /\ buffer r' = d.1) \/
  (index r' = index r + 1 /\ buffer r' = d.1) \/
  (index r' = index r + 1 /\ buffer r' = d.1 ++ [index r]).
Proof. intros d r'. subst r'. rewrite handle_eq. repeat case_match; auto. Qed.

Lemma cursor_tidy_handle r :
  cursor_tidy r ->
  cursor_tidy (_handleStream parse r).1 /\
  index r <= index (_handleStream parse r).1 <= index r + 1.
Proof.
  intros (Hi & Hb & Hnd).
  destruct (drain_split (getMessages r) (buffer r)) as (taken & Hbuf & _).
  pose proof (handle_cursor r) as Hc. simpl in Hc.
  set (d := drain parse (getMessages r) (buffer r)) in *.
  assert (Forall (fun j => 1 <= j < index r) d.1) as Hd.
  { rewrite Hbuf in Hb. by apply Forall_app in Hb as [_ ?]. }
  assert (NoDup d.1) as Hnd'.
  { rewrite Hbuf in Hnd. by apply NoDup_app in Hnd as (_ & _ & ?). }
  assert (Forall (fun j => 1 <= j < index r + 1) d.1) as Hd'.
  { eapply Forall_impl; [exact Hd|]. simpl. lia. }
  unfold cursor_tidy.
  destruct Hc as [[-> ->]|[[-> ->]|[-> ->]]]; (split; [split_and!|lia]);
    try done; try lia.
  - apply Forall_app. split; [done|]. repeat constructor; lia.
  - apply NoDup_app. split_and!; [done| |apply NoDup_singleton].
    intros j Hj ->%list_elem_of_singleton.
    rewrite Forall_forall in Hd. apply Hd in Hj. lia.
Qed.

Lemma cursor_tidy_feed_all bodies r :
  cursor_tidy r ->
  cursor_tidy (feed_all parse bodies r).1 /\
  index r <= index (feed_all parse bodies r).1 <= index r + length bodies.
Proof.
  revert r. induction bodies as [|body bodies IH]; intros r Hr; simpl.
  - split; [done|lia].
  - unfold feed.
    set (r0 := set_xhr _ r).
    assert (cursor_tidy r0) as Hr0 by done.
    destruct (cursor_tidy_handle r0 Hr0) as [Hr1 Hi1].
    destruct (_handleStream parse r0) as [r1 out1]. simpl in *.
    destruct (IH r1 Hr1) as [Hr2 Hi2].
    destruct (feed_all parse bodies r1) as [r2 out2]. simpl in *.
    split; [done|lia].
Qed.

(** X3.  Whatever bodies a request is fed, its cursor stays tidy: the
    read index is 1 at least, the buffered offsets lie between 1 and the
    read index, and no offset is buffered twice.  The read index has moved
    one line a call at most: after [n] calls at most [n] lines behind the
    first have been read. *)
Theorem handleStream_cursor_tidy bodies n url :
  cursor_tidy (feed_all parse bodies (Poll.new n url)).1 /\
  index (feed_all parse bodies (Poll.new n url)).1 <= 1 + length bodies.
Proof.
  destruct (cursor_tidy_feed_all bodies (Poll.new n url)) as [Ht Hi].
  - split_and!; simpl; [lia|constructor|constructor].
  - split; [done|]. simpl in Hi. lia.
Qed.

Lemma pending_offset_handle r j :
  pending_offset (_handleStream parse r).1 j -> pending_offset r j.
Proof.
  destruct (drain_split (getMessages r) (buffer r)) as (taken & Hbuf & _).
  pose proof (handle_cursor r) as Hc. simpl in Hc.
  set (d := drain parse (getMessages r) (buffer r)) in *.
  unfold pending_offset.
  assert (forall k, k ∈ d.1 -> k ∈ buffer r) as Hsub.
  { intros k Hk. rewrite Hbuf. apply elem_of_app. by right. }
  destruct Hc as [[-> ->]|[[-> ->]|[-> ->]]]; intros [Hin|Hle]; auto;
    try (right; lia).
  apply elem_of_app in Hin as [Hin|Hin%list_elem_of_singleton]; subst; auto.
Qed.

Lemma pending_offset_feed_all bodies r j :
  pending_offset (feed_all parse bodies r).1 j -> pending_offset r j.
Proof.
  revert r. induction bodies as [|body bodies IH]; intros r; simpl; [done|].
  unfold feed. set (r0 := set_xhr _ r).
  pose proof (pending_offset_handle r0 j) as H0.
  destruct (_handleStream parse r0) as [r1 out1]. simpl in *.
  specialize (IH r1).
  destruct (feed_all parse bodies r1) as [r2 out2]. simpl in *.
  intros Hj. apply H0, IH, Hj.
Qed.

(** X5.  The offsets the handler may still read only get fewer: an
    offset that is neither buffered nor at or behind the read index is,
    after any number of further bodies, still neither.  What has been
    emitted or dropped is not read again. *)
Theorem handleStream_pending_shrinks bodies r j :
  pending_offset (feed_all parse bodies r).1 j -> pending_offset r j.
Proof. apply pending_offset_feed_all. Qed.

(** X4.  The messages of one call are the parsed texts of distinct lines
    of the body the request holds, at offsets of 1 or more that were
    still to read before the call and are not any more after it: no line
    is emitted twice, and the first line is emitted never. *)
Theorem handleStream_emits_pending_once r r' out :
  cursor_tidy r ->
  _handleStream parse r = (r', out) ->
  exists js,
    Forall2 (fun j m => parsed parse r j = Some m) js (messages out) /\
    NoDup js /\
    Forall (fun j => 1 <= j /\ pending_offset r j /\ ~ pending_offset r' j) js.
Proof.
  intros (Hi & Hb & Hnd). rewrite handle_eq. unfold parsed, pending_offset.
  destruct (drain_split (getMessages r) (buffer r)) as (taken & Hbuf & Hout).
  set (d := drain parse (getMessages r) (buffer r)) in *.
  assert (Forall (fun j => 1 <= j < index r) taken /\
          Forall (fun j => 1 <= j < index r) d.1) as [Htaken Hd].
  { rewrite Hbuf in Hb. by apply Forall_app in Hb. }
  assert (NoDup taken /\ (forall j, j ∈ taken -> j ∉ d.1)) as [Hndt Hdisj].
  { rewrite Hbuf in Hnd. apply NoDup_app in Hnd as (? & ? & _). done. }
  assert (forall j, j ∈ taken -> j ∈ buffer r) as Hsub.
  { intros j Hj. rewrite Hbuf. apply elem_of_app. by left. }
  assert (forall i' (b' : list nat),
            index r <= i' -> (forall j, j ∈ b' -> j ∈ d.1 \/ j = index r) ->
            Forall (fun j => 1 <= j /\ (j ∈ buffer r \/ index r <= j) /\
                             ~ (j ∈ b' \/ i' <= j)) taken) as Hgone.
  { intros i' b' Hi' Hb'. apply Forall_forall. intros j Hj.
    rewrite Forall_forall in Htaken.
    pose proof (Htaken j Hj) as Hlt.
    split_and!; [lia|auto|].
    intros [Hin|Hle]; [|lia].
    destruct (Hb' j Hin) as [Hin'| ->]; [by apply (Hdisj j)|lia]. }
  assert (index r ∉ d.1) as Hidx.
  { intros Hin. rewrite Forall_forall in Hd.
    apply Hd in Hin. lia. }
  repeat case_match; intros [= <- <-]; simpl;
    rewrite ?messages_app, ?messages_emits.
  - (* the line at the read index is deferred *)
    exists taken. split_and!; [done|done|].
    apply Hgone; [lia|]. intros j [?|Heq%list_elem_of_singleton]%elem_of_app; auto.
  - (* it is emitted *)
    exists (taken ++ [index r]). split_and!.
    + apply Forall2_app; [done|]. by repeat constructor.
    + apply NoDup_app. split_and!; [done| |apply NoDup_singleton].
      intros j Hj ->%list_elem_of_singleton.
      rewrite Forall_forall in Htaken. apply Htaken in Hj. lia.
    + apply Forall_app. split; [apply Hgone; [lia|auto]|].
      apply Forall_singleton. split_and!; [lia|by right|].
      intros [Hin|Hle]; [done|lia].
  - (* it does not parse *)
    exists taken. rewrite app_nil_r. split_and!; [done|done|].
    apply Hgone; [lia|auto].
  - (* there is none *)
    exists taken. split_and!; [done|done|]. apply Hgone; [lia|auto].
Qed.

(** X6.  A line at the read index that is not the last of the body and
    does not parse is logged and dropped: the call emits no message for
    it, and it is not read again, whatever bodies follow. *)
Theorem handleStream_drops_bad_line r r' out line :
  cursor_tidy r ->
  getMessages r !! index r = Some line -> line <> EmptyString ->
  index r + 1 <> length (getMessages r) ->
  parse line = None ->
  _handleStream parse r = (r', out) ->
  last out = Some (Log "Invalid server message" (Some line)) /\
  messages out = (drain parse (getMessages r) (buffer r)).2 /\
  forall bodies, ~ pending_offset (feed_all parse bodies r').1 (index r).
Proof.
  intros (Hi & Hb & Hnd) Hline Hne Hlast Hparse. rewrite handle_eq, Hline. simpl.
  rewrite Hparse.
  destruct line; [done|]. simpl.
  destruct (Nat.eqb_spec (index r + 1) (length (getMessages r))); [done|].
  intros [= <- <-]. split_and!.
  - by rewrite last_snoc.
  - rewrite messages_app, messages_emits. simpl. by rewrite app_nil_r.
  - intros bodies Hp%pending_offset_feed_all.
    destruct Hp as [Hin|Hle]; simpl in *; [|lia].
    destruct (drain_split (getMessages r) (buffer r)) as (taken & Hbuf & _).
    rewrite Hbuf in Hb. apply Forall_app in Hb as [_ Hd].
    rewrite Forall_forall in Hd. apply Hd in Hin. lia.
Qed.

End CursorFacts.

Section RunCursor.
Import Poll Transport Further Examples.

Lemma handleStream_pending_shrinks_witness :
  pending_offset (feed_all JSON.parse spec_bodies fresh).1 5 /\
  pending_offset fresh 5.
Proof.
  assert (pending_offset (feed_all JSON.parse spec_bodies fresh).1 5) as H.
  { right. vm_compute. lia. }
  split; [exact H|].
  exact (handleStream_pending_shrinks JSON.parse spec_bodies fresh 5 H).
Defined.

Lemma handleStream_emits_pending_once_witness :
  let r := loading (js "0|{'a':1}|{'b':2}|") waiting in
  cursor_tidy r /\
  messages (_handleStream JSON.parse r).2
  = [JSON.Obj [("a", JSON.Num 1)]; JSON.Obj [("b", JSON.Num 2)]] /\
  exists js,
    Forall2 (fun j m => parsed JSON.parse r j = Some m) js
      (messages (_handleStream JSON.parse r).2) /\
    NoDup js /\
    Forall (fun j => 1 <= j /\ pending_offset r j /\
                     ~ pending_offset (_handleStream JSON.parse r).1 j) js.
Proof.
  intros r.
  assert (cursor_tidy r) as Hr.
  { split_and!; [vm_compute; lia| |].
    - apply Forall_singleton. vm_compute. lia.
    - apply NoDup_singleton. }
  split; [exact Hr|]. split; [vm_compute; reflexivity|].
  exact (handleStream_emits_pending_once JSON.parse r _ _ Hr eq_refl).
Defined.

Lemma handleStream_drops_bad_line_witness :
  let r := loading (js "0|{bad|2|") fresh in
  cursor_tidy r /\
  getMessages r !! index r = Some "{bad" /\
  last (_handleStream JSON.parse r).2
  = Some (Log "Invalid server message" (Some "{bad")) /\
  messages (_handleStream JSON.parse r).2 = [] /\
  forall bodies,
    ~ pending_offset (feed_all JSON.parse bodies (_handleStream JSON.parse r).1).1 1.
Proof.
  intros r.
  assert (cursor_tidy r) as Hr.
  { split_and!; [vm_compute; lia|constructor|constructor]. }
  split; [exact Hr|]. split; [reflexivity|].
  apply (handleStream_drops_bad_line JSON.parse r _ _ "{bad" Hr);
    [reflexivity|discriminate|vm_compute; lia|reflexivity|reflexivity].
Defined.

End RunCursor.

(** ** [HttpRequest]: calls in sequence *)

Section TransportCalls.
Import Poll Transport Further.
Context {M : Type} `{!Host} (parse : string -> option M) (stringify : Data -> string).
Implicit Types (t : HttpRequest) (i : Input) (data : Data).

Abbreviation tstep := (Transport.step parse stringify).
Abbreviation trun := (Transport.run parse stringify).

(** Every method of the transport unfolded, and its cases apart; of
    [abort] and of the handler, that they change the store alone. *)
Ltac methods :=
  simpl;
  unfold start, Transport.send, close, _cleanup, onError, run_callback,
    _startXhrStream, _setHTTPTimeout, setTimeout;
  simpl;
  repeat first
    [ match goal with
      | |- context [abort _ ?r ?t] =>
          destruct (abort_store parse r t) as (? & ? & -> & ? & ?); simpl
      | |- context [onreadystatechange _ ?r ?t] =>
          destruct (onreadystatechange_store parse r t) as (? & ? & -> & ?); simpl
      | E : abort _ ?r ?t = _ |- _ =>
          let E' := fresh in
          destruct (abort_store parse r t) as (? & ? & E' & ? & ?);
          rewrite E' in E; clear E'; simplify_eq; simpl in *
      | E : onreadystatechange _ ?r ?t = _ |- _ =>
          let E' := fresh in
          destruct (onreadystatechange_store parse r t) as (? & ? & E' & ?);
          rewrite E' in E; clear E'; simplify_eq; simpl in *
      end
    | case_match; simplify_eq; simpl in * ].

(** X7.  [close] leaves the transport disconnected, a second [close]
    does nothing, and a [send] on a closed transport is dropped: the
    transport is unchanged and nothing is posted, queued or emitted. *)
Theorem close_twice_and_send t data :
  let t' := (close parse t).1 in
  _disconnected t' = true /\
  close parse t' = (t', []) /\
  Transport.send (M := M) stringify data t' = (t', []).
Proof.
  intros t'. subst t'. unfold close, _cleanup, Transport.send.
  destruct (_disconnected t) eqn:Hd; simpl.
  - by rewrite Hd.
  - destruct (_httpRequest t); [|done].
    by destruct (abort_store parse r (clearTimeout (_timeout t) t))
      as (s' & out & -> & _).
Qed.

Lemma step_keeps_request i t :
  is_Some (_httpRequest t) -> is_Some (_httpRequest (tstep i t).1).
Proof. intros Hr. destruct i; methods; eauto; by destruct Hr. Qed.

Lemma run_keeps_request inputs t :
  is_Some (_httpRequest t) -> is_Some (_httpRequest (trun inputs t).1).
Proof.
  revert t. induction inputs as [|i inputs IH]; intros t Ht; [done|]. simpl.
  pose proof (step_keeps_request i t Ht) as Ht1.
  destruct (tstep i t) as [t1 out1]. specialize (IH t1 Ht1).
  by destruct (trun inputs t1).
Qed.

Lemma run_cons_state i inputs t :
  (trun (i :: inputs) t).1 = (trun inputs (tstep i t).1).1.
Proof.
  simpl. destruct (tstep i t) as [t1 out1]. simpl.
  by destruct (trun inputs t1).
Qed.

(** X8.  A transport is started once.  After the first [start],
    whatever has been called or has happened since, [close] among it,
    another [start] does nothing: a closed transport is not started
    again. *)
Theorem start_only_once secure host port path key id token inputs id' token' :
  let t := (trun (CallStart id token :: inputs)
              (new secure host port path key)).1 in
  start (M := M) id' token' t = (t, []).
Proof.
  intros t. unfold start.
  assert (is_Some (_httpRequest t)) as [r ->]; [|done].
  subst t. rewrite run_cons_state. apply run_keeps_request.
  simpl. unfold start. simpl.
  match goal with
  | |- context [_startXhrStream 0 ?t0] =>
      destruct (startXhrStream_alloc (M := M) 0 t0) as (req & _ & _ & _ & Hc & _);
      destruct (_startXhrStream (M := M) 0 t0) as [t1 out1]
  end.
  simpl in *. rewrite Hc. by eexists.
Qed.

(** X13.  A change of state that the host reports with a state of 2 or
    less, with a status other than 200 or with an empty body makes the
    transport emit nothing. *)
Theorem no_event_without_success t r x e :
  readyState x <= 2 \/ status x <> 200 \/ responseText x = EmptyString ->
  Emit e ∉ (Transport.step parse stringify (ReadyStateChange r x) t).2.
Proof.
  intros Hx. simpl.
  set (t1 := set_store (alter (set_xhr x) r (store t)) t).
  assert (Forall (fun e : Effect M => is_abort e = true)
            (onreadystatechange parse r t1).2) as Hout.
  { unfold onreadystatechange.
    destruct (store t1 !! r) as [req|] eqn:Hreq;
      [|by unfold state_changed; rewrite Hreq].
    apply (state_changed_aborts parse _ r t1 req Hreq).
    - subst t1. simpl in Hreq. rewrite lookup_alter_eq in Hreq.
      destruct (store t !! r) as [req0|]; [|done]. simpl in Hreq.
      injection Hreq as <-.
      unfold isSuccess. simpl. destruct Hx as [Hx|[Hx|Hx]].
      + apply andb_false_iff. left. apply andb_false_iff. left.
        apply Nat.ltb_ge. lia.
      + apply andb_false_iff. left. apply andb_false_iff. right.
        by apply Nat.eqb_neq.
      + rewrite Hx. by rewrite andb_false_r.
    - intros p t0. by destruct (abort_store parse p t0) as (? & ? & -> & _ & ?). }
  intros Hin. rewrite Forall_forall in Hout. by apply Hout in Hin.
Qed.


(** *** What every reachable transport keeps *)

Lemma addressed_step inputs base i t :
  addressed inputs base t -> addressed (inputs ++ [i]) base (tstep i t).1.
Proof.
  intros [Hbase Hid].
  assert (forall id, _id t = Some id ->
            exists token, CallStart id token ∈ inputs ++ [i] /\
              Transport._httpUrl t
              = Some (base +:+ "/" +:+ id +:+ "/" +:+ token)) as Hid'.
  { intros id' Hi. destruct (Hid id' Hi) as (token & Hin & Hurl).
    exists token. split; [|done]. apply elem_of_app. by left. }
  destruct i; methods; split; try done.
  all: intros id' [= <-]; exists token; split; [|done].
  all: apply elem_of_app; right; apply list_elem_of_here.
Qed.

Lemma addressed_run secure host port path key inputs :
  addressed inputs (_baseUrl (new secure host port path key))
    (trun inputs (new secure host port path key)).1.
Proof.
  induction inputs as [|i inputs IH] using rev_ind; [by split|].
  rewrite (run_app parse stringify).
  pose proof (addressed_step inputs _ i _ IH) as Hs.
  destruct (trun inputs (new secure host port path key)) as [t1 out1].
  simpl in *. by destruct (tstep i t1).
Qed.

(** X9.  [send] on a connected transport goes to the address the
    constructor and the first [start] have made: the protocol, host, port,
    path and key, then the id and token of a [start] that was called,
    then the type of the message as the host puts it in lower case.  When
    [open] takes the address, one request is posted to it, its body the
    message serialised and its content type JSON; when [open] throws, the
    exception leaves [send] and nothing is posted. *)
Theorem send_posts_to_session secure host port path key inputs data ty :
  let t := (trun inputs (new secure host port path key)).1 in
  _disconnected t = false -> truthy (_id t) = true ->
  type data = Some ty -> ty <> EmptyString ->
  exists id token,
    CallStart id token ∈ inputs /\
    let url := (if secure then "https://" else "http://") +:+ host +:+ ":"
               +:+ pretty port +:+ path +:+ key +:+ "/" +:+ id +:+ "/"
               +:+ token +:+ "/" +:+ toLowerCase ty in
    Transport.send (M := M) stringify data t
    = (t, match open_error url with
          | None => [Post url (Some "application/json") (Some (stringify data))]
          | Some error => [Throw error]
          end).
Proof.
  intros t Hd Hid Hty Hne.
  destruct (addressed_run secure host port path key inputs) as [_ Haddr].
  fold t in Haddr.
  destruct (_id t) as [id|] eqn:Hi; [|done].
  destruct (Haddr id eq_refl) as (token & Hin & Hurl).
  exists id, token. split; [done|].
  unfold Transport.send. rewrite Hd, Hi, Hid, Hty, Hurl. simpl.
  destruct ty; [done|]. simpl.
  rewrite !append_assoc. by destruct (open_error _).
Qed.

Lemma indexed_store t s' :
  indexed t ->
  (forall k req', s' !! k = Some req' ->
     exists req, store t !! k = Some req /\ streamIndex req' = streamIndex req) ->
  indexed (set_store s' t).
Proof.
  intros (Hstore & Hcur & Hnone) Hout. split_and!; simpl; [|done|done].
  intros r req' Hr. destruct (Hout r req' Hr) as (req & Hreq & Hs).
  rewrite Hs. eauto.
Qed.

Lemma indexed_keeps t s' :
  indexed t -> keeps (store t) s' -> indexed (set_store s' t).
Proof.
  intros Hix [_ Hout]. apply indexed_store; [done|].
  intros k req' Hk. destruct (Hout k req' Hk) as (req & ? & ? & _). eauto.
Qed.

Lemma indexed_alter (f : HttpRequestLongPoll -> HttpRequestLongPoll) k t :
  (forall r, streamIndex (f r) = streamIndex r) ->
  indexed t -> indexed (set_store (alter f k (store t)) t).
Proof.
  intros Hf Hix. apply indexed_store; [done|].
  intros j req'. rewrite lookup_alter. case_decide; subst; [|eauto].
  destruct (store t !! j) as [req|]; [|done]. simpl. intros [= <-]. eauto.
Qed.

Lemma indexed_same t t' :
  store t' = store t -> _httpRequest t' = _httpRequest t ->
  next_ref t' = next_ref t -> indexed t -> indexed t'.
Proof. intros Hs Hc Hn. unfold indexed. by rewrite Hs, Hc, Hn. Qed.

(** A new request at the place [n] that is the next free address. *)
Lemma indexed_startXhrStream n t :
  indexed t -> n = next_ref t -> indexed (_startXhrStream (M := M) n t).1.
Proof.
  intros (Hstore & Hcur & Hnone) ->.
  destruct (startXhrStream_alloc (M := M) (next_ref t) t)
    as (req & Es & _ & Hi & Ec & En).
  unfold indexed. rewrite Es, Ec, En. split_and!; [|by intros r [= <-]|done].
  intros r req0. rewrite lookup_insert. case_decide as Hr.
  - intros [= <-]. subst r. split; [done|lia].
  - intros Hreq. destruct (Hstore r req0 Hreq). split; [done|lia].
Qed.

Lemma indexed_step i t : indexed t -> indexed (tstep i t).1.
Proof.
  intros Hix. destruct i; simpl.
  - (* start *)
    unfold start. case_match eqn:Hg; [done|].
    apply orb_false_iff in Hg as [Hg _].
    assert (_httpRequest t = None) as Hnone.
    { destruct (_httpRequest t) eqn:E; [|done].
      apply bool_decide_eq_false in Hg. exfalso. apply Hg. eauto. }
    match goal with
    | |- context [_startXhrStream 0 ?t0] =>
        pose proof (indexed_startXhrStream 0 t0) as Hs;
        destruct (_startXhrStream (M := M) 0 t0) as [t1 out1]
    end.
    simpl in *. eapply indexed_same; [..|apply Hs]; try done.
    destruct Hix as (_ & _ & Hn). symmetry. by apply Hn.
  - unfold Transport.send. by repeat case_match.
  - unfold close, _cleanup. destruct (_disconnected t); [done|]. simpl.
    destruct (_httpRequest t) as [r|] eqn:Hr; simpl;
      [|eapply indexed_same; [..|exact Hix]; done].
    destruct (abort_store parse r (clearTimeout (_timeout t) t))
      as (s' & out & -> & Hk & _). simpl.
    eapply indexed_same with (t := set_store s' t); try done.
    by apply indexed_keeps.
  - assert (indexed (set_store (alter (set_xhr x) r (store t)) t)) as Hix1
      by (by apply indexed_alter).
    revert Hix1. generalize (set_store (alter (set_xhr x) r (store t)) t).
    clear t Hix. intros t Hix.
    destruct (onreadystatechange_store parse r t) as (s' & out & -> & Hk).
    by apply indexed_keeps.
  - unfold onError. case_match; [|done]. simpl.
    eapply indexed_same; [..|exact Hix]; done.
  - destruct (timers t !! h) as [timer|]; [|done].
    assert (indexed (clearTimeout (Some h) t)) as Hix1.
    { eapply indexed_same; [..|exact Hix]; done. }
    revert Hix1. generalize (clearTimeout (Some h) t).
    clear t Hix. intros t Hix.
    destruct (callback timer) as [r|]; simpl.
    + destruct (store t !! r) as [req|]; [|done].
      case_match; [|done].
      destruct (abort_store parse r t) as (s' & out & -> & Hk & _).
      unfold onError. simpl.
      eapply indexed_same with (t := set_store s' t); try done.
      by apply indexed_keeps.
    + destruct (_httpRequest t) as [oldHttp|] eqn:Hold; [|done].
      destruct (store t !! oldHttp) as [old|] eqn:Hstore; [|done].
      pose proof Hix as (Hs & Hc & _).
      destruct (Hs oldHttp old Hstore) as [Hidx _].
      pose proof (Hc oldHttp Hold) as Hnext.
      assert (indexed (_startXhrStream (M := M) (streamIndex old + 1) t).1) as Hs1.
      { apply indexed_startXhrStream; [done|lia]. }
      destruct (_startXhrStream (M := M) (streamIndex old + 1) t) as [t1 out1].
      simpl in *. destruct (_httpRequest t1); [|done]. simpl.
      by apply indexed_alter.
Qed.

Lemma reachable_indexed t : reachable parse stringify t -> indexed t.
Proof.
  apply (reachable_ind parse stringify).
  - intros. by split_and!.
  - intros i t' _. apply indexed_step.
Qed.

(** X10.  In every reachable transport the request at address [r] of the
    store is the request at place [r] of the chain, and the current
    request is the newest: the places are 0, 1, 2 and so on in the order
    in which the requests were made. *)
Theorem requests_indexed_in_order t :
  reachable parse stringify t ->
  (forall r req, store t !! r = Some req -> streamIndex req = r) /\
  (forall r, _httpRequest t = Some r ->
     S r = next_ref t /\ forall r', is_Some (store t !! r') -> r' <= r).
Proof.
  intros (Hstore & Hcur & _)%reachable_indexed. split.
  - intros r req Hr. by destruct (Hstore r req Hr).
  - intros r Hr. pose proof (Hcur r Hr) as Hn. split; [done|].
    intros r' [req Hreq]. destruct (Hstore r' req Hreq). lia.
Qed.

(** *** The idle timeout *)

Lemma idle_owned_same t t' :
  timers t' = timers t -> next_timer t' = next_timer t ->
  _timeout t' = _timeout t -> _httpRequest t' = _httpRequest t ->
  (_disconnected t' = false -> _disconnected t = false) ->
  idle_owned t -> idle_owned t'.
Proof.
  intros Ht Hn Hh Hr Hd (H1 & H2 & H3 & H4). unfold idle_owned.
  rewrite Ht, Hn, Hh, Hr. split_and!; auto.
Qed.

(** Clearing the timeout the transport holds leaves no idle timeout. *)
Lemma idle_owned_clear t :
  idle_owned t ->
  idle_owned (clearTimeout (_timeout t) t) /\
  ~ idle_pending (clearTimeout (_timeout t) t).
Proof.
  intros (Hbelow & Hown & Hnone & Hconn).
  assert (forall h timer,
            timers (clearTimeout (_timeout t) t) !! h = Some timer ->
            timers t !! h = Some timer /\ _timeout t <> Some h) as Hsub.
  { intros h timer. simpl. destruct (_timeout t) as [h0|]; [|done].
    rewrite lookup_delete. case_decide; [done|]. split; [done|congruence]. }
  split.
  - split_and!; simpl; [| | |done].
    + intros h [timer Hh]. apply Hsub in Hh as [Hh _]. eauto.
    + intros h timer Hh Hc. apply Hsub in Hh as [Hh Hne].
      by destruct Hne; eauto.
    + intros Hr. rewrite (Hnone Hr). destruct (_timeout t); [|done].
      apply delete_empty.
  - intros (h & timer & Hh & Hc). apply Hsub in Hh as [Hh Hne]. eauto.
Qed.

(** So does the idle timeout that runs. *)
Lemma idle_owned_fired h timer t :
  idle_owned t -> timers t !! h = Some timer ->
  idle_owned (clearTimeout (Some h) t) /\
  (callback timer = HttpTimeout -> ~ idle_pending (clearTimeout (Some h) t)).
Proof.
  intros (Hbelow & Hown & Hnone & Hconn) Hh.
  assert (forall h' timer',
            timers (clearTimeout (Some h) t) !! h' = Some timer' ->
            timers t !! h' = Some timer' /\ h' <> h) as Hsub.
  { intros h' timer'. simpl. rewrite lookup_delete. case_decide; [done|].
    by split. }
  split.
  - split_and!; simpl; [| | |done].
    + intros h' [timer' Hh']. apply Hsub in Hh' as [Hh' _]. eauto.
    + intros h' timer' Hh' Hc. apply Hsub in Hh' as [Hh' Hne]. eauto.
    + intros Hr. rewrite (Hnone Hr) in Hh. done.
  - intros Hc (h' & timer' & Hh' & Hc'). apply Hsub in Hh' as [Hh' Hne].
    pose proof (Hown h timer Hh Hc) as E1.
    pose proof (Hown h' timer' Hh' Hc') as E2. congruence.
Qed.

(** A new request arms the one idle timeout there is, or none when
    [open] throws. *)
Lemma idle_owned_startXhrStream n t :
  idle_owned t -> ~ idle_pending t ->
  idle_owned (set_disconnected false (_startXhrStream (M := M) n t).1) /\
  idle_owned (_startXhrStream (M := M) n t).1.
Proof.
  intros (Hbelow & Hown & Hnone & Hconn) Hidle.
  unfold _startXhrStream, _setHTTPTimeout, setTimeout, alloc.
  destruct (open_error _); simpl.
  { split; (split_and!; simpl; [done| |done|by eauto]).
    all: intros h timer Hh Hc; exfalso; apply Hidle; by exists h, timer. }
  assert (forall h timer,
            <[S (next_timer t) := mkTimer HTTP_TIMEOUT HttpTimeout]>
              (<[next_timer t :=
                   mkTimer CONNECTION_OPEN_TIMEOUT (OpenTimeout (next_ref t))]>
                 (timers t)) !! h = Some timer ->
            (h = S (next_timer t) \/
             (h <= next_timer t /\ callback timer <> HttpTimeout))) as Hnew.
  { intros h timer. rewrite lookup_insert. case_decide; [by left|].
    rewrite lookup_insert. case_decide; subst.
    - intros [= <-]. right. split; [lia|done].
    - intros Hh. right. split.
      + assert (h < next_timer t) by eauto. lia.
      + intros Hc. apply Hidle. by exists h, timer. }
  split; (split_and!; simpl; [| | |by eauto]).
  all: try (intros h [timer Hh]; apply Hnew in Hh as [->|[? _]]; lia).
  all: try (intros h timer Hh Hc; apply Hnew in Hh as [->|[_ ?]]; done).
  all: done.
Qed.

Lemma idle_owned_step i t : idle_owned t -> idle_owned (tstep i t).1.
Proof.
  intros Ho. pose proof Ho as (Hbelow & Hown & Hnone & Hconn).
  destruct i; simpl.
  - (* start *)
    unfold start. case_match eqn:Hg; [done|].
    apply orb_false_iff in Hg as [Hg _].
    assert (_httpRequest t = None) as Hr.
    { destruct (_httpRequest t) eqn:E; [|done].
      apply bool_decide_eq_false in Hg. exfalso. apply Hg. eauto. }
    match goal with
    | |- context [_startXhrStream 0 ?t0] =>
        pose proof (idle_owned_startXhrStream 0 t0) as [Hs _];
        [eapply idle_owned_same; [..|exact Ho]; done| |
         destruct (_startXhrStream (M := M) 0 t0) as [t1 out1]; exact Hs]
    end.
    intros (h & timer & Hh & _). simpl in Hh. by rewrite (Hnone Hr) in Hh.
  - unfold Transport.send. by repeat case_match.
  - (* close *)
    unfold close, _cleanup. destruct (_disconnected t); [done|].
    destruct (idle_owned_clear t Ho) as [Hc _]. simpl.
    destruct (_httpRequest t) as [r|] eqn:Hr; simpl;
      [|eapply idle_owned_same; [..|exact Hc]; done].
    destruct (abort_store parse r (clearTimeout (_timeout t) t))
      as (s' & out & -> & _). simpl.
    eapply idle_owned_same; [..|exact Hc]; done.
  - (* readystatechange *)
    destruct (onreadystatechange_store parse r
                (set_store (alter (set_xhr x) r (store t)) t))
      as (s' & out & -> & _). simpl.
    eapply idle_owned_same; [..|exact Ho]; done.
  - (* error *)
    unfold onError. case_match; [|done]. simpl. by apply idle_owned_clear.
  - (* timer *)
    destruct (timers t !! h) as [timer|] eqn:Hh; [|done].
    destruct (idle_owned_fired h timer t Ho Hh) as [Ho1 Hidle].
    revert Ho1 Hidle. generalize (clearTimeout (Some h) t).
    clear t Ho Hbelow Hown Hnone Hconn Hh. intros t Ho Hidle.
    destruct (callback timer) as [r|]; unfold run_callback.
    + destruct (store t !! r) as [req|]; [|done].
      case_match; [|done].
      destruct (abort_store parse r t) as (s' & out & -> & _).
      unfold onError. simpl.
      destruct (idle_owned_clear t Ho) as [Hc _].
      eapply idle_owned_same; [..|exact Hc]; done.
    + destruct (_httpRequest t) as [oldHttp|] eqn:Hold; [|done].
      destruct (store t !! oldHttp) as [old|] eqn:Hstore; [|done].
      destruct (idle_owned_startXhrStream (streamIndex old + 1) t Ho) as [_ Hs];
        [by apply Hidle|].
      destruct (_startXhrStream (M := M) (streamIndex old + 1) t) as [t1 out1].
      simpl in Hs. destruct (_httpRequest t1) eqn:E; [|exact Hs].
      eapply idle_owned_same; [..|exact Hs]; done.
Qed.

Lemma reachable_idle_owned t : reachable parse stringify t -> idle_owned t.
Proof.
  apply (reachable_ind parse stringify).
  - intros. split_and!; simpl; [| |done|done].
    + intros h [timer Hh]. by rewrite lookup_empty in Hh.
    + intros h timer Hh. by rewrite lookup_empty in Hh.
  - intros i t' _. apply idle_owned_step.
Qed.

(** X11.  A reachable transport has one idle timeout pending at most,
    and it is the one whose handle [_timeout] holds. *)
Theorem one_idle_timeout t h timer :
  reachable parse stringify t ->
  timers t !! h = Some timer -> callback timer = HttpTimeout ->
  _timeout t = Some h /\
  forall h' timer',
    timers t !! h' = Some timer' -> callback timer' = HttpTimeout -> h' = h.
Proof.
  intros (_ & Hown & _)%reachable_idle_owned Hh Hc.
  pose proof (Hown h timer Hh Hc) as E. split; [done|].
  intros h' timer' Hh' Hc'. pose proof (Hown h' timer' Hh' Hc'). congruence.
Qed.

(** A transport at rest stays at rest and makes no request. *)
Lemma at_rest_step i t :
  at_rest t -> at_rest (tstep i t).1 /\ next_ref (tstep i t).1 = next_ref t.
Proof.
  intros [[r Hr] Hidle].
  assert (forall t', _httpRequest t' = _httpRequest t ->
            (forall h timer, timers t' !! h = Some timer ->
               timers t !! h = Some timer) ->
            at_rest t') as Hrest.
  { intros t' Hr' Hsub. split; [rewrite Hr', Hr; eauto|].
    intros (h & timer & Hh & Hc). apply Hidle. exists h, timer. eauto. }
  assert (forall (m : gmap nat Timer) (o : option nat) h timer,
            match o with Some h0 => delete h0 m | None => m end
            !! h = Some timer -> m !! h = Some timer) as Hdel.
  { intros m [h0|] h timer; [|done]. rewrite lookup_delete. by case_decide. }
  destruct i; simpl.
  - unfold start. rewrite Hr. simpl. split; [|done]. by apply Hrest.
  - unfold Transport.send. repeat case_match; (split; [by apply Hrest|done]).
  - unfold close, _cleanup. destruct (_disconnected t); [split; [by apply Hrest|done]|].
    simpl. rewrite Hr.
    destruct (abort_store parse r (clearTimeout (_timeout t) t))
      as (s' & out & -> & _). simpl.
    split; [|done]. apply Hrest; [done|]. apply Hdel.
  - destruct (onreadystatechange_store parse r0
                (set_store (alter (set_xhr x) r0 (store t)) t))
      as (s' & out & -> & _). simpl.
    split; [by apply Hrest|done].
  - unfold onError. case_match; (split; [|done]); apply Hrest; try done.
    apply Hdel.
  - destruct (timers t !! h) as [timer|] eqn:Hh; [|split; [by apply Hrest|done]].
    destruct (callback timer) as [r1|] eqn:Hc.
    + simpl. destruct (store t !! r1) as [req|]; [|split; [|done]].
      * case_match; [|split; [|done]].
        -- destruct (abort_store parse r1 (clearTimeout (Some h) t))
             as (s' & out & -> & _).
           unfold onError. simpl. split; [|done].
           apply Hrest; [done|]. simpl. intros h' timer' Hd.
           apply Hdel in Hd. rewrite lookup_delete in Hd. by case_decide.
        -- apply Hrest; [done|]. simpl. intros h' timer' Hd.
           rewrite lookup_delete in Hd. by case_decide.
      * apply Hrest; [done|]. simpl. intros h' timer' Hd.
        rewrite lookup_delete in Hd. by case_decide.
    + exfalso. apply Hidle. by exists h, timer.
Qed.

Lemma at_rest_run inputs t :
  at_rest t -> next_ref (trun inputs t).1 = next_ref t.
Proof.
  revert t. induction inputs as [|i inputs IH]; intros t Ht; [done|].
  rewrite run_cons_state. destruct (at_rest_step i t Ht) as [Ht1 Hn].
  by rewrite IH.
Qed.

(** X12.  After [close] on a connected transport, and after the error of
    one of its requests, a reachable transport makes no further request,
    whatever is called or happens afterwards: the chain has ended. *)
Theorem chain_ends_on_close_or_error t inputs :
  reachable parse stringify t ->
  (_disconnected t = false ->
   next_ref (trun (CallClose :: inputs) t).1 = next_ref t) /\
  (forall r, is_Some (store t !! r) ->
   next_ref (trun (XhrError r :: inputs) t).1 = next_ref t).
Proof.
  intros Ht. pose proof (reachable_idle_owned t Ht) as Ho.
  pose proof (reachable_indexed t Ht) as (Hstore & _ & Hnone).
  destruct (idle_owned_clear t Ho) as [_ Hidle].
  pose proof Ho as (_ & _ & _ & Hconn).
  split.
  - intros Hd. destruct (Hconn Hd) as [r Hr].
    assert (exists s' out,
              tstep CallClose t
              = (set_disconnected true
                   (set_store s' (clearTimeout (_timeout t) t)), out)) as Hclose.
    { simpl. unfold close, _cleanup. rewrite Hd. simpl. rewrite Hr.
      destruct (abort_store parse r (clearTimeout (_timeout t) t))
        as (s' & out & -> & _). eauto. }
    destruct Hclose as (s' & out & Hclose).
    rewrite run_cons_state, at_rest_run; rewrite Hclose; [done|].
    split; [simpl; rewrite Hr; by eexists|]. exact Hidle.
  - intros r [req Hreq].
    assert (is_Some (_httpRequest t)) as Hcur.
    { destruct (_httpRequest t) eqn:E; [by eexists|].
      destruct (Hstore r req Hreq) as [_ Hlt]. rewrite (Hnone eq_refl) in Hlt. lia. }
    rewrite run_cons_state, at_rest_run.
    + simpl. by rewrite Hreq.
    + simpl. rewrite Hreq. simpl. split; [done|]. exact Hidle.
Qed.

End TransportCalls.

Section RunTransportCalls.
Import Poll Transport Further Examples.

Lemma started_reachable : reachable JSON.parse serialise started.
Proof. exists false, "h", 9000%N, "/", "k", [CallStart "id1" "tok"]. reflexivity. Qed.

Lemma send_posts_to_session_witness :
  exists id token,
    CallStart id token ∈ [CallStart "id1" "tok"; CallSend answer] /\
    let url := "http://" +:+ "h" +:+ ":" +:+ pretty 9000%N +:+ "/" +:+ "k" +:+ "/"
               +:+ id +:+ "/" +:+ token +:+ "/" +:+ toLowerCase "OFFER" in
    Transport.send (M := JSON.value) serialise offer
      (Transport.run JSON.parse serialise
         [CallStart "id1" "tok"; CallSend answer] transport).1
    = ((Transport.run JSON.parse serialise
          [CallStart "id1" "tok"; CallSend answer] transport).1,
       match open_error url with
       | None => [Post url (Some "application/json") (Some (serialise offer))]
       | Some error => [Throw error]
       end).
Proof.
  apply (send_posts_to_session JSON.parse serialise false "h" 9000 "/" "k"
           [CallStart "id1" "tok"; CallSend answer] offer "OFFER");
    [reflexivity|reflexivity|reflexivity|discriminate].
Defined.

(** On a transport whose address does not parse, [start] logs the error
    of [open] and arms no timeout, and [send] throws. *)
Example send_throws_on_bad_address :
  Transport.run JSON.parse serialise
    [CallStart "id1" "tok"; CallSend offer] misaddressed
  = ({| _disconnected := false; _id := Some "id1";
        Transport._httpUrl := Some "http://h:99999/k/id1/tok";
        _timeout := None; _messagesQueue := []; _httpRequest := Some 0;
        _baseUrl := "http://h:99999/k";
        store := {[0 := Poll.new 0 "http://h:99999/k/id1/tok"]};
        next_ref := 1; timers := ∅; next_timer := 1 |},
     [Log "Error while sending through XMLHttpRequest" (Some "Invalid URL");
      Throw "Invalid URL"]).
Proof. vm_compute. reflexivity. Qed.

Lemma requests_indexed_in_order_witness :
  (forall r req, store second_request !! r = Some req -> streamIndex req = r) /\
  (forall r, _httpRequest second_request = Some r ->
     S r = next_ref second_request /\
     forall r', is_Some (store second_request !! r') -> r' <= r).
Proof.
  apply (requests_indexed_in_order JSON.parse serialise).
  exists false, "h", 9000%N, "/", "k", [CallStart "id1" "tok"; TimerFires 2].
  reflexivity.
Defined.

Lemma one_idle_timeout_witness :
  timers started !! 2 = Some (mkTimer HTTP_TIMEOUT HttpTimeout) /\
  _timeout started = Some 2 /\
  forall h' timer',
    timers started !! h' = Some timer' -> callback timer' = HttpTimeout -> h' = 2.
Proof.
  assert (timers started !! 2 = Some (mkTimer HTTP_TIMEOUT HttpTimeout)) as H
    by (vm_compute; reflexivity).
  split; [exact H|].
  apply (one_idle_timeout JSON.parse serialise started 2 _ started_reachable H).
  reflexivity.
Defined.

Lemma chain_ends_on_close_or_error_witness :
  _disconnected started = false /\
  next_ref (Transport.run JSON.parse serialise
              [CallClose; TimerFires 2; CallStart "id2" "tok"] started).1 = 1 /\
  next_ref (Transport.run JSON.parse serialise
              [XhrError 0; TimerFires 2; CallStart "id2" "tok"] started).1 = 1.
Proof.
  destruct (chain_ends_on_close_or_error JSON.parse serialise started
              [TimerFires 2; CallStart "id2" "tok"] started_reachable)
    as [Hclose Herr].
  split; [reflexivity|]. split.
  - apply Hclose. reflexivity.
  - apply Herr. eexists. vm_compute. reflexivity.
Defined.

Example idle_timeout_makes_request :
  next_ref (Transport.run JSON.parse serialise [TimerFires 2] started).1 = 2.
Proof. vm_compute. reflexivity. Qed.

Lemma no_event_without_success_witness :
  Emit (EvMessage (JSON.Num 1))
  ∉ (Transport.step JSON.parse serialise
       (ReadyStateChange 0 {| readyState := 3; status := 404;
                              responseText := js "0|1|" |}) started).2.
Proof.
  apply no_event_without_success. right. left. simpl. discriminate.
Defined.


Example open_timeout_after_close_runs :
  (Transport.run JSON.parse serialise [CallClose; TimerFires 1] started).2
  = [Abort 0; Abort 0; Emit EvDisconnected].
Proof. vm_compute. reflexivity. Qed.

(** With a second request that keeps the first, stuck before its
    headers: [close] aborts the second, whose handler aborts the first,
    and the open timeout of the second aborts it once more. *)
Example open_timeout_after_close_cascades :
  (Transport.run JSON.parse serialise [CallClose; TimerFires 3] second_request).2
  = [Abort 1; Abort 0; Abort 1; Emit EvDisconnected].
Proof. vm_compute. reflexivity. Qed.

End RunTransportCalls.

(** ** The chain under a host that keeps order *)

Section OrderlyFacts.
Import Poll Transport Further.
Context {M : Type} `{!Host} (parse : string -> option M) (stringify : Data -> string).
Implicit Types (t : HttpRequest) (i : Input) (rest : list Input).

Abbreviation ostep := (Transport.step parse stringify).
Abbreviation orun := (Transport.run parse stringify).

Lemma in_turn_order t h timer h' timer' :
  in_turn t h = true ->
  timers t !! h = Some timer -> timers t !! h' = Some timer' ->
  h' < h -> ~ (delay timer' <= delay timer)%N.
Proof.
  unfold in_turn. intros Hturn Hh Hh' Hlt Hle. rewrite Hh in Hturn.
  rewrite forallb_forall in Hturn.
  apply elem_of_map_to_list, list_elem_of_In, Hturn in Hh'.
  apply negb_true_iff, andb_false_iff in Hh' as [Hn|Hn].
  - apply Nat.ltb_ge in Hn. lia.
  - apply N.leb_gt in Hn. lia.
Qed.

Lemma in_sequence_error t r x rest req :
  in_sequence t r x rest = true ->
  store t !! r = Some req ->
  readyState (_xmlHttpRequest req) < 2 -> 2 < readyState x ->
  head rest = Some (XhrError r).
Proof.
  unfold in_sequence. intros Hseq Hr H1 H2. rewrite Hr in Hseq.
  apply Nat.ltb_lt in H1, H2. rewrite H1, H2 in Hseq. simpl in Hseq.
  destruct (head rest) as [[| | | |r'|]|]; try done.
  all: simpl in Hseq; by apply Nat.eqb_eq in Hseq as ->.
Qed.

(** What the handler does to the request it is run on: it lets the
    predecessor go, or it leaves predecessor and state as they are. *)
Lemma onreadystatechange_cases this t r :
  store t !! this = Some r ->
  (is_Some (previousRequest r) /\
   exists s' out r',
     onreadystatechange parse this t = (set_store s' t, out) /\
     keeps (store t) s' /\ s' !! this = Some r' /\ previousRequest r' = None)
  \/ (needsClearPreviousRequest t r = false /\
      exists r' out,
        onreadystatechange parse this t
        = (set_store (<[this := r']> (store t)) t, out) /\
        previousRequest r' = previousRequest r /\
        streamIndex r' = streamIndex r /\
        _xmlHttpRequest r' = _xmlHttpRequest r).
Proof.
  intros Hr. unfold onreadystatechange, state_changed, clear_previous.
  rewrite Hr. destruct (needsClearPreviousRequest t r) eqn:Hneeds.
  - left. destruct (previousRequest r) as [p|] eqn:Hp.
    + split; [by eexists|].
      destruct (abort_store parse p t) as (s' & out & -> & Hk & _).
      destruct Hk as [Hin Hout]. destruct (Hin this r Hr) as [r2 Hr2].
      eexists _, out, _. split; [done|]. simpl. split_and!.
      * apply keeps_trans with s'; [done|]. apply keeps_alter; eauto.
      * by rewrite lookup_alter_eq, Hr2.
      * done.
    + unfold needsClearPreviousRequest in Hneeds. rewrite Hp in Hneeds.
      rewrite bool_decide_eq_false_2 in Hneeds by (by intros [? ?]).
      by rewrite andb_false_r in Hneeds.
  - right. split; [done|]. destruct (isSuccess r).
    + pose proof (handleStream_frame parse r) as (Hp & Hs & Hx).
      destruct (_handleStream parse r) as [r' out]. simpl in *.
      by exists r', out.
    + exists r, []. by rewrite insert_id, set_store_id.
Qed.

(** With an input that is not the error of a request, the transport is
    as well handed over with anything else still to come. *)
Lemma handed_over_whatever i rest rest' t :
  (forall r, i <> XhrError r) ->
  handed_over (i :: rest) t -> handed_over rest' t.
Proof.
  intros Hi (Ho & Hcur & Hone & Hidle). split_and!; try done.
  intros Hp r req Hr Hreq Hprev.
  destruct (Hidle Hp r req Hr Hreq Hprev) as [?|Herr]; [by left|].
  simpl in Herr. injection Herr as ->. by destruct (Hi r).
Qed.

Lemma handed_over_same rest t t' :
  store t' = store t -> timers t' = timers t -> next_timer t' = next_timer t ->
  _timeout t' = _timeout t -> _httpRequest t' = _httpRequest t ->
  (_disconnected t' = false -> _disconnected t = false) ->
  handed_over rest t -> handed_over rest t'.
Proof.
  intros Hs Ht Hn Hh Hr Hd (Ho & Hcur & Hone & Hidle).
  unfold handed_over, idle_pending. rewrite Hs, Ht, Hr. split_and!; try done.
  by eapply idle_owned_same.
Qed.

(** A transport without idle timeout, whose store has kept its requests,
    is handed over. *)
Lemma handed_over_at_rest rest rest' t t' :
  handed_over rest t -> idle_owned t' -> ~ idle_pending t' ->
  keeps (store t) (store t') -> _httpRequest t' = _httpRequest t ->
  handed_over rest' t'.
Proof.
  intros (_ & Hcur & Hone & _) Ho Hidle [Hin Hout] Hr.
  split_and!; [done| | |done].
  - intros k Hk. rewrite Hr in Hk. destruct (Hcur k Hk) as [req Hreq]. eauto.
  - intros r req' Hreq' Hp. rewrite Hr.
    destruct (Hout r req' Hreq') as (req & Hreq & _ & [Hn|He]).
    + rewrite Hn in Hp. by destruct Hp.
    + rewrite He in Hp. eauto.
Qed.

Lemma handed_over_step i rest t :
  handed_over (i :: rest) t -> in_order t i rest = true ->
  handed_over rest (ostep i t).1.
Proof.
  intros Hall Horder.
  pose proof Hall as (Ho & Hcur & Hone & Hidle).
  pose proof (idle_owned_step parse stringify i t Ho) as Ho'.
  destruct i as [id token|data| |r x|r|h].
  - (* start *)
    simpl in *. unfold start in *. case_match eqn:Hg.
    { by apply (handed_over_whatever (CallStart id token) rest). }
    apply orb_false_iff in Hg as [Hg _].
    assert (_httpRequest t = None) as Hnone.
    { destruct (_httpRequest t) eqn:E; [|done].
      apply bool_decide_eq_false in Hg. exfalso. apply Hg. eauto. }
    match goal with
    | |- context [_startXhrStream 0 ?t0] =>
        destruct (startXhrStream_alloc (M := M) 0 t0) as (req & Es & Hp & _ & Ec & _);
        destruct (_startXhrStream (M := M) 0 t0) as [t1 out1]
    end.
    simpl in *. split_and!; simpl; [done| | |].
    + intros k. rewrite Ec, Es. intros [= <-]. rewrite lookup_insert_eq. eauto.
    + intros r req0. rewrite Es, lookup_insert. case_decide.
      * intros [= <-]. rewrite Hp. by intros [? ?].
      * intros Hreq Hprev. pose proof (Hone r req0 Hreq Hprev). congruence.
    + intros _ r req0. rewrite Ec, Es. intros [= <-].
      rewrite lookup_insert_eq. intros [= <-]. rewrite Hp. by intros [? ?].
  - (* send *)
    apply (handed_over_whatever (CallSend data) rest rest) in Hall; [|done].
    simpl. unfold Transport.send.
    repeat case_match; done.
  - (* close *)
    simpl in *. unfold close, _cleanup in *.
    destruct (_disconnected t) eqn:Hd.
    { by apply (handed_over_whatever CallClose rest). }
    destruct (idle_owned_clear t Ho) as [_ Hrest]. simpl in *.
    destruct (_httpRequest t) as [r|] eqn:Hr.
    + destruct (abort_store parse r (clearTimeout (_timeout t) t))
        as (s' & out & Hab & Hk & _). rewrite Hab in *. simpl in *.
      eapply handed_over_at_rest; [exact Hall|done| |done|by rewrite Hr].
      intros (h & timer & Hh & Hc). apply Hrest. by exists h, timer.
    + simpl in *.
      eapply handed_over_at_rest;
        [exact Hall|done| |apply keeps_refl|by rewrite Hr].
      intros (h & timer & Hh & Hc). apply Hrest. by exists h, timer.
  - (* readystatechange *)
    simpl in *.
    apply (handed_over_whatever (ReadyStateChange r x) rest []) in Hall as Hnow;
      [|done].
    destruct Hnow as (_ & _ & _ & Hbefore).
    destruct (store t !! r) as [req|] eqn:Hreq.
    2: { assert (alter (set_xhr x) r (store t) = store t) as Ealter.
         { apply map_eq. intros k. rewrite lookup_alter.
           case_decide; subst; by rewrite ?Hreq. }
         unfold onreadystatechange, state_changed in *. simpl in *.
         rewrite Ealter, Hreq in *. simpl.
         eapply handed_over_same;
           [..|exact (handed_over_whatever (ReadyStateChange r x) rest rest t
                        ltac:(done) Hall)]; done. }
    set (t1 := set_store (alter (set_xhr x) r (store t)) t) in *.
    assert (store t1 !! r = Some (set_xhr x req)) as Hreq1.
    { subst t1. simpl. by rewrite lookup_alter_eq, Hreq. }
    assert (keeps (store t) (store t1)) as Hk1.
    { subst t1. simpl. apply keeps_alter; eauto. }
    assert (forall s', keeps (store t1) s' ->
              (forall k, _httpRequest t = Some k -> is_Some (s' !! k)) /\
              (forall k req', s' !! k = Some req' ->
                 is_Some (previousRequest req') -> _httpRequest t = Some k))
      as Hkept.
    { intros s' Hk. pose proof (keeps_trans _ _ _ Hk1 Hk) as [Hin Hout]. split.
      - intros k Hk'. destruct (Hcur k Hk') as [req0 Hreq0]. eauto.
      - intros k req' Hreq' Hp.
        destruct (Hout k req' Hreq') as (req0 & Hreq0 & _ & [Hn|He]).
        + rewrite Hn in Hp. by destruct Hp.
        + rewrite He in Hp. eauto. }
    destruct (onreadystatechange_cases r t1 (set_xhr x req) Hreq1)
      as [(Hhad & s' & out & r' & Eh & Hk & Hr' & Hp')
         |(Hneeds & r' & out & Eh & Hp' & Hs' & Hx')];
      rewrite Eh in *; subst t1; simpl in *.
    + (* the predecessor is let go *)
      destruct (Hkept s' Hk) as [Hcur' Hone']. split_and!; try done.
      intros _ r0 req0 Hr0 Hreq0 Hp0. simpl in *.
      assert (r0 = r) as ->.
      { pose proof (Hone r req Hreq Hhad). congruence. }
      rewrite Hr' in Hreq0. injection Hreq0 as <-.
      rewrite Hp' in Hp0. by destruct Hp0.
    + (* it is kept *)
      assert (keeps (alter (set_xhr x) r (store t))
                (<[r := r']> (alter (set_xhr x) r (store t)))) as Hk
        by (by apply (keeps_insert r (set_xhr x req))).
      destruct (Hkept _ Hk) as [Hcur' Hone']. split_and!; try done.
      intros Hpending r0 req0 Hr0 Hreq0 Hp0. simpl in *.
      destruct (decide (r0 = r)) as [->|Hne].
      * rewrite lookup_insert_eq in Hreq0. injection Hreq0 as <-.
        rewrite Hp' in Hp0. simpl in Hp0.
        destruct (Hbefore Hpending r req Hr0 Hreq Hp0) as [[Hlow Hopen]|Herr];
          [|done].
        destruct (decide (2 < readyState x)) as [Hhigh|Hlow'].
        -- right. by eapply in_sequence_error.
        -- left. split; [|done]. rewrite Hx'. simpl.
           destruct (decide (readyState x = 2)) as [E2|]; [|lia].
           exfalso. unfold needsClearPreviousRequest in Hneeds. simpl in Hneeds.
           rewrite E2 in Hneeds. simpl in Hneeds.
           rewrite bool_decide_eq_true_2 in Hneeds; done.
      * rewrite lookup_insert_ne in Hreq0 by done.
        rewrite lookup_alter_ne in Hreq0 by done.
        destruct (Hbefore Hpending r0 req0 Hr0 Hreq0 Hp0) as [?|?]; [by left|done].
  - (* error *)
    simpl in *. destruct (store t !! r) as [req|] eqn:Hreq.
    + unfold onError in *. simpl in *.
      destruct (idle_owned_clear t Ho) as [_ Hrest].
      eapply handed_over_at_rest;
        [exact Hall|done|exact Hrest|apply keeps_refl|done].
    + destruct Hall as (_ & _ & _ & Hb). split_and!; try done.
      intros Hp r0 req0 Hr0 Hreq0 Hp0. simpl in *.
      destruct (Hb Hp r0 req0 Hr0 Hreq0 Hp0) as [?|Herr]; [by left|].
      injection Herr as ->. congruence.
  - (* timer *)
    simpl in *.
    apply (handed_over_whatever (TimerFires h) rest []) in Hall as Hnow; [|done].
    destruct Hnow as (_ & _ & _ & Hbefore).
    destruct (timers t !! h) as [timer|] eqn:Hh.
    2: { by apply (handed_over_whatever (TimerFires h) rest). }
    destruct (idle_owned_fired h timer t Ho Hh) as [Ho1 Hfired].
    assert (forall h' timer',
              timers (clearTimeout (Some h) t) !! h' = Some timer' ->
              timers t !! h' = Some timer' /\ h' <> h) as Hsub.
    { intros h' timer'. simpl. rewrite lookup_delete. case_decide; [done|].
      by split. }
    assert (~ (exists r0 req0, callback timer = OpenTimeout r0 /\
                 store t !! r0 = Some req0 /\
                 readyState (_xmlHttpRequest req0) < 2) ->
            callback timer <> HttpTimeout ->
            handed_over rest (clearTimeout (Some h) t)) as Hidle1.
    { intros Hnot Hcb. split_and!; try done.
      intros (hi & ti & Hhi & Hci) r0 req0 Hr0 Hreq0 Hp0. simpl in *.
      apply Hsub in Hhi as [Hhi Hne].
      destruct (Hbefore (ex_intro _ hi (ex_intro _ ti (conj Hhi Hci)))
                  r0 req0 Hr0 Hreq0 Hp0)
        as [[Hlow (hc & Hhc & Hlt)]|Herr]; [|done].
      left. split; [done|]. exists hc. split.
      - rewrite lookup_delete_ne; [done|]. intros <-.
        rewrite Hh in Hhc. injection Hhc as ->. simpl in *.
        apply Hnot. eauto.
      - intros hi' ti' Hhi' Hci'. apply Hsub in Hhi' as [Hhi' _]. eauto. }
    destruct (callback timer) as [r0|] eqn:Hcb; simpl in *.
    + (* the open timeout of a request *)
      destruct (store t !! r0) as [req0|] eqn:Hreq0.
      2: { apply Hidle1; [|done]. intros (r1 & req1 & [= <-] & Hr1 & _).
           congruence. }
      destruct (readyState (_xmlHttpRequest req0) <? 2) eqn:Hlow.
      2: { apply Hidle1; [|done]. intros (r1 & req1 & [= <-] & Hr1 & Hl).
           apply Nat.ltb_ge in Hlow. simplify_eq. lia. }
      destruct (abort_store parse r0 (clearTimeout (Some h) t))
        as (s' & out & Hab & Hk & _). rewrite Hab in *.
      unfold onError in *. simpl in *.
      assert (idle_owned (set_store s' (clearTimeout (Some h) t))) as Ho2.
      { eapply idle_owned_same; [..|exact Ho1]; done. }
      destruct (idle_owned_clear _ Ho2) as [_ Hrest]. simpl in Hrest.
      eapply handed_over_at_rest; [exact Hall|done|exact Hrest|done|done].
    + (* the idle timeout *)
      assert (~ idle_pending (clearTimeout (Some h) t)) as Hrest by auto.
      destruct (_httpRequest t) as [oldHttp|] eqn:Hold.
      2: { eapply handed_over_at_rest;
             [exact Hall|done|done|apply keeps_refl|simpl; by rewrite Hold]. }
      destruct (store t !! oldHttp) as [old|] eqn:Hstore.
      2: { eapply handed_over_at_rest;
             [exact Hall|done|done|apply keeps_refl|simpl; by rewrite Hold]. }
      assert (forall r0 req0, store t !! r0 = Some req0 ->
                previousRequest req0 = None) as Hfree.
      { intros r0 req0 Hreq0.
        destruct (previousRequest req0) as [p|] eqn:Hp0; [|done]. exfalso.
        assert (Some oldHttp = Some r0) as Hr0 by (apply (Hone r0 req0); eauto).
        assert (idle_pending t) as Hp.
        { exists h, timer. by rewrite Hcb. }
        destruct (Hbefore Hp r0 req0 Hr0 Hreq0 ltac:(eauto))
          as [[_ (hc & Hhc & Hlt)]|Herr]; [|done].
        destruct (Hlt h timer Hh) as [Hless Hdelay]; [by rewrite Hcb|].
        by apply (in_turn_order t h timer hc _ Horder Hh Hhc Hless). }
      clear Hidle1.
      revert Ho' Hrest Ho1.
      unfold _startXhrStream, _setHTTPTimeout, setTimeout, alloc.
      destruct (open_error _) as [message|]; simpl; intros Ho' Hrest Ho1.
      * (* [open] has thrown *)
        split_and!; simpl; [done| | |].
        -- intros k [= <-]. rewrite lookup_alter_eq, lookup_insert_eq. eauto.
        -- intros r0 req0. rewrite lookup_alter. case_decide; [by subst|].
           rewrite lookup_insert_ne by done.
           intros Hreq0 [p Hp0]. pose proof (Hfree r0 req0 Hreq0). congruence.
        -- intros (hi & ti & Hhi & Hci). exfalso. apply Hrest. by exists hi, ti.
      * (* the request is on its way *)
        split_and!; simpl; [done| | |].
        -- intros k [= <-]. rewrite lookup_alter_eq, lookup_insert_eq. eauto.
        -- intros r0 req0. rewrite lookup_alter. case_decide; [by subst|].
           rewrite lookup_insert_ne by done.
           intros Hreq0 [p Hp0]. pose proof (Hfree r0 req0 Hreq0). congruence.
        -- intros _ r0 req0 [= <-].
           rewrite lookup_alter_eq, lookup_insert_eq. simpl. intros [= <-] _.
           left. simpl. split; [lia|]. exists (next_timer t). split.
           ++ rewrite lookup_insert_ne by lia. by rewrite lookup_insert_eq.
           ++ intros hi ti. rewrite lookup_insert. case_decide; subst.
              ** intros [= <-] _. split; [lia|]. by vm_compute.
              ** rewrite lookup_insert. case_decide; subst.
                 --- by intros [= <-].
                 --- intros Hhi Hci. exfalso. apply Hrest. by exists hi, ti.
Qed.

Lemma handed_over_run inputs t :
  handed_over inputs t -> orderly parse stringify inputs t = true ->
  handed_over [] (orun inputs t).1.
Proof.
  revert t. induction inputs as [|i inputs IH]; intros t Ht Horder; [done|].
  simpl in Horder. apply andb_true_iff in Horder as [Hi Hrest].
  rewrite (run_cons_state parse stringify). apply IH; [|done].
  by apply handed_over_step.
Qed.

(** X22.  With a host that keeps the order of its timers and reports the
    headers of a request before any later state, no request but the
    current one keeps a predecessor, whatever is called and whatever
    happens: one predecessor at most is retained at a time. *)
Theorem one_predecessor_in_order secure host port path key inputs r req :
  let t := (Transport.run parse stringify inputs
              (new secure host port path key)).1 in
  orderly parse stringify inputs (new secure host port path key) = true ->
  store t !! r = Some req -> is_Some (previousRequest req) ->
  _httpRequest t = Some r /\
  forall r' req',
    store t !! r' = Some req' -> is_Some (previousRequest req') -> r' = r.
Proof.
  intros t Horder Hreq Hp.
  assert (handed_over [] t) as (_ & _ & Hone & _).
  { apply handed_over_run; [|done].
    assert (forall h, timers (new secure host port path key) !! h = None) as Hno
      by (intros h; apply lookup_empty).
    split_and!; simpl; try done.
    split_and!; simpl; try done.
    all: intros h; by rewrite lookup_empty. }
  pose proof (Hone r req Hreq Hp) as Hr. split; [done|].
  intros r' req' Hreq' Hp'. pose proof (Hone r' req' Hreq' Hp'). congruence.
Qed.

End OrderlyFacts.

Section RunOrderly.
Import Poll Transport Further Examples.

Lemma one_predecessor_in_order_witness :
  let t := (Transport.run JSON.parse serialise in_good_order transport).1 in
  orderly JSON.parse serialise in_good_order transport = true /\
  previousRequest <$> store t !! 2 = Some (Some 1) /\
  _httpRequest t = Some 2 /\
  forall r' req',
    store t !! r' = Some req' -> is_Some (previousRequest req') -> r' = 2.
Proof.
  intros t.
  assert (orderly JSON.parse serialise in_good_order transport = true) as Ho
    by (vm_compute; reflexivity).
  assert (store t !! 2
          = Some (set_previousRequest (Some 1)
                    (set_xhr opened (Poll.new 2 "http://h:9000/k/id1/tok"))))
    as H2 by (vm_compute; reflexivity).
  split; [exact Ho|]. split; [vm_compute; reflexivity|].
  exact (one_predecessor_in_order JSON.parse serialise false "h" 9000 "/" "k"
           in_good_order 2 _ Ho H2 (mk_is_Some _ _ eq_refl)).
Defined.

(** The host that runs the idle timeout of a request before its open
    timeout does not keep order. *)
Example idle_before_open_out_of_order :
  orderly JSON.parse serialise
    [CallStart "id1" "tok"; TimerFires 2; TimerFires 4] transport = false.
Proof. vm_compute. reflexivity. Qed.

End RunOrderly.

(** ** [ServerConnection]: the other ways through a session *)

Section ChannelPaths.
Import Channel Further.
Context {M : Type}.
Implicit Types (s : ServerConnection) (i : Input (M := M)) (e : Event M)
  (before after inputs : list (N * Input (M := M))).

(** While the open timeout is pending, quiet inputs that come before it
    is due leave the channel as it is. *)
Lemma react_pending_state due now i s :
  pending due s -> (now < due)%N -> quiet i = true -> (react now i s).1 = s.
Proof.
  intros [Hc Ht] Hnow Hq. unfold react, expire. rewrite Ht.
  destruct (N.leb_spec due now); [lia|]. simpl.
  destruct i as [| | |[] e]; simpl in *; try done.
  - unfold send. by rewrite Hc.
  - unfold _interceptedSocketEmit. rewrite Ht.
    by destruct (event_type e).
Qed.

Lemma run_pending_state due before s :
  pending due s ->
  Forall (fun '(now, i) => (now < due)%N /\ quiet i = true) before ->
  (run before s).1 = s.
Proof.
  intros Hs Hpre. revert s Hs.
  induction Hpre as [|[now i] pre [Hnow Hq] _ IH]; intros s Hs; [done|].
  simpl. pose proof (react_pending_state due now i s Hs Hnow Hq) as E.
  destruct (react now i s) as [s1 out1]. simpl in E. subst s1.
  specialize (IH s Hs). by destruct (run pre s).
Qed.

Lemma handle_settled now i s :
  settled s -> is_start i = false ->
  settled (handle now i s).1 /\ http_starts (handle now i s).2 = 0 /\
  (is_close i = false ->
   _currentConnection (handle now i s).1 = _currentConnection s).
Proof.
  intros Hs Hi. pose proof Hs as [Hc Ht].
  destruct i as [| | |[] e]; simpl in *; try done.
  - unfold send. by destruct (_currentConnection s) as [[]|] eqn:Hcur.
  - unfold close. by destruct (_currentConnection s) as [[]|] eqn:Hcur.
  - unfold _interceptedSocketEmit. rewrite Ht. by case_bool_decide.
  - unfold _interceptedHttpRequestEmit. by case_bool_decide.
Qed.

Lemma run_settled after s :
  settled s -> Forall (fun '(_, i) => is_start i = false) after ->
  settled (run after s).1 /\ http_starts (run after s).2 = 0 /\
  (Forall (fun '(_, i) => is_close i = false) after ->
   _currentConnection (run after s).1 = _currentConnection s).
Proof.
  intros Hs Hafter. revert s Hs.
  induction Hafter as [|[now i] after Hi _ IH]; intros s Hs.
  - by split_and!.
  - simpl. unfold react, expire.
    pose proof Hs as [_ Ht]. rewrite Ht.
    destruct (handle_settled now i s Hs Hi) as (Hs1 & Hout1 & Hc1).
    destruct (handle now i s) as [s1 out1]. simpl in *.
    destruct (IH s1 Hs1) as (Hs2 & Hout2 & Hc2).
    destruct (run after s1) as [s2 out2]. simpl in *.
    split_and!; [done|by rewrite http_starts_app, Hout1, Hout2|].
    intros [Hcl Hrest]%Forall_cons. rewrite Hc2, Hc1 by done. done.
Qed.

(** X15.  A session is started at time [t0] and the web socket emits a
    message before the open timeout is due, nothing but quiet inputs
    having come first.  The message is passed on, the timeout is
    cancelled, and whatever follows in the session, a disconnect of the
    web socket among it, the fallback is never started: the channel stays
    on the web socket until it is closed. *)
Theorem message_keeps_primary s0 t0 id token before t m after now :
  let due := (t0 + CONNECTION_OPEN_TIMEOUT)%N in
  let started := (start (M := M) t0 id token s0).1 in
  let trace := before ++ (t, Emits WebSocket (EvMessage m)) :: after in
  Forall (fun '(t, i) => (t < due)%N /\ quiet i = true) before ->
  (t < due)%N ->
  Forall (fun '(_, i) => is_start i = false) after ->
  EvMessage m ∈ forwarded (observe trace now started).2 /\
  http_starts (observe trace now started).2 = 0 /\
  _currentConnection (observe trace now started).1 <> Some Http /\
  (Forall (fun '(_, i) => is_close i = false) after ->
   _currentConnection (observe trace now started).1 = Some WebSocket).
Proof.
  intros due started trace Hbefore Ht Hafter. subst trace.
  destruct (start_pending (M := M) t0 id token s0) as [Hs _].
  fold started due in Hs. clearbody started due.
  pose proof (run_pending_state due before started Hs Hbefore) as Hstate.
  destruct (run_pending due before started Hs Hbefore) as [_ Hout0].
  unfold observe. rewrite run_app_channel.
  destruct (run before started) as [s1 out1]. simpl in Hstate, Hout0. subst s1.
  simpl. unfold react, expire.
  destruct Hs as [Hc Hto]. rewrite Hto.
  destruct (N.leb_spec due t); [lia|]. simpl.
  unfold _interceptedSocketEmit. rewrite Hto. simpl. rewrite Hc.
  rewrite bool_decide_eq_true_2 by done.
  assert (settled (_stopSocketOpenTimeout started)) as Hset.
  { split; simpl; [by rewrite Hc|done]. }
  destruct (run_settled after _ Hset Hafter) as ([Hc2 Ht2] & Hout2 & Hkeep).
  destruct (run after (_stopSocketOpenTimeout started)) as [s2 out2].
  simpl in *. rewrite Ht2. simpl. rewrite app_nil_r.
  split_and!; [| |done|].
  - apply elem_of_forwarded, elem_of_app. right.
    apply list_elem_of_here.
  - rewrite http_starts_app, Hout0. unfold http_starts in *. done.
  - intros Hcl. by rewrite Hkeep.
Qed.

(** X16.  However a started session comes to the fallback, by a
    disconnect of the web socket before the open timeout is due or by the
    timeout, the web socket is closed and the fallback is started with
    the id and the token that [start] was given; the disconnect itself is
    not passed on. *)
Theorem fallback_same_session s0 t0 id token before t :
  let due := (t0 + CONNECTION_OPEN_TIMEOUT)%N in
  let s1 := (run before (start (M := M) t0 id token s0).1).1 in
  let fallen :=
    ({| _serverId := Some id; _serverToken := Some token;
        _currentConnection := Some Http; _socketOpenTimeout := None |},
     [Call (M := M) WebSocket CloseIt;
      Call Http (Start (Some id) (Some token))]) in
  Forall (fun '(t, i) => (t < due)%N /\ quiet i = true) before ->
  ((t < due)%N -> react t (Emits WebSocket EvDisconnected) s1 = fallen) /\
  ((due <= t)%N -> expire t s1 = fallen).
Proof.
  intros due s1 fallen Hbefore. subst s1.
  destruct (start_pending (M := M) t0 id token s0) as [Hs _].
  rewrite (run_pending_state due before _ Hs Hbefore).
  split; intros Ht.
  - unfold react, expire. simpl. fold due.
    destruct (N.leb_spec due t); [lia|]. done.
  - unfold expire. simpl. fold due.
    destruct (N.leb_spec due t); [done|lia].
Qed.

(** X17.  A closed channel is inert: until it is started again it
    passes no event on, calls neither transport, whatever is sent and
    whatever the transports emit, and stays as [close] has left it. *)
Theorem closed_channel_inert s inputs now :
  Forall (fun '(_, i) => is_start i = false) inputs ->
  observe inputs now (close (M := M) s).1 = ((close (M := M) s).1, []).
Proof.
  intros Hin. unfold observe.
  assert (forall s', _currentConnection s' = None ->
            _socketOpenTimeout s' = None ->
            run inputs s' = (s', [])) as Hrun.
  { induction Hin as [|[t i] inputs Hi _ IH]; intros s' Hc Ht; [done|].
    simpl. unfold react, expire. rewrite Ht.
    assert (handle t i s' = (s', [])) as ->.
    { destruct i as [| | |[] e]; simpl in *; try done.
      - unfold send. by rewrite Hc.
      - unfold close, _stopSocketOpenTimeout, set_current,
          set_socketOpenTimeout. simpl. rewrite Hc.
        destruct s'; simpl in *. by subst.
      - unfold _interceptedSocketEmit. by rewrite Ht, Hc.
      - unfold _interceptedHttpRequestEmit. by rewrite Hc. }
    by rewrite IH. }
  rewrite Hrun by done. done.
Qed.

End ChannelPaths.

Section RunChannelPaths.
Import Channel Further Examples.

Lemma message_keeps_primary_witness :
  let after := [(6000%N, Emits WebSocket (EvDisconnected (M := JSON.value)));
                (7000%N, CallSend answer)] in
  let trace := quiet_seconds
               ++ (4000%N, Emits WebSocket (EvMessage (JSON.Num 1))) :: after in
  EvMessage (JSON.Num 1) ∈ forwarded (observe trace 9000 session).2 /\
  http_starts (observe trace 9000 session).2 = 0 /\
  _currentConnection (observe trace 9000 session).1 <> Some Http /\
  (Forall (fun '(_, i) => is_close i = false) after ->
   _currentConnection (observe trace 9000 session).1 = Some WebSocket).
Proof.
  intros after trace.
  apply (message_keeps_primary Channel.new 0 "id1" "tok" quiet_seconds 4000
           (JSON.Num 1) after 9000).
  - unfold quiet_seconds.
    repeat (apply Forall_cons_2; [split; reflexivity|]). apply Forall_nil_2.
  - reflexivity.
  - repeat (apply Forall_cons_2; [reflexivity|]). apply Forall_nil_2.
Defined.

Example disconnect_after_message_is_passed_on :
  (observe (quiet_seconds
            ++ [(4000%N, Emits WebSocket (EvMessage (JSON.Num 1)));
                (6000%N, Emits WebSocket EvDisconnected)]) 9000 session).2
  = [Call WebSocket (Send offer); Emit (EvError "slow");
     Emit (EvMessage (JSON.Num 1)); Emit EvDisconnected].
Proof. vm_compute. reflexivity. Qed.

Lemma fallback_same_session_witness :
  let fallen :=
    ({| _serverId := Some "id1"; _serverToken := Some "tok";
        _currentConnection := Some Http; _socketOpenTimeout := None |},
     [Call (M := JSON.value) WebSocket CloseIt;
      Call Http (Start (Some "id1") (Some "tok"))]) in
  react 4000 (Emits WebSocket EvDisconnected) (run quiet_seconds session).1
  = fallen /\
  expire 5000 (run quiet_seconds session).1 = fallen.
Proof.
  intros fallen.
  assert (Forall (fun '(t, i) =>
                    (t < 0 + CONNECTION_OPEN_TIMEOUT)%N /\ quiet i = true)
            quiet_seconds) as Hq.
  { unfold quiet_seconds.
    repeat (apply Forall_cons_2; [split; reflexivity|]). apply Forall_nil_2. }
  split.
  - apply (fallback_same_session Channel.new 0 "id1" "tok" quiet_seconds 4000 Hq).
    reflexivity.
  - apply (fallback_same_session Channel.new 0 "id1" "tok" quiet_seconds 5000 Hq).
    vm_compute. discriminate.
Defined.

Lemma closed_channel_inert_witness :
  observe afterwards 9000 (close (M := JSON.value) on_fallback).1
  = ((close (M := JSON.value) on_fallback).1, []).
Proof.
  apply closed_channel_inert. unfold afterwards.
  repeat (apply Forall_cons_2; [reflexivity|]). apply Forall_nil_2.
Defined.

End RunChannelPaths.

(** ** [BaseConnection]: the one timeout *)

Section TimeoutFacts.
Import Connection Further.
Variable close : BaseConnection -> BaseConnection.
Hypothesis close_keeps : close_keeps_timeout close.
Implicit Types (c : BaseConnection).

Lemma one_timer_step i c : one_timer c -> one_timer (step close i c).1.
Proof.
  intros (Hown & Hbelow & Hpos & Hzero).
  assert (forall h k, is_Some (delete k (timers c) !! h) ->
            is_Some (timers c !! h) /\ h <> k) as Hdel.
  { intros h k [d Hd]. rewrite lookup_delete in Hd. case_decide; [done|eauto]. }
  destruct i; simpl.
  - (* setCloseTimeout *)
    unfold setCloseTimeout.
    destruct (negb (reconnectable c) || negb (open c)); [done|]. simpl.
    destruct (Nat.eqb_spec (reconnectTimeoutId c) 0) as [Hid|]; [|done].
    assert (timers c = ∅) as Hempty.
    { apply map_eq. intros h. rewrite lookup_empty.
      destruct (timers c !! h) eqn:Hh; [|done].
      assert (h = reconnectTimeoutId c) as -> by eauto. congruence. }
    split_and!; simpl.
    + intros h [d Hd]. rewrite Hempty in Hd.
      rewrite lookup_insert in Hd. case_decide; [done|].
      by rewrite lookup_empty in Hd.
    + intros h [d Hd]. rewrite lookup_insert in Hd. case_decide; [lia|].
      assert (h < next_timer c) by eauto. lia.
    + lia.
    + rewrite lookup_insert_ne; [done|lia].
  - (* clearCloseTimeout *)
    split_and!; simpl; [| |done|].
    + intros h [Hh Hne]%Hdel. by apply Hown in Hh.
    + intros h [Hh _]%Hdel. eauto.
    + rewrite lookup_delete. by case_decide.
  - done.
  - done.
  - (* the timer runs *)
    unfold fire. destruct (timers c !! h) as [d|] eqn:Hh; [|done].
    unfold timeout_callback, open. simpl.
    assert (h = reconnectTimeoutId c) as -> by eauto.
    assert (one_timer
              {| _open := _open c; reconnectTimeoutId := reconnectTimeoutId c;
                 reconnectable := reconnectable c;
                 timers := delete (reconnectTimeoutId c) (timers c);
                 next_timer := next_timer c |}) as Hone.
    { split_and!; simpl; [| |done|].
      - intros h [Hh' Hne]%Hdel. by apply Hown in Hh'.
      - intros h [Hh' _]%Hdel. eauto.
      - rewrite lookup_delete. by case_decide. }
    destruct (_open c); [|done]. simpl.
    destruct Hone as (H1 & H2 & H3 & H4).
    match goal with
    | |- one_timer (close ?c0) => destruct (close_keeps c0) as (Et & En & Ei)
    end.
    unfold one_timer. rewrite Et, En, Ei. done.
Qed.

Lemma one_timer_run inputs c :
  one_timer c -> one_timer (run close inputs c).1.
Proof.
  revert c. induction inputs as [|i inputs IH]; intros c Hc; [done|]. simpl.
  pose proof (one_timer_step i c Hc) as Hc1.
  destruct (step close i c) as [c1 out1]. specialize (IH c1 Hc1).
  by destruct (run close inputs c1).
Qed.

(** X18.  Whatever is called on a connection, whatever flags its owner
    assigns and whichever timers run, at most one close timeout is
    pending, and it is the one [reconnectTimeoutId] names; a handle is
    never zero. *)
Theorem one_close_timeout_pending h0 inputs :
  let c := (run close inputs (Connection.new h0)).1 in
  forall h, is_Some (timers c !! h) ->
    h = reconnectTimeoutId c /\ h <> 0 /\
    forall h', is_Some (timers c !! h') -> h' = h.
Proof.
  intros c h Hh.
  assert (one_timer c) as (Hown & _ & _ & Hzero).
  { apply one_timer_run. split_and!; simpl; try done; try lia.
    all: intros k [d Hd]; by rewrite lookup_empty in Hd. }
  pose proof (Hown h Hh) as E. split_and!; [done| |].
  - intros ->. destruct Hh as [d Hd]. congruence.
  - intros h' Hh'. rewrite (Hown h' Hh'). done.
Qed.

(** X19.  [clearCloseTimeout] cancels the timeout and forgets its
    handle; called again it changes nothing; and after it
    [setCloseTimeout] arms a timeout anew on a connection that is open
    and reconnectable. *)
Theorem clear_then_set_again c :
  timers c !! 0 = None -> timers c !! next_timer c = None ->
  next_timer c <> 0 ->
  let c1 := clearCloseTimeout c in
  reconnectTimeoutId c1 = 0 /\
  timers c1 !! reconnectTimeoutId c = None /\
  clearCloseTimeout c1 = c1 /\
  (reconnectable c = true -> open c = true ->
   (setCloseTimeout c1).2 = true /\
   reconnectTimeoutId (setCloseTimeout c1).1 = next_timer c /\
   timers (setCloseTimeout c1).1 !! next_timer c = Some CLOSE_TIMEOUT).
Proof.
  intros Hzero Hfresh Hnz c1. subst c1. split_and!; simpl.
  - done.
  - by rewrite lookup_delete_eq.
  - unfold clearCloseTimeout. simpl. f_equal.
    apply delete_id. rewrite lookup_delete. by case_decide.
  - intros Hr Ho. unfold setCloseTimeout, open in *. simpl.
    rewrite Hr, Ho. simpl. by rewrite lookup_insert_eq.
Qed.

(** X20.  The callback of the timeout does not forget the handle.  Once
    the timeout has run, [setCloseTimeout] arms nothing, whatever flags
    the owner assigns and although it may return true, until
    [clearCloseTimeout] is called. *)
Theorem stale_handle_after_timeout c h d b1 b2 :
  timers c !! h = Some d -> reconnectTimeoutId c = h -> h <> 0 ->
  let c2 := set_reconnectable b2 (set_open b1 (fire close h c).1) in
  reconnectTimeoutId c2 = h /\
  timers c2 !! h = None /\
  setCloseTimeout c2 = (c2, b2 && b1).
Proof.
  intros Hh Hid Hnz c2. subst c2. unfold fire, timeout_callback, open.
  rewrite Hh. simpl.
  set (c0 := {| _open := _open c; reconnectTimeoutId := reconnectTimeoutId c;
                reconnectable := reconnectable c;
                timers := delete h (timers c); next_timer := next_timer c |}).
  assert (reconnectTimeoutId (if _open c then (close c0, [CallsClose])
                              else (c0, [])).1 = h /\
          timers (if _open c then (close c0, [CallsClose])
                  else (c0, [])).1 !! h = None) as [Ei Et].
  { destruct (_open c); simpl.
    - destruct (close_keeps c0) as (Et & _ & Ei). rewrite Et, Ei. simpl.
      by rewrite lookup_delete_eq.
    - by rewrite lookup_delete_eq. }
  split_and!; simpl; [done|done|].
  unfold setCloseTimeout, open. simpl. rewrite Ei.
  destruct b2, b1; simpl; try done.
  destruct (Nat.eqb_spec h 0); done.
Qed.

End TimeoutFacts.

Section RunTimeout.
Import Connection Further Examples.

Lemma teardown_keeps_timeout : close_keeps_timeout teardown.
Proof. intros c. done. Qed.

Lemma one_close_timeout_pending_witness :
  let c := (run teardown
              [AssignOpen true; AssignReconnectable true;
               CallSetCloseTimeout; CallSetCloseTimeout] (Connection.new 6)).1 in
  is_Some (timers c !! 7) /\
  7 = reconnectTimeoutId c /\ 7 <> 0 /\
  forall h', is_Some (timers c !! h') -> h' = 7.
Proof.
  intros c.
  assert (is_Some (timers c !! 7)) as H by (eexists; vm_compute; reflexivity).
  split; [exact H|].
  exact (one_close_timeout_pending teardown teardown_keeps_timeout 6 _ 7 H).
Defined.

Lemma clear_then_set_again_witness :
  let c := (setCloseTimeout connected).1 in
  timers c !! 7 = Some CLOSE_TIMEOUT /\
  reconnectTimeoutId (clearCloseTimeout c) = 0 /\
  timers (clearCloseTimeout c) !! reconnectTimeoutId c = None /\
  clearCloseTimeout (clearCloseTimeout c) = clearCloseTimeout c /\
  (reconnectable c = true -> open c = true ->
   (setCloseTimeout (clearCloseTimeout c)).2 = true /\
   reconnectTimeoutId (setCloseTimeout (clearCloseTimeout c)).1 = next_timer c /\
   timers (setCloseTimeout (clearCloseTimeout c)).1 !! next_timer c
   = Some CLOSE_TIMEOUT).
Proof.
  intros c. split; [vm_compute; reflexivity|].
  apply (clear_then_set_again c);
    [vm_compute; reflexivity|vm_compute; reflexivity|vm_compute; discriminate].
Defined.

Lemma stale_handle_after_timeout_witness :
  let c := (setCloseTimeout connected).1 in
  let c2 := set_reconnectable true (set_open true (fire teardown 7 c).1) in
  timers c !! 7 = Some CLOSE_TIMEOUT /\
  reconnectTimeoutId c2 = 7 /\
  timers c2 !! 7 = None /\
  setCloseTimeout c2 = (c2, true && true).
Proof.
  intros c c2.
  assert (timers c !! 7 = Some CLOSE_TIMEOUT) as H by (vm_compute; reflexivity).
  split; [exact H|].
  apply (stale_handle_after_timeout teardown teardown_keeps_timeout c 7
           CLOSE_TIMEOUT true true H); [reflexivity|discriminate].
Defined.

End RunTimeout.

(** ** The loop over the buffer, as the source writes it *)

Section LoopFacts.
Import Poll Transport Further.
Context {M : Type} (parse : string -> option M).

(** X21.  The loop over the buffer, written with [hasBufferedIndices],
    [popBufferedIndex] and [unshift], comes to its end within as many
    rounds as the buffer has offsets: more fuel changes nothing.  It
    leaves the read index alone and a suffix of the buffer behind, and
    it has emitted one message for each offset it has taken. *)
Theorem drain_loop_ends fuel msgs r :
  length (buffer r) <= fuel ->
  drain_loop parse fuel msgs r = drain_loop parse (length (buffer r)) msgs r /\
  index (drain_loop parse fuel msgs r).1 = index r /\
  buffer (drain_loop parse fuel msgs r).1 `suffix_of` buffer r /\
  length (drain_loop parse fuel msgs r).2
  + length (buffer (drain_loop parse fuel msgs r).1)
  = length (buffer r).
Proof.
  intros Hfuel.
  rewrite (drain_loop_drain parse fuel msgs r Hfuel).
  rewrite (drain_loop_drain parse (length (buffer r)) msgs r) by done.
  destruct (drain_split parse msgs (buffer r)) as (taken & Hbuf & Hout).
  simpl. split_and!; [done|done|apply drain_suffix|].
  apply Forall2_length in Hout. rewrite Hbuf at 3.
  rewrite length_app. lia.
Qed.

End LoopFacts.

Section RunLoop.
Import Poll Transport Further Examples.

Lemma drain_loop_ends_witness :
  let r := loading (js "0|{'a':1}|{'b':2}|") waiting in
  let msgs := getMessages r in
  length (buffer r) <= 5 /\
  drain_loop JSON.parse 5 msgs r = drain_loop JSON.parse (length (buffer r)) msgs r /\
  index (drain_loop JSON.parse 5 msgs r).1 = index r /\
  buffer (drain_loop JSON.parse 5 msgs r).1 `suffix_of` buffer r /\
  length (drain_loop JSON.parse 5 msgs r).2
  + length (buffer (drain_loop JSON.parse 5 msgs r).1)
  = length (buffer r).
Proof.
  intros r msgs.
  assert (length (buffer r) <= 5) as H by (vm_compute; lia).
  split; [exact H|].
  exact (drain_loop_ends JSON.parse 5 msgs r H).
Defined.

End RunLoop.
